(** * 02562-rendering: the path tracer's intersection, BSDF and accumulation
      routines, embedded from the WGSL shaders.

    Scalars of type [f32] are real numbers.  Where a property hangs on the
    rounding, the operation rounds to binary32 (to nearest, ties to even):
    the conversion [f32(n)] of a [u32], which the random number generator
    and the frame counter go through, and the running mean at the end of
    [main_fs].  The other operations are exact; NaN and infinities are
    outside the model, and a quotient with divisor 0 is 0 as in the library
    of reals.  Integers of type [u32] are [Z] with the wrap-around modulo
    2^32 written out.  A [ptr<function, T>] parameter
    becomes an argument of type [T] together with the updated value in the
    result. *)

From Stdlib Require Import Reals Lra Lia ZArith List Bool RNsatz.
Import ListNotations.

Open Scope R_scope.

(* ================================================================== *)
(** * Part I: the embedding                                            *)
(* ================================================================== *)

(** ** Scalars *)

Module Scalar.

  (** WGSL comparison operators on [f32]. *)
Definition flt (x y : R) : bool := if Rlt_dec x y then true else false.
Definition fgt (x y : R) : bool := flt y x.
Definition fle (x y : R) : bool := if Rle_dec x y then true else false.
Definition fge (x y : R) : bool := fle y x.

  (** [select(f, t, cond)]: [t] when [cond] holds, [f] otherwise. *)
Definition select {A : Type} (f t : A) (cond : bool) : A :=
    if cond then t else f.

  (** [sign(x)]. *)
Definition sign (x : R) : R :=
    if flt 0 x then 1 else if flt x 0 then -1 else 0.

  (** [u32] arithmetic. *)
Definition wrap32 (n : Z) : Z := (n mod 4294967296)%Z.
Definition u32_add (a b : Z) : Z := wrap32 (a + b).
Definition u32_sub (a b : Z) : Z := wrap32 (a - b).
Definition u32_mul (a b : Z) : Z := wrap32 (a * b).
Definition u32_shl (a k : Z) : Z := wrap32 (Z.shiftl a k).
Definition u32_shr (a k : Z) : Z := Z.shiftr a k.

  (** [n] rounded to a multiple of [2^k], to the nearest one, and to the
      one with the even quotient when two are equally near. *)
Definition round_bits (n k : Z) : Z :=
    let q := Z.shiftr n k in
    let r := (n - Z.shiftl q k)%Z in
    let half := Z.shiftl 1 (k - 1) in
    let up := if (r <? half)%Z then false
              else if (half <? r)%Z then true
              else Z.odd q in
    Z.shiftl (if up then q + 1 else q)%Z k.

  (** The nearest integer with a significand of 24 bits: an integer of at
      most 24 bits is kept, a longer one loses its low bits. *)
Definition round_u32 (n : Z) : Z :=
    let k := (Z.log2 n - 23)%Z in
    if (k <=? 0)%Z then n else round_bits n k.

  (** [f32(n)] for [n : u32].  WGSL lets an implementation return either
      f32 neighbour of an integer that is not an f32 number; this is the
      nearest one, which the conversion instructions return. *)
Definition f32_of_u32 (n : Z) : R := IZR (round_u32 n).

  (** [pow(x, y)], which is [exp2(y * log2(x))]: 0 at base 0; a negative
      base has no result in WGSL and is given 0 here as well. *)
Definition fpow (x y : R) : R := if flt 0 x then Rpower x y else 0.

  (** [u32(x)] for [x : f32]: truncation, saturating at the ends of the
      range. *)
Definition u32_of_f32 (x : R) : Z :=
    Z.max 0 (Z.min 4294967295 (Int_part x)).

  (** Reading [a[i]] from a buffer; an index past the end reads the
      default. *)
Definition get {A : Type} (d : A) (a : list A) (i : Z) : A :=
    nth (Z.to_nat i) a d.

  (** Writing [a[i] = v] in a fixed-size array; an index past the end
      writes nothing. *)
Fixpoint set_nth {A : Type} (a : list A) (n : nat) (v : A) : list A :=
    match a, n with
    | [], _ => []
    | _ :: tl, O => v :: tl
    | hd :: tl, S n' => hd :: set_nth tl n' v
    end.

Definition set {A : Type} (a : list A) (i : Z) (v : A) : list A :=
    set_nth a (Z.to_nat i) v.

  (** The half-open range [0, count) a [for (var j = 0u; j < count; j++)]
      loop runs over. *)
Definition range (count : Z) : list Z :=
    map Z.of_nat (seq 0 (Z.to_nat count)).

End Scalar.

Import Scalar.

(** ** Rounding to binary32 *)

Module F32.

  (** The integer nearest to [y]; of two at the same distance, the even
      one. *)
Definition rne (y : R) : Z :=
    let f := Zfloor y in
    if Rlt_dec (y - IZR f) (1 / 2) then f
    else if Rlt_dec (1 / 2) (y - IZR f) then (f + 1)%Z
    else if Z.even f then f else (f + 1)%Z.

  (** Every f32 number is a multiple of 2^-149, the smallest positive
      one. *)
Definition scaleZ : Z := Eval cbv in (2 ^ 149)%Z.
Definition scale : R := IZR scaleZ.

  (** The unit in the last place of [x] is [2^(ulp_bits x - 149)]: a
      significand of 24 bits, and 2^-149 below 2^-125. *)
Definition ulp_bits (x : R) : Z :=
    Z.max 0 (Z.log2 (Zfloor (Rabs x * scale)) - 23).

  (** The f32 number nearest to [x], ties to the even significand, as
      IEEE 754 rounds, subnormal numbers kept.  Overflow is outside the
      model: where the result is 2^128 or more, f32 has an infinity. *)
Definition round (x : R) : R :=
    let u := IZR (2 ^ ulp_bits x) in
    IZR (rne (x * scale / u)) * u / scale.

  (** The operations, each the exact result rounded once.  WGSL asks
      this of [+] and [*]; a quotient may be up to 2.5 units in the last
      place off in WGSL, and is taken correctly rounded here, as IEEE 754
      has it.  A quotient by 0 is outside the model. *)
Definition add (x y : R) : R := round (x + y).
Definition mul (x y : R) : R := round (x * y).
Definition div (x y : R) : R := round (x / y).

  (** The finite numbers of the format: a significand below 2^24 and an
      exponent from -149 to 104. *)
Definition is_f32 (x : R) : Prop :=
    exists m k : Z,
      (Z.abs m < 2 ^ 24)%Z /\ (0 <= k <= 253)%Z
      /\ x = IZR m * IZR (2 ^ k) / scale.

End F32.

(** ** Vectors *)

Module Vec.

Record vec3 : Type := V3 { vx : R; vy : R; vz : R }.

Definition splat (s : R) : vec3 := V3 s s s.
Definition vzero : vec3 := splat 0.

Definition vadd (a b : vec3) : vec3 := V3 (vx a + vx b) (vy a + vy b) (vz a + vz b).
Definition vsub (a b : vec3) : vec3 := V3 (vx a - vx b) (vy a - vy b) (vz a - vz b).
Definition vneg (a : vec3) : vec3 := V3 (- vx a) (- vy a) (- vz a).
Definition vmul (a b : vec3) : vec3 := V3 (vx a * vx b) (vy a * vy b) (vz a * vz b).
Definition vdiv (a b : vec3) : vec3 := V3 (vx a / vx b) (vy a / vy b) (vz a / vz b).
Definition vscale (a : vec3) (s : R) : vec3 := V3 (vx a * s) (vy a * s) (vz a * s).
Definition vdivs (a : vec3) (s : R) : vec3 := V3 (vx a / s) (vy a / s) (vz a / s).
Definition vsubs (a : vec3) (s : R) : vec3 := V3 (vx a - s) (vy a - s) (vz a - s).

Definition dot (a b : vec3) : R := vx a * vx b + vy a * vy b + vz a * vz b.
Definition cross (a b : vec3) : vec3 :=
    V3 (vy a * vz b - vz a * vy b)
       (vz a * vx b - vx a * vz b)
       (vx a * vy b - vy a * vx b).
Definition length (a : vec3) : R := sqrt (dot a a).
Definition normalize (a : vec3) : vec3 := vdivs a (length a).

  (** [reflect(e1, e2) = e1 - 2 * dot(e2, e1) * e2]. *)
Definition reflect (e1 e2 : vec3) : vec3 :=
    vsub e1 (vscale e2 (2 * dot e2 e1)).

Definition vexp (a : vec3) : vec3 := V3 (exp (vx a)) (exp (vy a)) (exp (vz a)).
Definition vpow (a b : vec3) : vec3 :=
    V3 (fpow (vx a) (vx b)) (fpow (vy a) (vy b)) (fpow (vz a) (vz b)).
Definition vmin (a b : vec3) : vec3 :=
    V3 (Rmin (vx a) (vx b)) (Rmin (vy a) (vy b)) (Rmin (vz a) (vz b)).
Definition vmax (a b : vec3) : vec3 :=
    V3 (Rmax (vx a) (vx b)) (Rmax (vy a) (vy b)) (Rmax (vz a) (vz b)).

  (** [v[k]] for a component index [k]. *)
Definition vidx (v : vec3) (k : Z) : R :=
    if (k =? 0)%Z then vx v else if (k =? 1)%Z then vy v else vz v.

End Vec.

Import Vec.

(** ** The pseudo-random number generator (week08/part3/shader.wgsl,
       [tea], [mcg31], [rnd]) *)

Module Rng.

Definition tea_round (st : Z * Z * Z) : Z * Z * Z :=
    let '(v0, v1, s0) := st in
    let s0 := u32_add s0 0x9e3779b9 in
    let v0 := u32_add v0
      (Z.lxor (Z.lxor (u32_add (u32_shl v1 4) 0xa341316c) (u32_add v1 s0))
              (u32_add (u32_shr v1 5) 0xc8013ea4)) in
    let v1 := u32_add v1
      (Z.lxor (Z.lxor (u32_add (u32_shl v0 4) 0xad90777d) (u32_add v0 s0))
              (u32_add (u32_shr v0 5) 0x7e95761e)) in
    (v0, v1, s0).

Definition tea (val0 val1 : Z) : Z :=
    let '(v0, _, _) := Nat.iter 16 tea_round (val0, val1, 0%Z) in v0.

Definition LCG_A : Z := 1977654935.

  (** [mcg31] returns the new state, which is also the value. *)
Definition mcg31 (prev : Z) : Z :=
    Z.land (u32_mul LCG_A prev) 0x7FFFFFFF.

  (** [rnd(prev)]: the sample and the advanced state. *)
Definition rnd (prev : Z) : R * Z :=
    let s := mcg31 prev in
    (f32_of_u32 s / f32_of_u32 0x80000000, s).

End Rng.

(** ** Progressive accumulation (week08/part3/shader.wgsl and
       unnamed/part_002, last three lines of [main_fs]; the host loop is
       [progressiveRender] in the accompanying main.js) *)

Module Accum.

  (** The f32 operations on [vec3f], component by component. *)
Definition fscale (a : vec3) (s : R) : vec3 :=
    V3 (F32.mul (vx a) s) (F32.mul (vy a) s) (F32.mul (vz a) s).
Definition fadd (a b : vec3) : vec3 :=
    V3 (F32.add (vx a) (vx b)) (F32.add (vy a) (vy b)) (F32.add (vz a) (vz b)).
Definition fdivs (a : vec3) (s : R) : vec3 :=
    V3 (F32.div (vx a) s) (F32.div (vy a) s) (F32.div (vz a) s).

  (** [curr_sum = textureLoad(...).rgb * f32(frame)];
      [accum_color = (res + curr_sum) / f32(frame + 1u)], each operation
      rounded.  At frame 2^32 - 1 the divisor [f32(frame + 1u)] is
      [f32(0)]: the shader's quotient is no number there, and nothing
      below reads the model at that frame. *)
Definition accumulate (res prev : vec3) (frame : Z) : vec3 :=
    let curr_sum := fscale prev (f32_of_u32 frame) in
    fdivs (fadd res curr_sum) (f32_of_u32 (u32_add frame 1)).

Definition below (a : vec3) (b : R) : Prop :=
    Rabs (vx a) < b /\ Rabs (vy a) < b /\ Rabs (vz a) < b.

  (** The colour written to the canvas: [pow(accum_color, 1 / gamma)]. *)
Definition display (accum_color : vec3) (gamma : R) : vec3 :=
    vpow accum_color (splat (1 / gamma)).


End Accum.

(** ** A small option monad for the fuel-bounded BSP loop *)

Definition obind {A B : Type} (o : option A) (k : A -> option B) : option B :=
  match o with
  | Some a => k a
  | None => None
  end.

Notation "' p <- e ;; k" := (obind e (fun p => k))
  (at level 61, p pattern, e at next level, right associativity).

(** ** The path tracer of week08/part3/shader.wgsl *)

Module W08.

  (** *** Structs and data layouts *)

Record vec4u : Type := U4 { ux : Z; uy : Z; uz : Z; uw : Z }.
Record vec4f : Type := V4 { rgb : vec3; alpha : R }.

Record Uniforms : Type := mkUniforms {
    aspect : R;
    camera_constant : R;
    gamma : R;
    triangle_shader : Z;
    width : Z;
    height : Z;
    frame : Z;
    no_of_jitters : Z;
    enable_background : Z;
    eye_point : vec3;
    b1 : vec3;
    b2 : vec3;
    v : vec3
  }.

Record Ray : Type := mkRay {
    origin : vec3;
    direction : vec3;
    tmin : R;
    tmax : R
  }.

Record HitInfo : Type := mkHit {
    has_hit : bool;
    distance : R;
    position : vec3;
    normal : vec3;
    diffuse : vec3;
    emission : vec3;
    specular : vec3;
    ior1_over_ior2 : R;
    shininess : R;
    shader : Z;
    triangle_idx : Z;
    emit : bool;
    throughput : vec3;
    extinction : vec3
  }.

Record Material : Type := mkMaterial { mat_emission : vec4f; mat_diffuse : vec4f }.
Record VertexInfo : Type := mkVertex { v_position : vec3; v_normal : vec3 }.
Record Aabb : Type := mkAabb { aabb_min : vec3; aabb_max : vec3 }.
Record Light : Type := mkLight { L_i : vec3; w_i : vec3; dist : R }.

(** The bind group: everything a shader invocation reads. *)
Record Scene : Type := mkScene {
    uniforms : Uniforms;
    vInfo : list VertexInfo;
    meshFaces : list vec4u;
    renderTexture : Z -> Z -> vec3;
    materials : list Material;
    aabb : Aabb;
    treeIds : list Z;
    bspTree : list vec4u;
    bspPlanes : list R;
    lightIndices : list Z
  }.

Definition MAX_LEVEL : Z := 20.
Definition BSP_LEAF : Z := 3.
Definition Pi : R := 3.1415926535.

  (** Field assignments [r.f = e] and [hit.f = e]. *)
Definition with_origin (e : vec3) (r : Ray) : Ray :=
    mkRay e (direction r) (tmin r) (tmax r).
Definition with_direction (e : vec3) (r : Ray) : Ray :=
    mkRay (origin r) e (tmin r) (tmax r).
Definition with_tmin (e : R) (r : Ray) : Ray :=
    mkRay (origin r) (direction r) e (tmax r).
Definition with_tmax (e : R) (r : Ray) : Ray :=
    mkRay (origin r) (direction r) (tmin r) e.

Definition with_has_hit (e : bool) (h : HitInfo) : HitInfo :=
    mkHit e (distance h) (position h) (normal h) (diffuse h) (emission h)
      (specular h) (ior1_over_ior2 h) (shininess h) (shader h)
      (triangle_idx h) (emit h) (throughput h) (extinction h).
Definition with_distance (e : R) (h : HitInfo) : HitInfo :=
    mkHit (has_hit h) e (position h) (normal h) (diffuse h) (emission h)
      (specular h) (ior1_over_ior2 h) (shininess h) (shader h)
      (triangle_idx h) (emit h) (throughput h) (extinction h).
Definition with_position (e : vec3) (h : HitInfo) : HitInfo :=
    mkHit (has_hit h) (distance h) e (normal h) (diffuse h) (emission h)
      (specular h) (ior1_over_ior2 h) (shininess h) (shader h)
      (triangle_idx h) (emit h) (throughput h) (extinction h).
Definition with_normal (e : vec3) (h : HitInfo) : HitInfo :=
    mkHit (has_hit h) (distance h) (position h) e (diffuse h) (emission h)
      (specular h) (ior1_over_ior2 h) (shininess h) (shader h)
      (triangle_idx h) (emit h) (throughput h) (extinction h).
Definition with_diffuse (e : vec3) (h : HitInfo) : HitInfo :=
    mkHit (has_hit h) (distance h) (position h) (normal h) e (emission h)
      (specular h) (ior1_over_ior2 h) (shininess h) (shader h)
      (triangle_idx h) (emit h) (throughput h) (extinction h).
Definition with_emission (e : vec3) (h : HitInfo) : HitInfo :=
    mkHit (has_hit h) (distance h) (position h) (normal h) (diffuse h) e
      (specular h) (ior1_over_ior2 h) (shininess h) (shader h)
      (triangle_idx h) (emit h) (throughput h) (extinction h).
Definition with_ior1_over_ior2 (e : R) (h : HitInfo) : HitInfo :=
    mkHit (has_hit h) (distance h) (position h) (normal h) (diffuse h)
      (emission h) (specular h) e (shininess h) (shader h)
      (triangle_idx h) (emit h) (throughput h) (extinction h).
Definition with_shader (e : Z) (h : HitInfo) : HitInfo :=
    mkHit (has_hit h) (distance h) (position h) (normal h) (diffuse h)
      (emission h) (specular h) (ior1_over_ior2 h) (shininess h) e
      (triangle_idx h) (emit h) (throughput h) (extinction h).
Definition with_triangle_idx (e : Z) (h : HitInfo) : HitInfo :=
    mkHit (has_hit h) (distance h) (position h) (normal h) (diffuse h)
      (emission h) (specular h) (ior1_over_ior2 h) (shininess h) (shader h)
      e (emit h) (throughput h) (extinction h).
Definition with_emit (e : bool) (h : HitInfo) : HitInfo :=
    mkHit (has_hit h) (distance h) (position h) (normal h) (diffuse h)
      (emission h) (specular h) (ior1_over_ior2 h) (shininess h) (shader h)
      (triangle_idx h) e (throughput h) (extinction h).
Definition with_throughput (e : vec3) (h : HitInfo) : HitInfo :=
    mkHit (has_hit h) (distance h) (position h) (normal h) (diffuse h)
      (emission h) (specular h) (ior1_over_ior2 h) (shininess h) (shader h)
      (triangle_idx h) (emit h) e (extinction h).
Definition with_extinction (e : vec3) (h : HitInfo) : HitInfo :=
    mkHit (has_hit h) (distance h) (position h) (normal h) (diffuse h)
      (emission h) (specular h) (ior1_over_ior2 h) (shininess h) (shader h)
      (triangle_idx h) (emit h) (throughput h) e.

Definition default_hitinfo : HitInfo :=
    mkHit false 0 vzero vzero vzero vzero vzero 0 0 0%Z 0%Z true (splat 1) vzero.

Definition default_vertex : VertexInfo := mkVertex vzero vzero.
Definition default_face : vec4u := U4 0 0 0 0.
Definition default_material : Material := mkMaterial (V4 vzero 0) (V4 vzero 0).

  (** *** Sampling helpers *)

Definition rotate_to_normal (n v : vec3) : vec3 :=
    let s := sign (vz n + 1e-16) in
    let a := -1 / (1 + Rabs (vz n)) in
    let b := vx n * vy n * a in
    vadd (vadd (vscale (V3 (1 + vx n * vx n * a) b (- s * vx n)) (vx v))
               (vscale (V3 (s * b) (s * (1 + vy n * vy n * a)) (- vy n)) (vy v)))
         (vscale n (vz v)).

Definition sample_cosine_weighted_direction (n : vec3) (t : Z) : vec3 * Z :=
    let '(r1, t) := Rng.rnd t in
    let '(r2, t) := Rng.rnd t in
    let theta := acos (sqrt (1 - r1)) in
    let phi := 2 * Pi * r2 in
    (rotate_to_normal n
       (V3 (sin theta * cos phi) (sin theta * sin phi) (cos theta)), t).

Section WithScene.

Variable sc : Scene.

Definition vInfo_at (i : Z) : VertexInfo := get default_vertex (vInfo sc) i.
Definition meshFaces_at (i : Z) : vec4u := get default_face (meshFaces sc) i.
Definition materials_at (i : Z) : Material := get default_material (materials sc) i.

    (** *** Intersection logic *)

    (** The slab test divides by the components of the direction.  For a
        component 0 the shader's quotient is an infinity or a NaN, the
        quotient of [R] is 0: for such a direction the model does not
        follow the shader. *)
Definition intersect_min_max (r : Ray) : bool * Ray :=
      let p1 := vdiv (vsub (aabb_min (aabb sc)) (origin r)) (direction r) in
      let p2 := vdiv (vsub (aabb_max (aabb sc)) (origin r)) (direction r) in
      let t_min :=
        Rmax (Rmax (Rmin (vx p1) (vx p2)) (Rmin (vy p1) (vy p2)))
             (Rmin (vz p1) (vz p2)) - 1e-3 in
      let t_max :=
        Rmin (Rmin (Rmax (vx p1) (vx p2)) (Rmax (vy p1) (vy p2)))
             (Rmax (vz p1) (vz p2)) + 1e-3 in
      if fgt t_min t_max || fgt t_min (tmax r) || flt t_max (tmin r)
      then (false, r)
      else (true, with_tmax (Rmin t_max (tmax r)) (with_tmin (Rmax t_min (tmin r)) r)).

Definition intersect_triangle (r : Ray) (hit : HitInfo) (i : Z)
      : bool * HitInfo :=
      let face := meshFaces_at i in
      let v0 := v_position (vInfo_at (ux face)) in
      let e0 := vsub (v_position (vInfo_at (uy face))) v0 in
      let e1 := vsub (v_position (vInfo_at (uz face))) v0 in
      let n_tri := cross e0 e1 in
      let q := dot (direction r) n_tri in
      if flt (Rabs q) 1e-8 then (false, hit) else
      let a := vsub v0 (origin r) in
      let t := dot a n_tri / q in
      if flt t (tmin r) || fgt t (tmax r) then (false, hit) else
      let b_p := cross a (direction r) in
      let beta := dot b_p e1 / q in
      let gamma := - dot b_p e0 / q in
      if flt beta 0 || flt gamma 0 || fgt (beta + gamma) 1 then (false, hit) else
      let hit := with_has_hit true hit in
      let hit := with_position (vadd (origin r) (vscale (direction r) t)) hit in
      let hit := with_distance t hit in
      let hit := with_normal
        (normalize
           (vadd (vadd (vscale (v_normal (vInfo_at (ux face))) (1 - beta - gamma))
                       (vscale (v_normal (vInfo_at (uy face))) beta))
                 (vscale (v_normal (vInfo_at (uz face))) gamma))) hit in
      (true, hit).

    (** The loop over the triangles of one leaf:
        [for (var j = 0u; j < count; j++) { ... }]. *)
Definition leaf_body (id : Z) (st : bool * Ray * HitInfo) (j : Z)
      : bool * Ray * HitInfo :=
      let '(found, r, hit) := st in
      let idx := get 0%Z (treeIds sc) (u32_add id j) in
      let '(b, hit) := intersect_triangle r hit idx in
      if b then (true, with_tmax (distance hit) r, with_triangle_idx idx hit)
      else (found, r, hit).

Definition leaf_loop (count id : Z) (r : Ray) (hit : HitInfo)
      : bool * Ray * HitInfo :=
      fold_left (leaf_body id) (range count) (false, r, hit).

    (** The state of the traversal loop: the loop counter [i], the current
        [node], the stack height [branch_lvl], the two private stack
        arrays, and the ray and hit record behind the pointers. *)
Record Trav : Type := mkTrav {
      t_i : Z;
      t_node : Z;
      t_branch_lvl : Z;
      t_branch_node : list (Z * Z);
      t_branch_ray : list (R * R);
      t_r : Ray;
      t_hit : HitInfo
    }.

    (** One unit of fuel pays for one test of the loop condition
        [i <= MAX_LEVEL] and the loop body that follows it; the [i++] of
        the [for] statement is folded into the next state. *)
Fixpoint trimesh_loop (fuel : nat) (st : Trav) : option (bool * Ray * HitInfo) :=
      match fuel with
      | O => None
      | S fuel =>
        let r := t_r st in
        if negb (t_i st <=? MAX_LEVEL)%Z then Some (false, r, t_hit st) else
        let tree_node := get default_face (bspTree sc) (t_node st) in
        let axis_leaf := Z.land (ux tree_node) 3 in
        if (axis_leaf =? BSP_LEAF)%Z then
          let count := u32_shr (ux tree_node) 2 in
          let id := uy tree_node in
          let '(found, r, hit) := leaf_loop count id r (t_hit st) in
          if found then Some (true, r, hit) else
          if (t_branch_lvl st =? 0)%Z then Some (false, r, hit) else
          let branch_lvl := u32_sub (t_branch_lvl st) 1 in
          let bn := get (0%Z, 0%Z) (t_branch_node st) branch_lvl in
          let br := get (0, 0) (t_branch_ray st) branch_lvl in
          trimesh_loop fuel
            (mkTrav (u32_add (fst bn) 1) (snd bn) branch_lvl
               (t_branch_node st) (t_branch_ray st)
               (with_tmax (snd br) (with_tmin (fst br) r)) hit)
        else
          let axis_dir := vidx (direction r) axis_leaf in
          let near := select (uw tree_node) (uz tree_node) (fge axis_dir 0) in
          let far := select (uz tree_node) (uw tree_node) (fge axis_dir 0) in
          let t_split :=
            (get 0 (bspPlanes sc) (t_node st) - vidx (origin r) axis_leaf)
            / select axis_dir 1e-8 (flt (Rabs axis_dir) 1e-8) in
          if fge t_split (tmax r) then
            trimesh_loop fuel
              (mkTrav (u32_add (t_i st) 1) near (t_branch_lvl st)
                 (t_branch_node st) (t_branch_ray st) r (t_hit st))
          else if fle t_split (tmin r) then
            trimesh_loop fuel
              (mkTrav (u32_add (t_i st) 1) far (t_branch_lvl st)
                 (t_branch_node st) (t_branch_ray st) r (t_hit st))
          else
            trimesh_loop fuel
              (mkTrav (u32_add (t_i st) 1) near (u32_add (t_branch_lvl st) 1)
                 (set (t_branch_node st) (t_branch_lvl st) (t_i st, far))
                 (set (t_branch_ray st) (t_branch_lvl st) (t_split, tmax r))
                 (with_tmax t_split r) (t_hit st))
      end.

    (** The private arrays [branch_node] and [branch_ray] are
        zero-initialised. *)
Definition branch_node0 : list (Z * Z) := repeat (0%Z, 0%Z) (Z.to_nat MAX_LEVEL).
Definition branch_ray0 : list (R * R) := repeat (0, 0) (Z.to_nat MAX_LEVEL).

Definition intersect_trimesh (fuel : nat) (r : Ray) (hit : HitInfo)
      : option (bool * Ray * HitInfo) :=
      trimesh_loop fuel (mkTrav 0 0 0 branch_node0 branch_ray0 r hit).

Definition intersect_sphere (r : Ray) (hit : HitInfo) (center : vec3) (radius : R)
      : bool * HitInfo :=
      let oc := vsub (origin r) center in
      let bhalf := dot oc (direction r) in
      let discriminant := bhalf * bhalf - (dot oc oc - radius * radius) in
      if flt discriminant 1e-8 then (false, hit) else
      let s_disc := sqrt discriminant in
      let t := - bhalf - s_disc in
      let t := if flt t (tmin r) || fgt t (tmax r) then - bhalf + s_disc else t in
      if flt t (tmin r) || fgt t (tmax r) then (false, hit) else
      let hit := with_has_hit true hit in
      let hit := with_distance t hit in
      let hit := with_position (vadd (origin r) (vscale (direction r) t)) hit in
      let hit := with_normal (normalize (vsub (position hit) center)) hit in
      (true, hit).

Definition intersect_scene (fuel : nat) (r : Ray) (hit : HitInfo)
      : option (bool * Ray * HitInfo) :=
      let '(ok, r) := intersect_min_max r in
      if negb ok then Some (false, r, hit) else
      let '(b, hit) := intersect_sphere r hit (V3 420 90 370) 90 in
      let '(r, hit) :=
        if b then (with_tmax (distance hit) r, with_shader 3 hit) else (r, hit) in
      let '(b, hit) := intersect_sphere r hit (V3 130 90 250) 90 in
      let '(r, hit) :=
        if b then
          let hit := with_ior1_over_ior2 (1 / 1.5) hit in
          let hit := with_shader 6 hit in
          let hit := with_extinction (V3 0.01 1 0) hit in
          (with_tmax (distance hit) r, hit)
        else (r, hit) in
      '(b, r, hit) <- intersect_trimesh fuel r hit ;;
      let '(r, hit) :=
        if b then
          let mat := materials_at (uw (meshFaces_at (triangle_idx hit))) in
          let hit := with_diffuse (rgb (mat_diffuse mat)) hit in
          let hit := with_emission (rgb (mat_emission mat)) hit in
          let hit := with_shader (triangle_shader (uniforms sc)) hit in
          (with_tmax (distance hit) r, hit)
        else (r, hit) in
      Some (has_hit hit, r, hit).

(** *** Shading, lighting and material functions *)

Definition fresnel_R (costhetai costhetat ior_i_over_t : R) : R :=
  let r_per := (ior_i_over_t * costhetai - costhetat)
               / (ior_i_over_t * costhetai + costhetat) in
  let r_par := (costhetai - ior_i_over_t * costhetat)
               / (costhetai + ior_i_over_t * costhetat) in
  0.5 * (r_per * r_per + r_par * r_par).

Definition numLights : Z := Z.of_nat (List.length (lightIndices sc)).

(** The index into [lightIndices]: [u32(rnd(t) * f32(numLights))]. *)
Definition light_slot (xi : R) : Z := u32_of_f32 (xi * f32_of_u32 numLights).

Definition sample_area_light (pos : vec3) (t : Z) : Light * Z :=
  let light := mkLight vzero vzero 0 in
  if (numLights =? 0)%Z then (light, t) else
  let '(xi, t) := Rng.rnd t in
  let l_idx := get 0%Z (lightIndices sc) (light_slot xi) in
  let face := meshFaces_at l_idx in
  let v0 := v_position (vInfo_at (ux face)) in
  let v1 := v_position (vInfo_at (uy face)) in
  let v2 := v_position (vInfo_at (uz face)) in
  let '(r1, t) := Rng.rnd t in
  let '(r2, t) := Rng.rnd t in
  let alpha := 1 - sqrt r1 in
  let beta := (1 - r2) * sqrt r1 in
  let gamma := r2 * sqrt r1 in
  let light_pos := vadd (vadd (vscale v0 alpha) (vscale v1 beta)) (vscale v2 gamma) in
  let n_light :=
    normalize (vadd (vadd (vscale (v_normal (vInfo_at (ux face))) alpha)
                          (vscale (v_normal (vInfo_at (uy face))) beta))
                    (vscale (v_normal (vInfo_at (uz face))) gamma)) in
  let w := normalize (vsub light_pos pos) in
  let d := length (vsub light_pos pos) in
  let Li :=
    vscale
      (vscale
         (vscale (rgb (mat_emission (materials_at (uw (meshFaces_at l_idx)))))
                 (Rmax (dot (vneg w) n_light) 0))
         (length (cross (vsub v1 v0) (vsub v2 v0)) * 0.5))
      (f32_of_u32 numLights) in
  (mkLight Li w d, t).

(** The shadow ray [lambertian] casts towards a light sample. *)
Definition shadow_ray (hit : HitInfo) (light : Light) : Ray :=
  mkRay (position hit) (w_i light) 1e-3 (dist light - 1e-3).

(** The unshadowed direct term
    [(hit.diffuse / Pi) * light.L_i * max(dot(hit.normal, light.w_i), 0.0)]. *)
Definition direct_term (hit : HitInfo) (light : Light) : vec3 :=
  vscale (vmul (vdivs (diffuse hit) Pi) (L_i light))
         (Rmax (dot (normal hit) (w_i light)) 0).

Definition lambertian (fuel : nat) (r : Ray) (hit : HitInfo) (t : Z)
  : option (vec3 * Ray * HitInfo * Z) :=
  let '(light, t) := sample_area_light (position hit) t in
  '(occluded, _, _) <- intersect_scene fuel (shadow_ray hit light) default_hitinfo ;;
  let V := negb occluded in
  let direct := select vzero (direct_term hit light) V in
  let hit := with_throughput (vmul (throughput hit) (diffuse hit)) hit in
  let Pd := (vx (throughput hit) + vy (throughput hit) + vz (throughput hit)) / 3 in
  let '(xi, t) := Rng.rnd t in
  if flt xi Pd then
    let hit := with_throughput (vdivs (throughput hit) Pd) hit in
    let r := with_origin (position hit) r in
    let '(dir, t) := sample_cosine_weighted_direction (normal hit) t in
    let r := with_direction dir r in
    let r := with_tmax 1e6 (with_tmin 1e-3 r) in
    let hit := with_has_hit false (with_emit false hit) in
    Some (vadd direct (emission hit), r, hit, t)
  else Some (vadd direct (emission hit), r, hit, t).

Definition mirror (r : Ray) (hit : HitInfo) : vec3 * Ray * HitInfo :=
  let hit := with_has_hit false (with_emit true hit) in
  let r := with_origin (position hit) r in
  let r := with_direction (reflect (direction r) (normal hit)) r in
  let r := with_tmax 1e6 (with_tmin 1e-3 r) in
  (vzero, r, hit).

Definition transparent (r : Ray) (hit : HitInfo) (t : Z)
  : vec3 * Ray * HitInfo * Z :=
  let hit := with_emit true hit in
  let eta := ior1_over_ior2 hit in
  let n := normal hit in
  let costhetai := dot (vneg (direction r)) n in
  (* what follows the [if (costhetai < 0.0) { ... }] block *)
  let rest (eta : R) (n : vec3) (costhetai : R) (hit : HitInfo) (t : Z) :=
    let sin2thetat := (eta * eta) * (1 - costhetai * costhetai) in
    if fgt sin2thetat 1 then
      let '(c, r, hit) := mirror r hit in (c, r, hit, t)
    else
      let costhetat := sqrt (1 - sin2thetat) in
      let R := fresnel_R costhetai costhetat eta in
      let hit := with_has_hit false hit in
      let r := with_origin (position hit) r in
      let r := with_tmax 1e6 (with_tmin 1e-3 r) in
      let '(xi, t) := Rng.rnd t in
      if flt xi R then
        (vzero, with_direction (reflect (direction r) (normal hit)) r, hit, t)
      else
        (vzero,
         with_direction
           (normalize
              (vsub (vscale (vsub (vscale n costhetai) (vneg (direction r))) eta)
                    (vscale n costhetat))) r,
         hit, t) in
  if flt costhetai 0 then
    let eta := 1 / eta in
    let n := vneg n in
    let costhetai := - costhetai in
    let Tr := vexp (vscale (vneg (extinction hit)) (distance hit)) in
    let prob := (vx Tr + vy Tr + vz Tr) / 3 in
    let '(xi, t) := Rng.rnd t in
    if flt xi prob then
      rest eta n costhetai
        (with_throughput (vmul (throughput hit) (vdivs Tr prob)) hit) t
    else (vzero, r, hit, t)
  else rest eta n costhetai hit t.

Definition shade (fuel : nat) (r : Ray) (hit : HitInfo) (t : Z)
  : option (vec3 * Ray * HitInfo * Z) :=
  if (shader hit =? 1)%Z then lambertian fuel r hit t
  else if (shader hit =? 3)%Z then
    let '(c, r, hit) := mirror r hit in Some (c, r, hit, t)
  else if (shader hit =? 6)%Z then Some (transparent r hit t)
  else Some (vadd (diffuse hit) (emission hit), r, hit, t).

(** *** The fragment shader *)

Definition bgcolor : vec3 := V3 0.1 0.3 0.6.

(** The bounce loop [for (var i = 0; i < 10; i++) { ... }] of [main_fs];
    [n] is the number of iterations left. *)
Fixpoint bounces (fuel : nat) (n : nat) (res : vec3) (r : Ray) (hit : HitInfo) (t : Z)
  : option vec3 :=
  match n with
  | O => Some res
  | S n =>
    '(b, r, hit) <- intersect_scene fuel r hit ;;
    if b then
      let tp := throughput hit in
      '(c, r, hit, t) <- shade fuel r hit t ;;
      let res := vadd res (vmul tp c) in
      if has_hit hit then Some res else bounces fuel n res r hit t
    else
      Some (vadd res
              (vmul (throughput hit)
                    (select vzero bgcolor (enable_background (uniforms sc) =? 1)%Z)))
  end.

(** [main_fs]: the frame colour and the accumulated colour of one pixel. *)
Definition main_fs (fuel : nat) (fragcoord_x fragcoord_y coords_x coords_y : R)
  : option (vec3 * vec3) :=
  let u := uniforms sc in
  let t := Rng.tea (u32_add (u32_mul (u32_of_f32 fragcoord_y) (width u))
                            (u32_of_f32 fragcoord_x)) (frame u) in
  let '(j1, t) := Rng.rnd t in
  let '(j2, t) := Rng.rnd t in
  let pjx := j1 / (f32_of_u32 (height u) * 2) in
  let pjy := j2 / (f32_of_u32 (height u) * 2) in
  let uvx := coords_x * aspect u * 0.5 in
  let uvy := coords_y * 0.5 in
  let r := mkRay (eye_point u)
             (normalize (vadd (vadd (vscale (b1 u) (uvx + pjx))
                                    (vscale (b2 u) (uvy + pjy)))
                              (vscale (v u) (camera_constant u))))
             1e-4 1e10 in
  'res <- bounces fuel 10 vzero r default_hitinfo t ;;
  let prev := renderTexture sc (u32_of_f32 fragcoord_x) (u32_of_f32 fragcoord_y) in
  let accum_color := Accum.accumulate res prev (frame u) in
  Some (Accum.display accum_color (gamma u), accum_color).

End WithScene.

End W08.

(** ** The brute-force tracer of week06/part1/shader.wgsl *)

Module W06.

Record vec3u : Type := U3 { ux : Z; uy : Z; uz : Z }.

Record Ray : Type := mkRay {
  origin : vec3;
  direction : vec3;
  tmin : R;
  tmax : R
}.

Record HitInfo : Type := mkHit {
  has_hit : bool;
  distance : R;
  position : vec3;
  normal : vec3;
  diffuse : vec3;
  emission : vec3;
  specular : vec3;
  ior1_over_ior2 : R;
  shininess : R;
  shader : Z
}.

Record Material : Type := mkMaterial { mat_emission : vec3; mat_diffuse : vec3 }.

Record Scene : Type := mkScene {
  triangle_shader : Z;
  vPositions : list vec3;
  meshFaces : list vec3u;
  meshNormals : list vec3;
  materials : list Material;
  matIndices : list Z
}.

Definition default_hitinfo : HitInfo :=
  mkHit false 0 vzero vzero vzero vzero vzero 0 0 0%Z.

Definition with_tmax (e : R) (r : Ray) : Ray :=
  mkRay (origin r) (direction r) (tmin r) e.

Section WithScene.

Variable sc : Scene.

Definition intersect_triangle (r : Ray) (hit : HitInfo) (i : Z) : bool * HitInfo :=
  let face := get (U3 0 0 0) (meshFaces sc) i in
  let v0 := get vzero (vPositions sc) (ux face) in
  let v1 := get vzero (vPositions sc) (uy face) in
  let v2 := get vzero (vPositions sc) (uz face) in
  let n0 := get vzero (meshNormals sc) (ux face) in
  let n1 := get vzero (meshNormals sc) (uy face) in
  let n2 := get vzero (meshNormals sc) (uz face) in
  let e0 := vsub v1 v0 in
  let e1 := vsub v2 v0 in
  let n := cross e0 e1 in
  let q := dot (direction r) n in
  if flt (Rabs q) 0.0001 then (false, hit) else
  let a := vsub v0 (origin r) in
  let t := dot a n / q in
  if flt t (tmin r) || fgt t (tmax r) then (false, hit) else
  let beta := dot (cross a (direction r)) e1 / q in
  let gamma := - dot (cross a (direction r)) e0 / q in
  if flt beta 0 || flt gamma 0 || flt (1 - beta - gamma) 0 then (false, hit) else
  (true,
   mkHit true t (vadd (origin r) (vscale (direction r) t))
     (normalize (vadd (vadd (vscale n0 (1 - beta - gamma)) (vscale n1 beta))
                      (vscale n2 gamma)))
     (diffuse hit) (emission hit) (specular hit) (ior1_over_ior2 hit)
     (shininess hit) (shader hit)).

Definition numTriangles : Z := Z.of_nat (List.length (meshFaces sc)).

(** The body of the loop over all triangles in [intersect_scene]. *)
Definition scene_body (st : Ray * HitInfo) (i : Z) : Ray * HitInfo :=
  let '(r, hit) := st in
  let '(b, hit) := intersect_triangle r hit i in
  if b then
    let mat := get (mkMaterial vzero vzero) (materials sc) (get 0%Z (matIndices sc) i) in
    let hit :=
      mkHit (has_hit hit) (distance hit) (position hit) (normal hit)
        (mat_diffuse mat) (mat_emission mat) (specular hit)
        (ior1_over_ior2 hit) (shininess hit) (triangle_shader sc) in
    (with_tmax (distance hit) r, hit)
  else (r, hit).

Definition intersect_scene (r : Ray) (hit : HitInfo) : bool * Ray * HitInfo :=
  let '(r, hit) := fold_left scene_body (range numTriangles) (r, hit) in
  (has_hit hit, r, hit).

End WithScene.

End W06.

(** ** The analytic scene of unnamed/part_000 (third shader: [hit_update],
       [intersect_plane], [intersect_triangle], [intersect_sphere]) *)

Module Analytic.

Record Ray : Type := mkRay {
  origin : vec3;
  direction : vec3;
  tmin : R;
  tmax : R;
  ior : R
}.

Record HitInfo : Type := mkHit {
  has_hit : bool;
  dist : R;
  position : vec3;
  normal : vec3;
  rho_a : vec3;
  rho_d : vec3;
  rho_s : vec3;
  shininess : R;
  h_ior : R;
  shader : Z;
  continue_ray : bool
}.

Definition hit_update (r : Ray) (hit : HitInfo) (t : R) (p n ra rd rs : vec3)
  (sh ior : R) (id : Z) : HitInfo :=
  if fge t (tmin r) && fle t (tmax r) && flt t (dist hit)
  then mkHit true t p (normalize n) ra rd rs sh ior id false
  else hit.

Definition intersect_plane (r : Ray) (hit : HitInfo) (p0 n ra rd rs : vec3)
  (sh : R) (id : Z) : HitInfo :=
  let denom := dot (direction r) n in
  if fgt (Rabs denom) 1e-8 then
    let t := dot (vsub p0 (origin r)) n / denom in
    hit_update r hit t (vadd (origin r) (vscale (direction r) t)) n ra rd rs sh 1 id
  else hit.

Definition intersect_triangle (r : Ray) (hit : HitInfo) (v0 v1 v2 ra rd rs : vec3)
  (sh : R) (id : Z) : HitInfo :=
  let e1 := vsub v1 v0 in
  let e2 := vsub v2 v0 in
  let h := cross (direction r) e2 in
  let a := dot e1 h in
  if flt (Rabs a) 1e-8 then hit else
  let f := 1 / a in
  let s := vsub (origin r) v0 in
  let u := f * dot s h in
  if flt u 0 || fgt u 1 then hit else
  let q := cross s e1 in
  let v := f * dot (direction r) q in
  if flt v 0 || fgt (u + v) 1 then hit else
  let t := f * dot e2 q in
  hit_update r hit t (vadd (origin r) (vscale (direction r) t)) (cross e1 e2)
    ra rd rs sh 1 id.

Definition intersect_sphere (r : Ray) (hit : HitInfo) (c : vec3) (radius : R)
  (ra rd rs : vec3) (sh ior : R) (id : Z) : HitInfo :=
  let oc := vsub (origin r) c in
  let b := dot oc (direction r) in
  let cc := dot oc oc - radius * radius in
  let disc := b * b - cc in
  if fge disc 0 then
    let s := sqrt disc in
    let t1 := - b - s in
    let t := if flt t1 (tmin r) then - b + s else t1 in
    hit_update r hit t (vadd (origin r) (vscale (direction r) t))
      (vsub (vadd (origin r) (vscale (direction r) t)) c) ra rd rs sh ior id
  else hit.

(** [intersect_scene] without its [light_pos_out] result; [matt_id] and
    [sphere_id] are [u32(U.matt_shader)] and [u32(U.sphere_shader)]. *)
Definition intersect_scene (matt_id sphere_id : Z) (r : Ray) (hit : HitInfo)
  : bool * Ray * HitInfo :=
  let hit := mkHit false (tmax r) (position hit) (normal hit) (rho_a hit)
               (rho_d hit) (rho_s hit) (shininess hit) (h_ior hit) (shader hit)
               (continue_ray hit) in
  let plane_c := V3 0.1 0.7 0 in
  let tri_c := V3 0.4 0.3 0.2 in
  let sph_c := V3 0 0 0 in
  let sph_s := V3 0.1 0.1 0.1 in
  let hit := intersect_plane r hit vzero (V3 0 1 0)
               (vscale plane_c 0.1) (vscale plane_c 0.9) vzero 0 matt_id in
  let hit := intersect_triangle r hit (V3 (-0.2) 0.1 0.9) (V3 0.2 0.1 0.9)
               (V3 (-0.2) 0.1 (-0.1))
               (vscale tri_c 0.1) (vscale tri_c 0.9) vzero 0 matt_id in
  let hit := intersect_sphere r hit (V3 0 0.5 0) 0.3
               (vscale sph_c 0.1) (vscale sph_c 0.9) sph_s 42 1.5 sphere_id in
  if has_hit hit
  then (true, mkRay (origin r) (direction r) (tmin r) (dist hit) (ior r), hit)
  else (false, r, hit).

End Analytic.

(** ** Quantities named in the properties *)

Module W08Spec.

Import W08.

Section WithScene.

Variable sc : Scene.

(** The intermediate values of [intersect_triangle] for the ray from [o]
    along [d] and triangle [i]: the determinant [q], the distance [t] and
    the barycentric coordinates [beta] and [gamma]. *)
Definition tri_e0 (i : Z) : vec3 :=
  vsub (v_position (vInfo_at sc (uy (meshFaces_at sc i))))
       (v_position (vInfo_at sc (ux (meshFaces_at sc i)))).
Definition tri_e1 (i : Z) : vec3 :=
  vsub (v_position (vInfo_at sc (uz (meshFaces_at sc i))))
       (v_position (vInfo_at sc (ux (meshFaces_at sc i)))).
Definition tri_a (o : vec3) (i : Z) : vec3 :=
  vsub (v_position (vInfo_at sc (ux (meshFaces_at sc i)))) o.
Definition tri_q (d : vec3) (i : Z) : R :=
  dot d (cross (tri_e0 i) (tri_e1 i)).
Definition tri_t (o d : vec3) (i : Z) : R :=
  dot (tri_a o i) (cross (tri_e0 i) (tri_e1 i)) / tri_q d i.
Definition tri_beta (o d : vec3) (i : Z) : R :=
  dot (cross (tri_a o i) d) (tri_e1 i) / tri_q d i.
Definition tri_gamma (o d : vec3) (i : Z) : R :=
  - dot (cross (tri_a o i) d) (tri_e0 i) / tri_q d i.

(** The shading normal [intersect_triangle] records. *)
Definition tri_normal (o d : vec3) (i : Z) : vec3 :=
  let f := meshFaces_at sc i in
  normalize
    (vadd (vadd (vscale (v_normal (vInfo_at sc (ux f)))
                        (1 - tri_beta o d i - tri_gamma o d i))
                (vscale (v_normal (vInfo_at sc (uy f))) (tri_beta o d i)))
          (vscale (v_normal (vInfo_at sc (uz f))) (tri_gamma o d i))).

(** The tests of [intersect_triangle] that do not involve the ray
    interval. *)
Definition tri_inside (o d : vec3) (i : Z) : Prop :=
  1e-8 <= Rabs (tri_q d i) /\ 0 <= tri_beta o d i /\ 0 <= tri_gamma o d i
  /\ tri_beta o d i + tri_gamma o d i <= 1.

(** The hit record [intersect_triangle] writes on success. *)
Definition tri_record (r : Ray) (hit : HitInfo) (i : Z) : HitInfo :=
  let t := tri_t (origin r) (direction r) i in
  with_normal (tri_normal (origin r) (direction r) i)
    (with_distance t
       (with_position (vadd (origin r) (vscale (direction r) t))
          (with_has_hit true hit))).

End WithScene.

End W08Spec.

(** ** Concrete scenes for the worked examples *)

Module Scenes.

Import W08.

Definition uniforms0 : Uniforms :=
  mkUniforms 1 1 1 1 1 1 0 1 0 vzero (V3 1 0 0) (V3 0 1 0) (V3 0 0 1).

Definition unit_vertices : list VertexInfo :=
  [ mkVertex (V3 0 0 0) (V3 0 0 1);
    mkVertex (V3 1 0 0) (V3 0 0 1);
    mkVertex (V3 0 1 0) (V3 0 0 1) ].

Definition white : Material := mkMaterial (V4 vzero 1) (V4 (splat 1) 1).

(** No geometry at all: every buffer is empty.  In [one_triangle] below the
    triangle is also the only entry of [lightIndices]. *)
Definition empty_scene : Scene :=
  mkScene uniforms0 [] [] (fun _ _ => vzero) [] (mkAabb vzero vzero) [] [] [] [].

(** One triangle (0,0,0), (1,0,0), (0,1,0) in a tree that is a single
    leaf: [bspTree[0].x = (1 << 2) | BSP_LEAF]. *)
Definition one_triangle : Scene :=
  mkScene uniforms0 unit_vertices [U4 0 1 2 0] (fun _ _ => vzero) [white]
    (mkAabb (V3 0 0 0) (V3 1 1 0)) [0%Z] [U4 7 0 0 0] [0] [0%Z].

(** The same triangle listed twice, both copies in the single leaf:
    [bspTree[0].x = (2 << 2) | BSP_LEAF]. *)
Definition two_coincident : Scene :=
  mkScene uniforms0 unit_vertices [U4 0 1 2 0; U4 0 1 2 0] (fun _ _ => vzero)
    [white] (mkAabb (V3 0 0 0) (V3 1 1 0)) [0%Z; 1%Z] [U4 11 0 0 0] [0] [].

(** A ray straight down onto the triangle, hitting it at distance 1. *)
Definition down_ray : Ray := mkRay (V3 (1/4) (1/4) 1) (V3 0 0 (-1)) 0 1.


(** A hit on a black diffuse surface (shader 1, albedo zero) facing +z. *)
Definition black_hit : HitInfo :=
  mkHit true 1 vzero (V3 0 0 1) vzero vzero vzero 1 0 1 0 true (splat 1) vzero.

(** A hit on the inside of a glass surface (ior 1.5) with normal +z, after
    3 units travelled in a medium of extinction 1 per channel, and a ray
    that reaches it at 53 degrees from the normal, past the critical
    angle. *)
Definition glass_hit : HitInfo :=
  mkHit true 3 vzero (V3 0 0 1) vzero vzero vzero (1 / 1.5) 0 6 0 true
    (splat 1) (splat 1).
Definition steep_ray : Ray := mkRay (V3 0 0 (-1)) (V3 (4/5) 0 (3/5)) 1e-3 1e6.


(** The same ray with the interval of a secondary ray. *)
Definition inner_ray : Ray := mkRay vzero (V3 1 0 0) 1e-3 1e6.

(** The week06 buffers for [one_triangle]. *)
Definition one_triangle06 : W06.Scene :=
  W06.mkScene 1 [V3 0 0 0; V3 1 0 0; V3 0 1 0] [W06.U3 0 1 2]
    [V3 0 0 1; V3 0 0 1; V3 0 0 1] [W06.mkMaterial vzero (splat 1)] [0%Z].

(** A ray that is oblique to every coordinate axis. *)
Definition slant_ray : Ray := mkRay (V3 0 0 1) (V3 (1/4) (1/4) (-1)) 0 10.


(** A triangle with legs of length 2/5 left of the plane x = 1/2, under a
    tree whose root splits at that plane: node 1, below the plane, is a
    leaf with the triangle; node 2, above it, is an empty leaf.  The ray
    comes down onto the triangle while drifting towards -x by 1e-9 per
    unit. *)
Definition split_vertices : list VertexInfo :=
  [ mkVertex (V3 0 0 0) (V3 0 0 1);
    mkVertex (V3 (2/5) 0 0) (V3 0 0 1);
    mkVertex (V3 0 (2/5) 0) (V3 0 0 1) ].
Definition split_scene : Scene :=
  mkScene uniforms0 split_vertices [U4 0 1 2 0] (fun _ _ => vzero) [white]
    (mkAabb (V3 0 0 0) (V3 1 1 0)) [0%Z]
    [U4 0 0 1 2; U4 7 0 0 0; U4 3 0 0 0] [1/2; 0; 0] [].
Definition split_scene06 : W06.Scene :=
  W06.mkScene 1 [V3 0 0 0; V3 (2/5) 0 0; V3 0 (2/5) 0] [W06.U3 0 1 2]
    [V3 0 0 1; V3 0 0 1; V3 0 0 1] [W06.mkMaterial vzero (splat 1)] [0%Z].
Definition drift_ray : Ray :=
  mkRay (V3 (1/10) (1/10) 1) (V3 (- (1/1000000000)) 0 (-1)) 0 10.

(** A triangle with legs of length 9/10 that straddles the plane x = 1/2,
    under a tree whose root splits at that plane.  The triangle is listed
    in the leaf on the side of its centroid only: node 1, below the
    plane; node 2, above it, is an empty leaf.  The ray comes down onto
    the part of the triangle above the plane and stays on that side over
    its whole interval. *)
Definition straddle_vertices : list VertexInfo :=
  [ mkVertex (V3 0 0 0) (V3 0 0 1);
    mkVertex (V3 (9/10) 0 0) (V3 0 0 1);
    mkVertex (V3 0 (9/10) 0) (V3 0 0 1) ].
Definition straddle_scene : Scene :=
  mkScene uniforms0 straddle_vertices [U4 0 1 2 0] (fun _ _ => vzero) [white]
    (mkAabb (V3 0 0 0) (V3 1 1 0)) [0%Z]
    [U4 0 0 1 2; U4 7 0 0 0; U4 3 0 0 0] [1/2; 0; 0] [].
Definition straddle_scene06 : W06.Scene :=
  W06.mkScene 1 [V3 0 0 0; V3 (9/10) 0 0; V3 0 (9/10) 0] [W06.U3 0 1 2]
    [V3 0 0 1; V3 0 0 1; V3 0 0 1] [W06.mkMaterial vzero (splat 1)] [0%Z].
Definition right_ray : Ray :=
  mkRay (V3 (3/4) (3/20) 1) (V3 (- (1/20)) (- (1/20)) (-1)) 0 2.

(** Two triangles with legs of length 2/5 on either side of the plane
    x = 1/2, under a tree whose root splits at that plane: node 1, below
    the plane, is a leaf with the first triangle, and node 2, above it, a
    leaf with the second.  The ray starts over the second triangle and
    crosses the plane on its way down to the first one, which it hits at
    distance 1. *)
Definition pair_vertices : list VertexInfo :=
  [ mkVertex (V3 0 0 0) (V3 0 0 1);
    mkVertex (V3 (2/5) 0 0) (V3 0 0 1);
    mkVertex (V3 0 (2/5) 0) (V3 0 0 1);
    mkVertex (V3 (3/5) 0 0) (V3 0 0 1);
    mkVertex (V3 1 0 0) (V3 0 0 1);
    mkVertex (V3 (3/5) (2/5) 0) (V3 0 0 1) ].
Definition pair_scene : Scene :=
  mkScene uniforms0 pair_vertices [U4 0 1 2 0; U4 3 4 5 0] (fun _ _ => vzero)
    [white] (mkAabb (V3 0 0 0) (V3 1 1 0)) [0%Z; 1%Z]
    [U4 0 0 1 2; U4 7 0 0 0; U4 7 1 0 0] [1/2; 0; 0] [].
Definition crossing_ray : Ray :=
  mkRay (V3 (9/10) (3/20) 1) (V3 (- (4/5)) (- (1/20)) (-1)) 0 10.


(** A generator state that [mcg31] takes to 2^31 - 1, the largest state:
    2^31 minus the inverse of [LCG_A] modulo 2^31. *)
Definition top_state : Z := 2054635225.

(** A lamp: the unit square at height 2, facing down, made of two
    triangles of emission 1 that are both listed in [lightIndices]; the
    tree is a single leaf. *)
Definition lamp_vertices : list VertexInfo :=
  [ mkVertex (V3 0 0 2) (V3 0 0 (-1));
    mkVertex (V3 1 0 2) (V3 0 0 (-1));
    mkVertex (V3 0 1 2) (V3 0 0 (-1));
    mkVertex (V3 1 1 2) (V3 0 0 (-1)) ].
Definition glowing : Material := mkMaterial (V4 (splat 1) 1) (V4 vzero 1).
Definition lamp_scene : Scene :=
  mkScene uniforms0 lamp_vertices [U4 0 1 2 0; U4 1 3 2 0] (fun _ _ => vzero)
    [glowing] (mkAabb (V3 0 0 2) (V3 1 1 2)) [0%Z; 1%Z] [U4 11 0 0 0] [0]
    [0%Z; 1%Z].

End Scenes.

(** ** Quantities of the BSDFs named in the properties *)

Module BsdfSpec.

Import W08.

(** The components of a BSDF result [(radiance, ray, hit, seed)]. *)
Definition res_radiance (x : vec3 * Ray * HitInfo * Z) : vec3 := fst (fst (fst x)).
Definition res_ray (x : vec3 * Ray * HitInfo * Z) : Ray := snd (fst (fst x)).
Definition res_hit (x : vec3 * Ray * HitInfo * Z) : HitInfo := snd (fst x).
Definition res_seed (x : vec3 * Ray * HitInfo * Z) : Z := snd x.

(** [transparent]: the cosine of incidence against the stored normal. *)
Definition costhetai (r : Ray) (hit : HitInfo) : R :=
  dot (vneg (direction r)) (normal hit).

(** The ray leaves the volume when that cosine is negative. *)
Definition exiting (r : Ray) (hit : HitInfo) : Prop := costhetai r hit < 0.

(** [Tr = exp(-hit.extinction * hit.distance)] and its average channel. *)
Definition transmittance (hit : HitInfo) : vec3 :=
  vexp (vscale (vneg (extinction hit)) (distance hit)).
Definition survival (hit : HitInfo) : R :=
  (vx (transmittance hit) + vy (transmittance hit) + vz (transmittance hit)) / 3.

(** The relative index of refraction after the swap on exit, and the
    refraction discriminant [sin2thetat]. *)
Definition eta_eff (r : Ray) (hit : HitInfo) : R :=
  if flt (costhetai r hit) 0 then 1 / ior1_over_ior2 hit else ior1_over_ior2 hit.
Definition sin2thetat (r : Ray) (hit : HitInfo) : R :=
  (eta_eff r hit * eta_eff r hit) * (1 - costhetai r hit * costhetai r hit).
Definition total_internal_reflection (r : Ray) (hit : HitInfo) : Prop :=
  sin2thetat r hit > 1.

(** [lambertian]: the throughput after [hit.throughput *= hit.diffuse] and
    the survival probability [Pd]. *)
Definition tinted (hit : HitInfo) : vec3 := vmul (throughput hit) (diffuse hit).
Definition Pd (hit : HitInfo) : R :=
  (vx (tinted hit) + vy (tinted hit) + vz (tinted hit)) / 3.

(** The hit record after the absorption step of [transparent]: [emit] is
    set, and on exit the throughput is scaled by [Tr / prob]. *)
Definition absorbed (r : Ray) (hit : HitInfo) : HitInfo :=
  if flt (costhetai r hit) 0
  then with_throughput
         (vmul (throughput hit) (vdivs (transmittance hit) (survival hit)))
         (with_emit true hit)
  else with_emit true hit.

(** The seed after the absorption step: one draw on exit, none on entry. *)
Definition absorbed_seed (r : Ray) (hit : HitInfo) (t : Z) : Z :=
  if flt (costhetai r hit) 0 then snd (Rng.rnd t) else t.

(** Next-event estimation: the light triangle picked from seed [t], the
    two numbers drawn for the point on it, its barycentric weights and its
    area. *)
Definition light_index (sc : Scene) (t : Z) : Z :=
  get 0%Z (lightIndices sc) (light_slot sc (fst (Rng.rnd t))).
Definition light_v0 (sc : Scene) (t : Z) : vec3 :=
  v_position (vInfo_at sc (ux (meshFaces_at sc (light_index sc t)))).
Definition light_v1 (sc : Scene) (t : Z) : vec3 :=
  v_position (vInfo_at sc (uy (meshFaces_at sc (light_index sc t)))).
Definition light_v2 (sc : Scene) (t : Z) : vec3 :=
  v_position (vInfo_at sc (uz (meshFaces_at sc (light_index sc t)))).
Definition light_r1 (t : Z) : R := fst (Rng.rnd (snd (Rng.rnd t))).
Definition light_r2 (t : Z) : R := fst (Rng.rnd (snd (Rng.rnd (snd (Rng.rnd t))))).
Definition light_alpha (t : Z) : R := 1 - sqrt (light_r1 t).
Definition light_beta (t : Z) : R := (1 - light_r2 t) * sqrt (light_r1 t).
Definition light_gamma (t : Z) : R := light_r2 t * sqrt (light_r1 t).
Definition light_pos (sc : Scene) (t : Z) : vec3 :=
  vadd (vadd (vscale (light_v0 sc t) (light_alpha t))
             (vscale (light_v1 sc t) (light_beta t)))
       (vscale (light_v2 sc t) (light_gamma t)).
Definition light_normal (sc : Scene) (t : Z) : vec3 :=
  let f := meshFaces_at sc (light_index sc t) in
  normalize
    (vadd (vadd (vscale (v_normal (vInfo_at sc (ux f))) (light_alpha t))
                (vscale (v_normal (vInfo_at sc (uy f))) (light_beta t)))
          (vscale (v_normal (vInfo_at sc (uz f))) (light_gamma t))).
Definition light_area (sc : Scene) (t : Z) : R :=
  length (cross (vsub (light_v1 sc t) (light_v0 sc t))
                (vsub (light_v2 sc t) (light_v0 sc t))) * 0.5.
Definition light_emission (sc : Scene) (t : Z) : vec3 :=
  rgb (mat_emission (materials_at sc (uw (meshFaces_at sc (light_index sc t))))).

(** The single-sample estimate of the radiance that arrives at [pos] from
    one of [numLights] area lights, the light and the point on it chosen
    uniformly: the emitted radiance times the cosine at the light, times
    the area and the number of lights (one over the probability density
    of the sample), over the squared distance.  [sample_area_light] of
    week06/part1 divides its sum over the lights by [dist * dist] in this
    way, as [sample_point_light] does with the intensity. *)
Definition unbiased_L_i (sc : Scene) (pos : vec3) (t : Z) : vec3 :=
  let w := normalize (vsub (light_pos sc t) pos) in
  let d := length (vsub (light_pos sc t) pos) in
  vdivs
    (vscale
       (vscale
          (vscale (light_emission sc t)
                  (Rmax (dot (vneg w) (light_normal sc t)) 0))
          (light_area sc t))
       (IZR (numLights sc)))
    (d * d).

End BsdfSpec.

(** ** Quantities of the sphere test named in the properties *)

Module SphereSpec.

(** For a ray from [o] along [d] and a sphere at [c] of radius [radius]:
    half the linear coefficient, the discriminant and the two roots of the
    quadratic. *)
Definition bhalf (o d c : vec3) : R := dot (vsub o c) d.
Definition discriminant (o d c : vec3) (radius : R) : R :=
  bhalf o d c * bhalf o d c - (dot (vsub o c) (vsub o c) - radius * radius).
Definition near_root (o d c : vec3) (radius : R) : R :=
  - bhalf o d c - sqrt (discriminant o d c radius).
Definition far_root (o d c : vec3) (radius : R) : R :=
  - bhalf o d c + sqrt (discriminant o d c radius).


(** The hit record the week08 [intersect_sphere] writes for distance [t]. *)
Definition sphere_record (r : W08.Ray) (hit : W08.HitInfo) (c : vec3) (t : R)
  : W08.HitInfo :=
  let p := vadd (W08.origin r) (vscale (W08.direction r) t) in
  W08.with_normal (normalize (vsub p c))
    (W08.with_position p (W08.with_distance t (W08.with_has_hit true hit))).

End SphereSpec.

(** ** Bookkeeping of the traversal stack *)

Module TravSpec.

Import W08.

(** An upper bound on the iterations the loop can still make below a node
    reached with loop counter [i]: 2^(21-i) - 1. *)
Definition level_cost (i : Z) : Z := (2 ^ (21 - i) - 1)%Z.

(** The first [lvl] entries of [branch_node] each stand for a far subtree
    that will be entered with counter [saved i + 1]. *)
Fixpoint stack_cost (bn : list (Z * Z)) (lvl : nat) : Z :=
  match lvl with
  | O => 0%Z
  | S k => (level_cost (fst (nth k bn (0%Z, 0%Z)) + 1) + stack_cost bn k)%Z
  end.

Definition measure (st : Trav) : Z :=
  if (t_i st <=? 20)%Z
  then (level_cost (t_i st)
        + stack_cost (t_branch_node st) (Z.to_nat (t_branch_lvl st)) + 1)%Z
  else 1%Z.

(** The saved counters on the stack increase strictly from the bottom and
    stay below the current counter [i]. *)
Fixpoint stack_ok (bn : list (Z * Z)) (lvl : nat) (i : Z) : Prop :=
  match lvl with
  | O => (0 <= i)%Z
  | S k => (fst (nth k bn (0%Z, 0%Z)) < i)%Z
           /\ stack_ok bn k (fst (nth k bn (0%Z, 0%Z)))
  end.

Definition trav_inv (st : Trav) : Prop :=
  (0 <= t_i st <= 21)%Z
  /\ (0 <= t_branch_lvl st)%Z
  /\ List.length (t_branch_node st) = 20%nat
  /\ List.length (t_branch_ray st) = 20%nat
  /\ ((t_i st <= 20)%Z ->
      stack_ok (t_branch_node st) (Z.to_nat (t_branch_lvl st)) (t_i st)).

(** Enough fuel for any traversal: 2^21 iterations. *)
Definition full_fuel : nat := Z.to_nat 2097152.

End TravSpec.

(** ** The thin-lens camera *)

Module ThinLens.

Import W08.

(** The pinhole ray: [get_camera_ray] of unnamed/part_002 (the week08
    shader inlines the same expression in [main_fs]). *)
Definition get_camera_ray (u : Uniforms) (ipx ipy : R) : Ray :=
  let q := vadd (vadd (vscale (b1 u) ipx) (vscale (b2 u) ipy))
                (vscale (v u) (camera_constant u)) in
  mkRay (eye_point u) (normalize q) 1e-4 1e10.

(** Modelled from the spec: the shader of project/part01 with the
    thin-lens camera is not among the sources; section 4.3 describes
    [thinLensRay(pixel, rng)] as sampling a point on a disk of radius
    aperture/2 by concentric-disk sampling.  [concentric_disk] maps two
    uniform samples to the unit disk (Shirley and Chiu's concentric map). *)
Definition concentric_disk (u1 u2 : R) : R * R :=
  let a := 2 * u1 - 1 in
  let b := 2 * u2 - 1 in
  if flt (Rabs b) (Rabs a) then
    (a * cos (PI / 4 * (b / a)), a * sin (PI / 4 * (b / a)))
  else if flt 0 (Rabs b) then
    (b * cos (PI / 2 - PI / 4 * (a / b)), b * sin (PI / 2 - PI / 4 * (a / b)))
  else (0, 0).

(** Modelled from the spec: the lens point, a point of the disk of radius
    aperture/2 around the eye in the plane spanned by [b1] and [b2]. *)
Definition lens_offset (aperture : R) (t : Z) : R * R * Z :=
  let '(u1, t) := Rng.rnd t in
  let '(u2, t) := Rng.rnd t in
  let '(dx, dy) := concentric_disk u1 u2 in
  (aperture / 2 * dx, aperture / 2 * dy, t).

(** The camera frame of the uniforms: [b1], [b2] and the view direction
    [v] are unit vectors at right angles, as the host computes them. *)
Definition orthonormal (u : Uniforms) : Prop :=
  dot (b1 u) (b1 u) = 1 /\ dot (b2 u) (b2 u) = 1 /\ dot (v u) (v u) = 1
  /\ dot (b1 u) (b2 u) = 0 /\ dot (b1 u) (v u) = 0 /\ dot (b2 u) (v u) = 0.

(** Modelled from the spec: the focal plane, the plane at right angles to
    the view direction at distance [focalDistance] from the eye. *)
Definition on_focal_plane (u : Uniforms) (focalDistance : R) (p : vec3) : Prop :=
  dot (vsub p (eye_point u)) (v u) = focalDistance.

(** Modelled from the spec: the sharp-focus point, where the pinhole ray
    through the pixel meets the focal plane. *)
Definition focus_point (u : Uniforms) (focalDistance ipx ipy : R) : vec3 :=
  let pin := get_camera_ray u ipx ipy in
  vadd (origin pin)
       (vscale (direction pin) (focalDistance / dot (direction pin) (v u))).

(** Modelled from the spec: [thinLensRay(pixel, rng)], the ray from the
    sampled lens point toward the focus point. *)
Definition thin_lens_ray (u : Uniforms) (aperture focalDistance ipx ipy : R) (t : Z)
  : Ray * Z :=
  let '(lx, ly, t) := lens_offset aperture t in
  let lens := vadd (vadd (eye_point u) (vscale (b1 u) lx)) (vscale (b2 u) ly) in
  let focus := focus_point u focalDistance ipx ipy in
  (mkRay lens (normalize (vsub focus lens)) 1e-4 1e10, t).

End ThinLens.

(** ** The BSP tree behind the flat buffers *)

Module BspSpec.

Import W08 W08Spec.

(** The tree the buffers encode: a leaf holds [count] entries of
    [treeIds] starting at [id]; an internal node splits along [axis] at
    [plane], with the child stored in [tree_node.z] below the plane and
    the child stored in [tree_node.w] above it. *)
Inductive bsp : Type :=
| Leaf (count id : Z)
| Node (axis : Z) (plane : R) (below above : bsp).

Fixpoint depth (t : bsp) : nat :=
  match t with
  | Leaf _ _ => O
  | Node _ _ l r => S (Nat.max (depth l) (depth r))
  end.

Fixpoint nodes (t : bsp) : nat :=
  match t with
  | Leaf _ _ => 1%nat
  | Node _ _ l r => S (nodes l + nodes r)
  end.

Section WithScene.

Variable sc : Scene.

(** [bspTree], [bspPlanes] encode [t] at index [node]. *)
Fixpoint encodes (node : Z) (t : bsp) : Prop :=
  let tree_node := get default_face (bspTree sc) node in
  match t with
  | Leaf count id =>
    Z.land (ux tree_node) 3 = BSP_LEAF
    /\ u32_shr (ux tree_node) 2 = count
    /\ uy tree_node = id
  | Node axis plane l r =>
    Z.land (ux tree_node) 3 = axis
    /\ axis <> BSP_LEAF
    /\ get 0 (bspPlanes sc) node = plane
    /\ encodes (uz tree_node) l
    /\ encodes (uw tree_node) r
  end.

(** The triangle indices a leaf lists. *)
Definition leaf_ids (count id : Z) : list Z :=
  map (fun j => get 0%Z (treeIds sc) (u32_add id j)) (range count).

Definition numTriangles : Z := Z.of_nat (List.length (meshFaces sc)).

(** [p] is a point of triangle [i]. *)
Definition on_triangle (i : Z) (p : vec3) : Prop :=
  exists beta gamma : R,
    0 <= beta /\ 0 <= gamma /\ beta + gamma <= 1
    /\ p = vadd (vadd (v_position (vInfo_at sc (ux (meshFaces_at sc i))))
                      (vscale (tri_e0 sc i) beta))
                (vscale (tri_e1 sc i) gamma).

(** Every leaf lists triangles of the mesh only, and lists every triangle
    that has a point in the leaf's cell, the part of [cell] cut out by the
    split planes on the way down. *)
Fixpoint covers (t : bsp) (cell : vec3 -> Prop) : Prop :=
  match t with
  | Leaf count id =>
    (forall idx, In idx (leaf_ids count id) -> (0 <= idx < numTriangles)%Z)
    /\ (forall idx p, (0 <= idx < numTriangles)%Z -> on_triangle idx p ->
          cell p -> In idx (leaf_ids count id))
  | Node axis plane l r =>
    covers l (fun p => cell p /\ vidx p axis <= plane)
    /\ covers r (fun p => cell p /\ plane <= vidx p axis)
  end.

(** A well-formed tree: the buffers encode, from node 0, a tree of depth
    at most [MAX_LEVEL] that covers the whole space. *)
Definition well_formed : Prop :=
  exists t : bsp,
    encodes 0 t /\ (depth t <= 20)%nat /\ covers t (fun _ => True).

(** One triangle test of a scan, with the bookkeeping of the leaf loop. *)
Definition tri_step (st : bool * Ray * HitInfo) (idx : Z) : bool * Ray * HitInfo :=
  let '(found, r, hit) := st in
  let '(b, hit) := intersect_triangle sc r hit idx in
  if b then (true, with_tmax (distance hit) r, with_triangle_idx idx hit)
  else (found, r, hit).

(** The traversal as a recursion over the tree: [Some] when a leaf
    reports a hit, [None] when every visited leaf misses. *)
Fixpoint trav (t : bsp) (r : Ray) (hit : HitInfo) : option (Ray * HitInfo) :=
  match t with
  | Leaf count id =>
    let '(found, r', hit') := leaf_loop sc count id r hit in
    if found then Some (r', hit') else None
  | Node axis plane l rt =>
    let axis_dir := vidx (direction r) axis in
    let near := if fge axis_dir 0 then l else rt in
    let far := if fge axis_dir 0 then rt else l in
    let t_split :=
      (plane - vidx (origin r) axis)
      / select axis_dir 1e-8 (flt (Rabs axis_dir) 1e-8) in
    if fge t_split (tmax r) then trav near r hit
    else if fle t_split (tmin r) then trav far r hit
    else match trav near (with_tmax t_split r) hit with
         | Some res => Some res
         | None => trav far (mkRay (origin r) (direction r) t_split (tmax r)) hit
         end
  end.

(** What the loop does once a subtree is exhausted without a hit: return
    false on an empty stack, otherwise pop and continue. *)
Definition backtrack (fuel : nat) (lvl : Z) (bn : list (Z * Z)) (br : list (R * R))
  (r : Ray) (hit : HitInfo) : option (bool * Ray * HitInfo) :=
  if (lvl =? 0)%Z then Some (false, r, hit)
  else
    let lvl' := u32_sub lvl 1 in
    let n := get (0%Z, 0%Z) bn lvl' in
    let t := get (0, 0) br lvl' in
    trimesh_loop sc fuel
      (mkTrav (u32_add (fst n) 1) (snd n) lvl' bn br
         (with_tmax (snd t) (with_tmin (fst t) r)) hit).

(** Two stack arrays agree on the entries below [lvl]. *)
Definition agree_below {A : Type} (lvl : Z) (a b : list A) (d : A) : Prop :=
  forall k : nat, (k < Z.to_nat lvl)%nat -> nth k a d = nth k b d.

(** The loop, started at the node that encodes [t] with counter [i] and
    stack height [lvl], does what [trav] does on [t]: after at most
    [nodes t] iterations it has returned the hit [trav] finds, or it is
    backtracking with the stack below [lvl] and the hit record as they
    were. *)
Definition loop_refines (t : bsp) : Prop :=
  forall (node i lvl : Z) (bn : list (Z * Z)) (br : list (R * R))
         (r : Ray) (hit : HitInfo),
    encodes node t ->
    (0 <= i)%Z -> (i + Z.of_nat (depth t) <= 20)%Z ->
    (0 <= lvl)%Z -> (lvl + Z.of_nat (depth t) <= 20)%Z ->
    List.length bn = 20%nat -> List.length br = 20%nat ->
    exists (used : nat) (bn' : list (Z * Z)) (br' : list (R * R)) (r' : Ray),
      (used <= nodes t)%nat
      /\ List.length bn' = 20%nat /\ List.length br' = 20%nat
      /\ agree_below lvl bn' bn (0%Z, 0%Z) /\ agree_below lvl br' br (0, 0)
      /\ origin r' = origin r /\ direction r' = direction r
      /\ forall fuel : nat,
           trimesh_loop sc (used + fuel) (mkTrav i node lvl bn br r hit)
           = match trav t r hit with
             | Some (r2, hit2) => Some (true, r2, hit2)
             | None => backtrack fuel lvl bn' br' r' hit
             end.

(** Candidates: triangle [idx] passes the tests of [intersect_triangle]
    that do not depend on the ray interval, at distance [t]. *)
Definition candidate (o d : vec3) (idx : Z) (t : R) : Prop :=
  tri_inside sc o d idx /\ tri_t sc o d idx = t.

(** No triangle of [S] is hit within [lo, hi]. *)
Definition no_hit (o d : vec3) (S : Z -> Prop) (lo hi : R) : Prop :=
  forall idx t, S idx -> candidate o d idx t -> ~ (lo <= t <= hi).

(** [m] is the least distance at which a triangle of [S] is hit within
    [lo, hi]. *)
Definition nearest_hit (o d : vec3) (S : Z -> Prop) (lo hi m : R) : Prop :=
  lo <= m <= hi
  /\ (exists idx, S idx /\ candidate o d idx m)
  /\ (forall idx t, S idx -> candidate o d idx t -> lo <= t <= hi -> m <= t).

Definition in_mesh (idx : Z) : Prop := (0 <= idx < numTriangles)%Z.


End WithScene.

(** No component of the direction is within 1e-8 of zero, so the split
    distance is computed with the true divisor. *)
Definition dir_ok (d : vec3) : Prop :=
  1e-8 <= Rabs (vx d) /\ 1e-8 <= Rabs (vy d) /\ 1e-8 <= Rabs (vz d).

(** The week06 buffers hold the mesh of the week08 buffers: the same
    faces over the same vertex positions. *)
Definition same_mesh (s6 : W06.Scene) (s8 : Scene) : Prop :=
  W06.numTriangles s6 = numTriangles s8
  /\ (forall i : Z,
        get (W06.U3 0 0 0) (W06.meshFaces s6) i
        = W06.U3 (ux (meshFaces_at s8 i)) (uy (meshFaces_at s8 i))
                 (uz (meshFaces_at s8 i)))
  /\ (forall k : Z,
        get vzero (W06.vPositions s6) k = v_position (vInfo_at s8 k)).

(** No triangle of the mesh has, against direction [d], a determinant
    that the week08 test (threshold 1e-8) accepts and the week06 test
    (threshold 1e-4) rejects. *)
Definition det_agree (s8 : Scene) (d : vec3) : Prop :=
  forall idx : Z,
    in_mesh s8 idx -> ~ (1e-8 <= Rabs (tri_q s8 d idx) < 1e-4).

(** The same ray in the two shaders. *)
Definition ray06 (r : Ray) : W06.Ray :=
  W06.mkRay (origin r) (direction r) (tmin r) (tmax r).

(** The state of the week06 scan and the state of a week08 scan hold the
    same ray interval, the same hit flag and the same distance. *)
Definition scans_agree (st6 : W06.Ray * W06.HitInfo) (st8 : bool * Ray * HitInfo)
  : Prop :=
  let '(r6, h6) := st6 in
  let '(found, r, h8) := st8 in
  r6 = ray06 r /\ W06.has_hit h6 = found
  /\ (found = true -> W06.distance h6 = distance h8).

End BspSpec.

(** ** Quantities named in the further properties of the week08 shader *)

Module RngSpec.

(** Multiplication by 92848423, the inverse of [LCG_A] modulo 2^31,
    masked like [mcg31]: the generator run backwards. *)
Definition mcg31_back (s : Z) : Z := Z.land (u32_mul 92848423 s) 0x7FFFFFFF.

End RngSpec.

Module GeomSpec.

Import W08.

(** The point of a ray at parameter [t]. *)
Definition ray_at (r : Ray) (t : R) : vec3 :=
  vadd (origin r) (vscale (direction r) t).

(** The point [p] lies in the bounding box of the scene. *)
Definition in_aabb (sc : Scene) (p : vec3) : Prop :=
  vx (aabb_min (aabb sc)) <= vx p <= vx (aabb_max (aabb sc))
  /\ vy (aabb_min (aabb sc)) <= vy p <= vy (aabb_max (aabb sc))
  /\ vz (aabb_min (aabb sc)) <= vz p <= vz (aabb_max (aabb sc)).

(** What a hit recorded for the ray from [o] along [d] within [lo, hi]
    says: the flag is set, the distance lies in the interval and is the
    ray's new [tmax], and the position is the ray point at that distance
    and a point of the recorded triangle. *)
Definition hit_within (sc : Scene) (o d : vec3) (lo hi : R) (r' : Ray)
  (hit' : HitInfo) : Prop :=
  has_hit hit' = true
  /\ lo <= distance hit' <= hi
  /\ tmax r' = distance hit'
  /\ position hit' = vadd o (vscale d (distance hit'))
  /\ BspSpec.on_triangle sc (triangle_idx hit') (position hit').

End GeomSpec.

Module RefractSpec.

Import W08 BsdfSpec.

(** [transparent] after its swap on exit: the normal on the side the ray
    arrives from, the cosine of incidence against it, the cosine of the
    refracted direction and the Fresnel reflectance. *)
Definition facing_normal (r : Ray) (hit : HitInfo) : vec3 :=
  if flt (costhetai r hit) 0 then vneg (normal hit) else normal hit.
Definition cos_in (r : Ray) (hit : HitInfo) : R :=
  if flt (costhetai r hit) 0 then - costhetai r hit else costhetai r hit.
Definition costhetat (r : Ray) (hit : HitInfo) : R := sqrt (1 - sin2thetat r hit).
Definition reflectance (r : Ray) (hit : HitInfo) : R :=
  fresnel_R (cos_in r hit) (costhetat r hit) (eta_eff r hit).

End RefractSpec.

(** ** The traversal loop, one iteration at a time *)

Module TravStep.

Import W08 TravSpec GeomSpec.

Section WithScene.

Variable sc : Scene.

(** One iteration of the loop of [intersect_trimesh]: the value it
    returns, or the state the next iteration starts from. *)
Definition step (st : Trav) : (bool * Ray * HitInfo) + Trav :=
  let r := t_r st in
  if negb (t_i st <=? MAX_LEVEL)%Z then inl (false, r, t_hit st) else
  let tree_node := get default_face (bspTree sc) (t_node st) in
  let axis_leaf := Z.land (ux tree_node) 3 in
  if (axis_leaf =? BSP_LEAF)%Z then
    let count := u32_shr (ux tree_node) 2 in
    let id := uy tree_node in
    let '(found, r, hit) := leaf_loop sc count id r (t_hit st) in
    if found then inl (true, r, hit) else
    if (t_branch_lvl st =? 0)%Z then inl (false, r, hit) else
    let branch_lvl := u32_sub (t_branch_lvl st) 1 in
    let bn := get (0%Z, 0%Z) (t_branch_node st) branch_lvl in
    let br := get (0, 0) (t_branch_ray st) branch_lvl in
    inr (mkTrav (u32_add (fst bn) 1) (snd bn) branch_lvl
           (t_branch_node st) (t_branch_ray st)
           (with_tmax (snd br) (with_tmin (fst br) r)) hit)
  else
    let axis_dir := vidx (direction r) axis_leaf in
    let near := select (uw tree_node) (uz tree_node) (fge axis_dir 0) in
    let far := select (uz tree_node) (uw tree_node) (fge axis_dir 0) in
    let t_split :=
      (get 0 (bspPlanes sc) (t_node st) - vidx (origin r) axis_leaf)
      / select axis_dir 1e-8 (flt (Rabs axis_dir) 1e-8) in
    if fge t_split (tmax r) then
      inr (mkTrav (u32_add (t_i st) 1) near (t_branch_lvl st)
             (t_branch_node st) (t_branch_ray st) r (t_hit st))
    else if fle t_split (tmin r) then
      inr (mkTrav (u32_add (t_i st) 1) far (t_branch_lvl st)
             (t_branch_node st) (t_branch_ray st) r (t_hit st))
    else
      inr (mkTrav (u32_add (t_i st) 1) near (u32_add (t_branch_lvl st) 1)
             (set (t_branch_node st) (t_branch_lvl st) (t_i st, far))
             (set (t_branch_ray st) (t_branch_lvl st) (t_split, tmax r))
             (with_tmax t_split r) (t_hit st)).

(** The invariant of the traversal for the ray [r0] and hit record
    [hit0] it was started with: origin and direction are those of [r0],
    the hit record is still [hit0], and the current interval and every
    interval saved on the stack lie within that of [r0]. *)
Definition frame_inv (r0 : Ray) (hit0 : HitInfo) (st : Trav) : Prop :=
  trav_inv st
  /\ origin (t_r st) = origin r0 /\ direction (t_r st) = direction r0
  /\ t_hit st = hit0
  /\ tmin r0 <= tmin (t_r st) /\ tmax (t_r st) <= tmax r0
  /\ ((t_i st <= 20)%Z ->
      forall k : nat, (k < Z.to_nat (t_branch_lvl st))%nat ->
        tmin r0 <= fst (nth k (t_branch_ray st) (0, 0))
        /\ snd (nth k (t_branch_ray st) (0, 0)) <= tmax r0).

(** What the traversal started with [r0] and [hit0] may return. *)
Definition frame_result (r0 : Ray) (hit0 : HitInfo) (res : bool * Ray * HitInfo)
  : Prop :=
  let '(found, r', hit') := res in
  origin r' = origin r0 /\ direction r' = direction r0
  /\ (found = false -> hit' = hit0)
  /\ (found = true ->
      hit_within sc (origin r0) (direction r0) (tmin r0) (tmax r0) r' hit').

End WithScene.

End TravStep.

(** ** Texture lookups (week08/part2/main.js, the embedded shader:
       [get_coord], [texture_nearest], [texture_linear]) *)

Module Texture.

(** [i32] arithmetic: sums and differences wrap around; [e1 % e2] is the
    remainder of the truncating division (the divisor below is a texture
    dimension, which is never zero). *)
Definition wrap_i32 (n : Z) : Z :=
  ((n + 2147483648) mod 4294967296 - 2147483648)%Z.
Definition i32_add (a b : Z) : Z := wrap_i32 (a + b).
Definition i32_sub (a b : Z) : Z := wrap_i32 (a - b).
Definition i32_rem (a b : Z) : Z := Z.rem a b.
Definition i32_clamp (e lo hi : Z) : Z := Z.min (Z.max e lo) hi.

(** [i32(x)] for [x : f32]: rounding toward zero, saturating at the ends
    of the range. *)
Definition trunc (x : R) : Z := if Rle_dec 0 x then Zfloor x else Zceil x.
Definition i32_of_f32 (x : R) : Z :=
  Z.max (-2147483648) (Z.min 2147483647 (trunc x)).

(** [floor(x)], [fract(x) = x - floor(x)] and
    [mix(x, y, a) = x * (1 - a) + y * a]. *)
Definition floor (x : R) : R := IZR (Zfloor x).
Definition fract (x : R) : R := x - floor x.
Definition mix (x y : vec3) (a : R) : vec3 := vadd (vscale x (1 - a)) (vscale y a).

(** A 2D texture: [textureDimensions] and the colour [textureLoad]
    returns at level 0. *)
Record texture : Type := mkTexture {
  tex_w : Z;
  tex_h : Z;
  texel : Z -> Z -> vec3
}.

Definition get_coord (tex : texture) (coord : Z * Z) (repeat : bool) : Z * Z :=
  let res := (tex_w tex, tex_h tex) in
  if repeat then
    (i32_rem (i32_add (i32_rem (fst coord) (fst res)) (fst res)) (fst res),
     i32_rem (i32_add (i32_rem (snd coord) (snd res)) (snd res)) (snd res))
  else
    (i32_clamp (fst coord) 0 (i32_sub (fst res) 1),
     i32_clamp (snd coord) 0 (i32_sub (snd res) 1)).

Definition textureLoad (tex : texture) (coord : Z * Z) : vec3 :=
  texel tex (fst coord) (snd coord).

Definition texture_nearest (tex : texture) (texcoords : R * R) (repeat : bool)
  : vec3 :=
  let res := (IZR (tex_w tex), IZR (tex_h tex)) in
  let coord := (i32_of_f32 (floor (fst texcoords * fst res)),
                i32_of_f32 (floor (snd texcoords * snd res))) in
  let final_coord := get_coord tex coord repeat in
  textureLoad tex final_coord.

Definition texture_linear (tex : texture) (texcoords : R * R) (repeat : bool)
  : vec3 :=
  let res := (IZR (tex_w tex), IZR (tex_h tex)) in
  let ab := (fst texcoords * fst res - 0.5, snd texcoords * snd res - 0.5) in
  let base := (i32_of_f32 (floor (fst ab)), i32_of_f32 (floor (snd ab))) in
  let f := (fract (fst ab), fract (snd ab)) in
  let c00 := textureLoad tex
               (get_coord tex (i32_add (fst base) 0, i32_add (snd base) 0) repeat) in
  let c10 := textureLoad tex
               (get_coord tex (i32_add (fst base) 1, i32_add (snd base) 0) repeat) in
  let c01 := textureLoad tex
               (get_coord tex (i32_add (fst base) 0, i32_add (snd base) 1) repeat) in
  let c11 := textureLoad tex
               (get_coord tex (i32_add (fst base) 1, i32_add (snd base) 1) repeat) in
  let top := mix c00 c10 (fst f) in
  let bot := mix c01 c11 (fst f) in
  mix top bot (snd f).

(** [main_fs]: the colour of the fragment at [coords]. *)
Definition main_fs (tex : texture) (aspect : R) (use_repeat use_linear : Z)
  (coords : R * R) : vec3 :=
  let uv := (fst coords * aspect * 0.5, snd coords * 0.5) in
  let use_repeat := negb (use_repeat =? 0)%Z in
  let use_linear := negb (use_linear =? 0)%Z in
  if use_linear then texture_linear tex uv use_repeat
  else texture_nearest tex uv use_repeat.

End Texture.

(** ** Stratified jitter and the option handlers of the host program
       (unnamed/part_001: [compute_jitters], [setupOptions]; the same
       [compute_jitters] is in week03/part3/main.js, week05/part1/main.js,
       week05/part2/main.js and unnamed/part_007) *)

Module Host.

(** [Math.random()] is a stream of numbers; a computation that draws
    from it carries the number of draws made so far.  Every arithmetic
    operation of JavaScript rounds its result to a double, and a store
    into a [Float32Array] rounds the double to an f32: [fl] and [f32]
    stand for the two roundings. *)
Definition jitter_cell (fl f32 : R -> R) (rand : nat -> R) (pixelsize step : R)
  (subdivs i : Z) (st : list R * nat) (j : Z) : list R * nat :=
  let '(jitter, n) := st in
  let idx := ((i * subdivs + j) * 2)%Z in
  let jitter :=
    set jitter idx
      (f32 (fl (fl (fl (rand n + IZR j) * step) - fl (pixelsize * 0.5)))) in
  let jitter :=
    set jitter (idx + 1)
      (f32 (fl (fl (fl (rand (S n) + IZR i) * step) - fl (pixelsize * 0.5)))) in
  (jitter, S (S n)).

Definition jitter_row (fl f32 : R -> R) (rand : nat -> R) (pixelsize step : R)
  (subdivs : Z) (st : list R * nat) (i : Z) : list R * nat :=
  fold_left (jitter_cell fl f32 rand pixelsize step subdivs i) (range subdivs) st.

(** [compute_jitters(jitter, pixelsize, subdivs)] on a [Float32Array]:
    a store past the end of the array does nothing, and the number 0 is
    stored as it is. *)
Definition compute_jitters (fl f32 : R -> R) (rand : nat -> R) (n : nat)
  (jitter : list R) (pixelsize : R) (subdivs : Z) : list R * nat :=
  let step := fl (pixelsize / IZR subdivs) in
  if (subdivs <? 2)%Z then (set (set jitter 0 0) 1 0, n)
  else fold_left (jitter_row fl f32 rand pixelsize step subdivs) (range subdivs)
         (jitter, n).

(** What is used of a rounding: it keeps the order, and it keeps the
    integers from 0 to [n]. *)
Definition monotone (fl : R -> R) : Prop := forall x y : R, x <= y -> fl x <= fl y.
Definition keeps_integers (fl : R -> R) (n : Z) : Prop :=
  forall k : Z, (0 <= k <= n)%Z -> fl (IZR k) = IZR k.

(** The boundary between cell [c - 1] and cell [c] of a pixel, computed
    and stored the way [compute_jitters] computes and stores an offset. *)
Definition cell_edge (fl f32 : R -> R) (pixelsize step : R) (c : Z) : R :=
  f32 (fl (fl (IZR c * step) - fl (pixelsize * 0.5))).

(** The globals [g_zoomValue] and [g_subpixelValue] and the frame
    counter that the callback passed to [setupOptions] resets. *)
Record Options : Type := mkOptions {
  g_zoomValue : R;
  g_subpixelValue : Z;
  frame : Z
}.

Definition options0 : Options := mkOptions 1 1 0.

Inductive Event : Type :=
| Wheel (deltaY : R)
| SubpixelDecr
| SubpixelIncr
| Rendered.

(** The handlers installed by [setupOptions], and [progressiveRender],
    which increments the frame counter after each rendered frame. *)
Definition handle (o : Options) (e : Event) : Options :=
  match e with
  | Wheel deltaY =>
    let sensitivity := 0.1 in
    let z := if flt deltaY 0 then g_zoomValue o + sensitivity
             else g_zoomValue o - sensitivity in
    mkOptions (Rmin (Rmax z 0.1) 10) (g_subpixelValue o) 0
  | SubpixelDecr =>
    if (1 <? g_subpixelValue o)%Z
    then mkOptions (g_zoomValue o) (g_subpixelValue o - 1) 0
    else o
  | SubpixelIncr =>
    if (g_subpixelValue o <? 10)%Z
    then mkOptions (g_zoomValue o) (g_subpixelValue o + 1) 0
    else o
  | Rendered => mkOptions (g_zoomValue o) (g_subpixelValue o) (frame o + 1)
  end.

Definition run (es : list Event) : Options := fold_left handle es options0.

(** [let jitter = new Float32Array(200)]. *)
Definition jitter0 : list R := repeat 0 200.

(** Entry pair [k] of [out] holds a point of the cell in column
    [k mod subdivs] and row [k / subdivs] of a pixel of size [pixelsize]
    divided into [subdivs] by [subdivs] cells, the cell's boundaries
    included. *)
Definition in_cell (fl f32 : R -> R) (pixelsize : R) (subdivs : Z) (out : list R)
  (k : Z) : Prop :=
  let step := fl (pixelsize / IZR subdivs) in
  let edge := cell_edge fl f32 pixelsize step in
  edge (k mod subdivs)%Z <= get 0 out (k * 2) <= edge (k mod subdivs + 1)%Z
  /\ edge (k / subdivs)%Z <= get 0 out (k * 2 + 1) <= edge (k / subdivs + 1)%Z.

(** The state of [compute_jitters] after [c] cells, started on array
    [jitter] after [n0] draws: the first [c] entry pairs are filled, two
    draws were made for each, and the rest of the array is as it was. *)
Definition filled (fl f32 : R -> R) (n0 : nat) (jitter : list R) (pixelsize : R)
  (subdivs c : Z) (st : list R * nat) : Prop :=
  let '(out, n) := st in
  List.length out = List.length jitter
  /\ n = (n0 + 2 * Z.to_nat c)%nat
  /\ (forall k : Z, (0 <= k < c)%Z -> in_cell fl f32 pixelsize subdivs out k)
  /\ (forall idx : Z, (2 * c <= idx)%Z -> get 0 out idx = get 0 jitter idx).

End Host.

(** ** Shading in the analytic scene of unnamed/part_000 (third shader:
       [is_occluded], [sample_point_light], the [shade_*] functions,
       [shade], [get_camera_ray], [main_fs]) *)

Module AnalyticShade.

Import Analytic.

Definition PI : R := 3.14159265359.
Definition EPS : R := 1e-4.

Record Light : Type := mkLight { Li : vec3; omega : vec3; l_dist : R }.

(** [pow(v, vec3f(y))], component by component. *)
Definition vfpow (a : vec3) (y : R) : vec3 :=
  V3 (fpow (vx a) y) (fpow (vy a) y) (fpow (vz a) y).

(** [var h: HitInfo;] is zero-initialised. *)
Definition zero_hit : HitInfo :=
  mkHit false 0 vzero vzero vzero vzero vzero 0 0 0%Z false.

Section WithUniforms.

(** [u32(U.matt_shader)], [u32(U.sphere_shader)], [U.aspect] and
    [U.cam_const]. *)
Variable matt_id sphere_id : Z.
Variable aspect cam_const : R.

Definition is_occluded (r : Ray) : bool :=
  let h := mkHit false (tmax r) vzero vzero vzero vzero vzero 0 0 0%Z false in
  let '(b, _, _) := intersect_scene matt_id sphere_id r h in
  if b then true else false.

Definition sample_point_light (light_pos pos : vec3) : Light :=
  let intensity := splat PI in
  let L_vec := vsub light_pos pos in
  let dist_sq := dot L_vec L_vec in
  let dist := sqrt dist_sq in
  mkLight (vdivs intensity (Rmax dist_sq 1e-4)) (vdivs L_vec dist) dist.

Definition shade_base (hit : HitInfo) : vec3 := vadd (rho_a hit) (rho_d hit).

(** The shadow ray of [shade_lambert] and [shade_phong]. *)
Definition shadow_ray (hit : HitInfo) (L : Light) : Ray :=
  mkRay (vadd (position hit) (vscale (normal hit) EPS)) (omega L) EPS
        (l_dist L - EPS) 1.

Definition shade_lambert (r : Ray) (hit : HitInfo) (light_pos : vec3) : vec3 :=
  let L := sample_point_light light_pos (position hit) in
  let Lo := rho_a hit in
  if negb (is_occluded (shadow_ray hit L)) then
    let cos_theta := Rmax 0 (dot (normal hit) (omega L)) in
    vadd Lo (vscale (vmul (vdivs (rho_d hit) PI) (Li L)) cos_theta)
  else Lo.

Definition shade_phong (r : Ray) (hit : HitInfo) (light_pos : vec3) : vec3 :=
  let L := sample_point_light light_pos (position hit) in
  let Lo := rho_a hit in
  if negb (is_occluded (shadow_ray hit L)) then
    let N := normalize (normal hit) in
    let V := normalize (vneg (direction r)) in
    let cos_theta := Rmax 0 (dot N (omega L)) in
    let Lo := vadd Lo (vscale (vmul (vdivs (rho_d hit) PI) (Li L)) cos_theta) in
    let Rv := reflect (vneg (omega L)) N in
    let r_dot_v := Rmax 0 (dot Rv V) in
    let spec := vscale (vmul (rho_s hit) (Li L)) (fpow r_dot_v (shininess hit)) in
    vadd Lo spec
  else Lo.

Definition with_continue (hit : HitInfo) : HitInfo :=
  mkHit (has_hit hit) (dist hit) (position hit) (normal hit) (rho_a hit)
    (rho_d hit) (rho_s hit) (shininess hit) (h_ior hit) (shader hit) true.

Definition shade_mirror (r : Ray) (hit : HitInfo) : vec3 * Ray * HitInfo :=
  let r := mkRay (vadd (position hit) (vscale (normal hit) EPS))
             (reflect (direction r) (normal hit)) EPS 1e32 (ior r) in
  (vzero, r, with_continue hit).

Definition shade_refract (r : Ray) (hit : HitInfo) : vec3 * Ray * HitInfo :=
  let N := normalize (normal hit) in
  let n1 := ior r in
  let n2 := h_ior hit in
  let flip := fgt (dot (direction r) N) 0 in
  let N := if flip then vneg N else N in
  let n2 := if flip then 1 else n2 in
  let eta := n1 / n2 in
  let cos_i := dot (vneg (direction r)) N in
  let k_val := 1 - eta * eta * (1 - cos_i * cos_i) in
  let '(d, i) :=
    if flt k_val 0 then (reflect (direction r) N, ior r)
    else (vadd (vscale (direction r) eta) (vscale N (eta * cos_i - sqrt k_val)), n2) in
  (vzero,
   mkRay (vsub (position hit) (vscale N EPS)) d EPS 1e32 i,
   with_continue hit).

Definition shade_glossy (r : Ray) (hit : HitInfo) (light_pos : vec3)
  : vec3 * Ray * HitInfo :=
  let highlight := shade_phong r hit light_pos in
  let '(_, r, hit) := shade_refract r hit in
  (highlight, r, hit).

Definition shade (r : Ray) (hit : HitInfo) (light_pos : vec3)
  : vec3 * Ray * HitInfo :=
  if (shader hit =? 0)%Z then (shade_base hit, r, hit)
  else if (shader hit =? 1)%Z then (shade_lambert r hit light_pos, r, hit)
  else if (shader hit =? 2)%Z then (shade_phong r hit light_pos, r, hit)
  else if (shader hit =? 3)%Z then shade_mirror r hit
  else if (shader hit =? 4)%Z then shade_refract r hit
  else if (shader hit =? 5)%Z then shade_glossy r hit light_pos
  else (vzero, r, hit).

Definition get_camera_ray (coords : R * R) : Ray :=
  let eye := V3 2 1.5 2 in
  let p := V3 0 0.5 0 in
  let up := V3 0 1 0 in
  let ip := (fst coords * aspect * 0.5, snd coords * 0.5) in
  let v := normalize (vsub p eye) in
  let b1 := normalize (cross v up) in
  let b2 := cross b1 v in
  let dir := normalize (vadd (vadd (vscale b1 (fst ip)) (vscale b2 (snd ip)))
                             (vscale v cam_const)) in
  mkRay eye dir 0.001 1e32 1.

(** The loop [for (var i = 0; i < MAX_BOUNCES; i++)] of [main_fs]; [n]
    is the number of iterations left. *)
Fixpoint trace (n : nat) (final_color : vec3) (r : Ray) : vec3 :=
  match n with
  | O => final_color
  | S n =>
    let '(b, r, hit) := intersect_scene matt_id sphere_id r zero_hit in
    if negb b then vadd final_color (V3 0.1 0.3 0.6)
    else
      let '(c, r, hit) := shade r hit (V3 0 1 0) in
      let final_color := vadd final_color c in
      if negb (continue_ray hit) then final_color
      else trace n final_color r
  end.

Definition main_fs (coords : R * R) : vec3 :=
  let r := get_camera_ray coords in
  let final_color := trace 8 vzero r in
  vfpow final_color (1 / 2.2).

End WithUniforms.

(** The quantities of [shade_refract]: the unit normal turned against
    the ray, the index of the medium behind the surface, the ratio of
    the indices and the refraction discriminant. *)
Definition facing (r : Ray) (hit : HitInfo) : vec3 :=
  if fgt (dot (direction r) (normalize (normal hit))) 0
  then vneg (normalize (normal hit)) else normalize (normal hit).
Definition ior_behind (r : Ray) (hit : HitInfo) : R :=
  if fgt (dot (direction r) (normalize (normal hit))) 0 then 1 else h_ior hit.
Definition eta (r : Ray) (hit : HitInfo) : R := ior r / ior_behind r hit.
Definition cos_i (r : Ray) (hit : HitInfo) : R :=
  dot (vneg (direction r)) (facing r hit).
Definition k_val (r : Ray) (hit : HitInfo) : R :=
  1 - eta r hit * eta r hit * (1 - cos_i r hit * cos_i r hit).

(** What the hit record says while the primitives of [intersect_scene]
    are tested against ray [r]. *)
Definition scene_inv (r : Ray) (h : HitInfo) : Prop :=
  dist h <= tmax r
  /\ (has_hit h = false -> dist h = tmax r)
  /\ (has_hit h = true ->
      tmin r <= dist h < tmax r
      /\ position h = vadd (origin r) (vscale (direction r) (dist h))
      /\ continue_ray h = false).

(** Two hit records that agree wherever [intersect_scene] looks. *)
Definition same_best (h1 h2 : HitInfo) : Prop :=
  has_hit h1 = has_hit h2 /\ dist h1 = dist h2 /\ (has_hit h1 = true -> h1 = h2).

End AnalyticShade.

(** ** Inputs for the worked examples of the further properties *)

Module Examples.

(** A 4 by 2 texture whose red and green channels hold the texel's
    coordinates. *)
Definition gradient : Texture.texture :=
  Texture.mkTexture 4 2 (fun x y => V3 (IZR x) (IZR y) 0).

(** A random source that always returns 1/2. *)
Definition half : nat -> R := fun _ => 1/2.

(** A point of the floor plane y = 0 of the analytic scene, with the
    plane's normal, and a light straight above. *)
Definition floor_hit : Analytic.HitInfo :=
  Analytic.mkHit true 1 (V3 1 0 2) (V3 0 1 0) vzero vzero vzero 0 1 1%Z false.
Definition overhead : AnalyticShade.Light :=
  AnalyticShade.mkLight (splat 1) (V3 0 1 0) 1.

(** A ray in air that meets a glass surface (index 1.5) head on. *)
Definition head_on : Analytic.Ray := Analytic.mkRay (V3 0 1 0) (V3 0 (-1) 0) 0.001 1e32 1.
Definition glass_top : Analytic.HitInfo :=
  Analytic.mkHit true 1 vzero (V3 0 1 0) vzero vzero vzero 0 1.5 4%Z false.

End Examples.

(* ================================================================== *)
(** * Part II: properties                                              *)
(* ================================================================== *)

(** ** Comparisons and vectors *)

Lemma flt_spec (x y : R) : Bool.reflect (x < y) (flt x y).
Proof. unfold flt. destruct (Rlt_dec x y); constructor; assumption. Qed.

Lemma fle_spec (x y : R) : Bool.reflect (x <= y) (fle x y).
Proof. unfold fle. destruct (Rle_dec x y); constructor; assumption. Qed.

Lemma flt_true (x y : R) : x < y -> flt x y = true.
Proof. intros H. destruct (flt_spec x y); [reflexivity | contradiction]. Qed.

Lemma flt_false (x y : R) : y <= x -> flt x y = false.
Proof. intros H. destruct (flt_spec x y); [lra | reflexivity]. Qed.

Lemma fle_true (x y : R) : x <= y -> fle x y = true.
Proof. intros H. destruct (fle_spec x y); [reflexivity | contradiction]. Qed.

Lemma fle_false (x y : R) : y < x -> fle x y = false.
Proof. intros H. destruct (fle_spec x y); [lra | reflexivity]. Qed.

(** Case analysis on every comparison in the goal. *)
Ltac fcases :=
  unfold fgt, fge in *;
  repeat match goal with
         | |- context [flt ?a ?b] => destruct (flt_spec a b)
         | |- context [fle ?a ?b] => destruct (fle_spec a b)
         end.

(** Unfolding of the vector operations down to their components. *)
Ltac vsimpl :=
  cbv [dot cross vadd vsub vneg vmul vdiv vscale vdivs vsubs splat vzero vexp
       Vec.reflect vx vy vz].

Lemma vec3_eq (a b : vec3) :
  vx a = vx b -> vy a = vy b -> vz a = vz b -> a = b.
Proof. destruct a, b; simpl; intros; subst; reflexivity. Qed.

Lemma wrap32_small (n : Z) : (0 <= n < 4294967296)%Z -> wrap32 n = n.
Proof. intros H. unfold wrap32. apply Z.mod_small. exact H. Qed.

(** ** Rounding to binary32 *)

Section Rounding.

Import F32.

Lemma round_u32_small (n : Z) : (0 <= n <= 16777216)%Z -> round_u32 n = n.
Proof.
  intros H. destruct (Z.eq_dec n 16777216) as [->|Hne]; [reflexivity|].
  unfold round_u32.
  destruct (Z.eq_dec n 0) as [->|Hn0]; [reflexivity|].
  assert (Z.log2 n < 24)%Z by (apply Z.log2_lt_pow2; lia).
  destruct (Z.leb_spec (Z.log2 n - 23) 0); [reflexivity | lia].
Qed.

(** The conversion never leaves the range of the integers of [b] bits by
    more than its upper end. *)
Lemma round_u32_bounds (n b : Z) :
  (24 <= b)%Z -> (0 <= n < 2 ^ b)%Z -> (0 <= round_u32 n <= 2 ^ b)%Z.
Proof.
  intros Hb [Hn0 Hnb]. unfold round_u32.
  destruct (Z.leb_spec (Z.log2 n - 23) 0) as [Hk|Hk]; [lia|].
  assert (Hpos : (0 < n)%Z).
  { destruct (Z.eq_dec n 0) as [->|]; [simpl in Hk; lia | lia]. }
  destruct (Z.log2_spec n Hpos) as [HL1 HL2].
  assert (HLb : (Z.log2 n < b)%Z) by (apply Z.log2_lt_pow2; lia).
  set (k := (Z.log2 n - 23)%Z) in *.
  replace (Z.succ (Z.log2 n)) with (24 + k)%Z in HL2 by lia.
  assert (Hp : (0 < 2 ^ k)%Z) by (apply Z.pow_pos_nonneg; lia).
  assert (Hq : (0 <= n / 2 ^ k < 2 ^ 24)%Z).
  { split; [apply Z.div_pos; lia|].
    apply Z.div_lt_upper_bound; [exact Hp|].
    rewrite <- Z.pow_add_r by lia. replace (k + 24)%Z with (24 + k)%Z by lia.
    exact HL2. }
  assert (Htop : (2 ^ 24 * 2 ^ k <= 2 ^ b)%Z).
  { rewrite <- Z.pow_add_r by lia. apply Z.pow_le_mono_r; lia. }
  unfold round_bits. rewrite Z.shiftr_div_pow2 by lia.
  set (q := (n / 2 ^ k)%Z) in *.
  destruct (if (n - Z.shiftl q k <? Z.shiftl 1 (k - 1))%Z then false
            else if (Z.shiftl 1 (k - 1) <? n - Z.shiftl q k)%Z then true
            else Z.odd q);
    rewrite Z.shiftl_mul_pow2 by lia; nia.
Qed.

Lemma f32_of_u32_small (n : Z) : (0 <= n <= 16777216)%Z -> f32_of_u32 n = IZR n.
Proof. intros H. unfold f32_of_u32. rewrite round_u32_small by exact H. reflexivity. Qed.

Lemma rne_nearest (y : R) (m : Z) : Rabs (y - IZR m) < 1 / 2 -> rne y = m.
Proof.
  intros H. apply Rabs_def2 in H. destruct H as [H1 H2].
  unfold rne. pose proof (Zfloor_bound y) as [Hf1 Hf2].
  set (f := Zfloor y) in *.
  assert (Hlo : (m - 2 < f)%Z).
  { apply lt_IZR. rewrite minus_IZR. lra. }
  assert (Hhi : (f < m + 1)%Z).
  { apply lt_IZR. rewrite plus_IZR. lra. }
  assert (E : f = m \/ f = (m - 1)%Z) by lia.
  destruct E as [E|E]; rewrite E in *.
  - destruct (Rlt_dec (y - IZR m) (1 / 2)); [reflexivity | lra].
  - rewrite minus_IZR in *.
    destruct (Rlt_dec (y - (IZR m - 1)) (1 / 2)); [lra|].
    destruct (Rlt_dec (1 / 2) (y - (IZR m - 1))); [lia | lra].
Qed.

Lemma rne_IZR (m : Z) : rne (IZR m) = m.
Proof. apply rne_nearest. rewrite Rminus_diag, Rabs_R0. lra. Qed.


Lemma rne_tie_odd (m : Z) : Z.even m = false -> rne (IZR m + 1 / 2) = (m + 1)%Z.
Proof.
  intros He. unfold rne.
  rewrite (Zfloor_eq m) by lra.
  destruct (Rlt_dec _ _); [lra|]. destruct (Rlt_dec _ _); [lra|].
  rewrite He. reflexivity.
Qed.

Lemma scale_pos : 0 < scale.
Proof. unfold scale, scaleZ. lra. Qed.

Lemma pow2_pos (k : Z) : (0 <= k)%Z -> 0 < IZR (2 ^ k).
Proof. intros H. apply IZR_lt. apply Z.pow_pos_nonneg; lia. Qed.

(** The binade of [x] decides the unit in the last place. *)
Lemma ulp_bits_binade (x : R) (k : Z) :
  (0 <= k)%Z ->
  IZR (2 ^ (23 + k)) <= Rabs x * scale < IZR (2 ^ (24 + k)) ->
  ulp_bits x = k.
Proof.
  intros Hk [H1 H2]. unfold ulp_bits.
  pose proof (Zfloor_bound (Rabs x * scale)) as [Hf1 Hf2].
  set (f := Zfloor _) in *.
  assert (Hlo : (2 ^ (23 + k) <= f)%Z) by (apply Zfloor_lub; exact H1).
  assert (Hhi : (f < 2 ^ (24 + k))%Z) by (apply lt_IZR; lra).
  assert (E : Z.log2 f = (23 + k)%Z).
  { apply Z.log2_unique; [lia|]. replace (Z.succ (23 + k)) with (24 + k)%Z by lia. lia. }
  rewrite E. lia.
Qed.

Lemma ulp_bits_small (x : R) :
  Rabs x * scale < IZR (2 ^ 24) -> ulp_bits x = 0%Z.
Proof.
  intros H. unfold ulp_bits.
  pose proof (Zfloor_bound (Rabs x * scale)) as [Hf1 Hf2].
  set (f := Zfloor _) in *.
  assert (Hhi : (f < 2 ^ 24)%Z) by (apply lt_IZR; lra).
  assert (Hlo : (0 <= f)%Z).
  { apply Zfloor_lub. pose proof (Rabs_pos x). pose proof scale_pos. simpl. nra. }
  destruct (Z.eq_dec f 0) as [->|Hne]; [reflexivity|].
  assert (Z.log2 f < 24)%Z by (apply Z.log2_lt_pow2; lia).
  lia.
Qed.

Lemma round_binade (x : R) (k : Z) :
  (0 <= k)%Z ->
  IZR (2 ^ (23 + k)) <= Rabs x * scale < IZR (2 ^ (24 + k)) ->
  round x = IZR (rne (x * scale / IZR (2 ^ k))) * IZR (2 ^ k) / scale.
Proof.
  intros Hk Hb. unfold round. rewrite (ulp_bits_binade x k Hk Hb). reflexivity.
Qed.

Lemma round_0 : round 0 = 0.
Proof.
  unfold round. rewrite ulp_bits_small.
  - simpl (2 ^ 0)%Z. replace (0 * scale / 1) with (IZR 0) by (unfold Rdiv; ring).
    rewrite rne_IZR. unfold Rdiv. ring.
  - rewrite Rabs_R0, Rmult_0_l. apply IZR_lt. reflexivity.
Qed.

(** Rounding keeps the numbers of the format. *)
Lemma round_exact (x : R) : is_f32 x -> round x = x.
Proof.
  intros (m & k & Hm & (Hk & _) & ->).
  pose proof scale_pos as Hs. pose proof (pow2_pos k Hk) as Hp.
  destruct (Z.eq_dec m 0) as [->|Hne].
  { replace (0 * IZR (2 ^ k) / scale) with 0 by (unfold Rdiv; ring). apply round_0. }
  set (L := Z.log2 (Z.abs m)).
  assert (HL : (0 <= L <= 23)%Z).
  { split; [apply Z.log2_nonneg|].
    assert (L < 24)%Z by (apply Z.log2_lt_pow2; lia). lia. }
  set (j := Z.max 0 (k + L - 23)).
  assert (Hj : (0 <= j <= k)%Z) by lia.
  assert (Hu : ulp_bits (IZR m * IZR (2 ^ k) / scale) = j).
  { unfold ulp_bits.
    replace (Rabs (IZR m * IZR (2 ^ k) / scale) * scale)
      with (IZR (Z.abs m * 2 ^ k)).
    - rewrite ZfloorZ, Z.log2_mul_pow2 by lia. fold L. unfold j. lia.
    - rewrite mult_IZR, abs_IZR. unfold Rdiv.
      rewrite !Rabs_mult, (Rabs_pos_eq (IZR (2 ^ k))) by lra.
      rewrite (Rabs_pos_eq (/ scale)) by (left; apply Rinv_0_lt_compat; exact Hs).
      rewrite !Rmult_assoc, Rinv_l by lra. ring. }
  unfold round. rewrite Hu.
  pose proof (pow2_pos j ltac:(lia)) as Hpj.
  replace (IZR m * IZR (2 ^ k) / scale * scale / IZR (2 ^ j))
    with (IZR (m * 2 ^ (k - j))).
  - rewrite rne_IZR, mult_IZR.
    replace (2 ^ k)%Z with (2 ^ (k - j) * 2 ^ j)%Z
      by (rewrite <- Z.pow_add_r by lia; f_equal; lia).
    rewrite mult_IZR. unfold Rdiv. ring.
  - rewrite mult_IZR.
    replace (2 ^ k)%Z with (2 ^ (k - j) * 2 ^ j)%Z
      by (rewrite <- Z.pow_add_r by lia; f_equal; lia).
    rewrite mult_IZR. field. lra.
Qed.

Lemma is_f32_IZR (n : Z) : (Z.abs n < 2 ^ 24)%Z -> is_f32 (IZR n).
Proof.
  intros H. exists n, 149%Z. split; [exact H|]. split; [lia|].
  unfold scale, scaleZ. simpl (2 ^ 149)%Z. lra.
Qed.



(** Rounding the quotient [n / 2^k] to the nearest integer, ties to even,
    is what [round_bits] does with shifts. *)
Lemma round_bits_rne (n k : Z) :
  (0 <= n)%Z -> (1 <= k)%Z ->
  round_bits n k = (rne (IZR n / IZR (2 ^ k)) * 2 ^ k)%Z.
Proof.
  intros Hn Hk. unfold round_bits.
  rewrite Z.shiftr_div_pow2, !Z.shiftl_mul_pow2 by lia.
  assert (Hp : (0 < 2 ^ k)%Z) by (apply Z.pow_pos_nonneg; lia).
  assert (Hh : (2 ^ k = 2 * 2 ^ (k - 1))%Z).
  { rewrite <- Z.pow_succ_r by lia. f_equal. lia. }
  pose proof (Z.div_mod n (2 ^ k) ltac:(lia)) as Hdm.
  pose proof (Z.mod_pos_bound n (2 ^ k) Hp) as Hr.
  set (q := (n / 2 ^ k)%Z) in *. set (r := (n mod 2 ^ k)%Z) in *.
  replace (n - q * 2 ^ k)%Z with r by lia.
  rewrite Z.mul_1_l. set (h := (2 ^ (k - 1))%Z) in *.
  assert (HP : 0 < IZR (2 ^ k)) by (apply IZR_lt; exact Hp).
  assert (Ey : IZR n / IZR (2 ^ k) = IZR q + IZR r / IZR (2 ^ k)).
  { rewrite Hdm at 1. rewrite plus_IZR, mult_IZR. field. lra. }
  assert (Hp2 : IZR (2 ^ k) = 2 * IZR h) by (rewrite Hh, mult_IZR; reflexivity).
  assert (Hr0 : 0 <= IZR r) by (apply IZR_le; lia).
  assert (Hr1 : IZR r < IZR (2 ^ k)) by (apply IZR_lt; lia).
  assert (Hfrac : 0 <= IZR r / IZR (2 ^ k) < 1).
  { split; [apply Rmult_le_pos; [lra | left; apply Rinv_0_lt_compat; lra]|].
    apply Rmult_lt_reg_r with (IZR (2 ^ k)); [lra|].
    unfold Rdiv. rewrite Rmult_assoc, Rinv_l by lra. lra. }
  f_equal. unfold rne. rewrite Ey.
  rewrite (Zfloor_eq q) by lra.
  replace (IZR q + IZR r / IZR (2 ^ k) - IZR q) with (IZR r / IZR (2 ^ k)) by ring.
  assert (Ef : IZR r / IZR (2 ^ k) * IZR (2 ^ k) = IZR r) by (field; lra).
  set (f := IZR r / IZR (2 ^ k)) in *.
  assert (Hlt : f < 1 / 2 <-> (r < h)%Z).
  { split; intros G.
    - apply lt_IZR.
      assert (f * IZR (2 ^ k) < 1 / 2 * IZR (2 ^ k))
        by (apply Rmult_lt_compat_r; lra).
      lra.
    - apply IZR_lt in G. apply Rmult_lt_reg_r with (IZR (2 ^ k)); lra. }
  assert (Hgt : 1 / 2 < f <-> (h < r)%Z).
  { split; intros G.
    - apply lt_IZR.
      assert (1 / 2 * IZR (2 ^ k) < f * IZR (2 ^ k))
        by (apply Rmult_lt_compat_r; lra).
      lra.
    - apply IZR_lt in G. apply Rmult_lt_reg_r with (IZR (2 ^ k)); lra. }
  destruct (Rlt_dec f (1 / 2)) as [G|G].
  - apply Hlt in G. destruct (Z.ltb_spec r h); [reflexivity | lia].
  - destruct (Z.ltb_spec r h) as [G'|G']; [apply Hlt in G'; contradiction|].
    destruct (Rlt_dec (1 / 2) f) as [G2|G2].
    + apply Hgt in G2. destruct (Z.ltb_spec h r); [reflexivity | lia].
    + destruct (Z.ltb_spec h r) as [G3|G3]; [apply Hgt in G3; contradiction|].
      rewrite <- Z.negb_even. destruct (Z.even q); reflexivity.
Qed.

(** The conversion of an integer is the rounding of its value. *)
Lemma f32_of_u32_round (n : Z) : (0 <= n)%Z -> f32_of_u32 n = round (IZR n).
Proof.
  intros Hn. unfold f32_of_u32, round_u32.
  destruct (Z.leb_spec (Z.log2 n - 23) 0) as [Hk|Hk].
  - symmetry. apply round_exact. apply is_f32_IZR.
    destruct (Z.eq_dec n 0) as [->|Hn0]; [reflexivity|].
    rewrite Z.abs_eq by lia. apply Z.log2_lt_pow2; lia.
  - assert (Hpos : (0 < n)%Z).
    { destruct (Z.eq_dec n 0) as [->|]; [simpl in Hk; lia | lia]. }
    destruct (Z.log2_spec n Hpos) as [HL1 HL2].
    set (k := (Z.log2 n - 23)%Z) in *.
    replace (Z.log2 n) with (23 + k)%Z in HL1 by lia.
    replace (Z.succ (Z.log2 n)) with (24 + k)%Z in HL2 by lia.
    rewrite round_bits_rne by lia.
    assert (Hs : scale = IZR (2 ^ 149)) by reflexivity.
    assert (HP : 0 < IZR (2 ^ k)) by (apply IZR_lt, Z.pow_pos_nonneg; lia).
    assert (HS : 0 < IZR (2 ^ 149)) by (apply IZR_lt; reflexivity).
    assert (Hpk : IZR (2 ^ (k + 149)) = IZR (2 ^ k) * IZR (2 ^ 149)).
    { rewrite Z.pow_add_r by lia. apply mult_IZR. }
    rewrite (round_binade _ (k + 149)).
    + rewrite Hpk, Hs.
      replace (IZR n * IZR (2 ^ 149) / (IZR (2 ^ k) * IZR (2 ^ 149)))
        with (IZR n / IZR (2 ^ k)) by (field; lra).
      rewrite mult_IZR. field. lra.
    + lia.
    + rewrite Rabs_pos_eq by (apply IZR_le; lia). rewrite Hs, <- mult_IZR.
      replace (23 + (k + 149))%Z with (23 + k + 149)%Z by lia.
      replace (24 + (k + 149))%Z with (24 + k + 149)%Z by lia.
      rewrite !(Z.pow_add_r _ _ 149) by lia.
      split; [apply IZR_le | apply IZR_lt]; nia.
Qed.

(** Of two neighbours at the same distance the even one is taken; the
    integers show it: [f32(2^24 + 1)] is 2^24 and [f32(2^24 + 3)] is
    2^24 + 4. *)
Lemma round_u32_ties :
  round_u32 16777217 = 16777216%Z /\ round_u32 16777219 = 16777220%Z.
Proof. split; reflexivity. Qed.

End Rounding.

(** ** Progressive accumulation *)

Section Accumulation.

Import F32 Accum Scenes.






















End Accumulation.

(** ** The triangle test *)

Section TriangleTest.

Import W08 W08Spec.

Variable sc : Scene.

Lemma intersect_triangle_unfold (r : Ray) (hit : HitInfo) (i : Z) :
  intersect_triangle sc r hit i
  = if flt (Rabs (tri_q sc (direction r) i)) 1e-8 then (false, hit)
    else if flt (tri_t sc (origin r) (direction r) i) (tmin r)
            || fgt (tri_t sc (origin r) (direction r) i) (tmax r)
    then (false, hit)
    else if flt (tri_beta sc (origin r) (direction r) i) 0
            || flt (tri_gamma sc (origin r) (direction r) i) 0
            || fgt (tri_beta sc (origin r) (direction r) i
                    + tri_gamma sc (origin r) (direction r) i) 1
    then (false, hit)
    else (true, tri_record sc r hit i).
Proof. reflexivity. Qed.

Lemma intersect_triangle_hit (r : Ray) (hit : HitInfo) (i : Z) :
  tri_inside sc (origin r) (direction r) i ->
  tmin r <= tri_t sc (origin r) (direction r) i <= tmax r ->
  intersect_triangle sc r hit i = (true, tri_record sc r hit i).
Proof.
  intros (Hq & Hb & Hg & Hbg) Ht. rewrite intersect_triangle_unfold.
  fcases; simpl; try reflexivity; lra.
Qed.

Lemma intersect_triangle_miss (r : Ray) (hit : HitInfo) (i : Z) :
  ~ (tri_inside sc (origin r) (direction r) i
     /\ tmin r <= tri_t sc (origin r) (direction r) i <= tmax r) ->
  intersect_triangle sc r hit i = (false, hit).
Proof.
  intros H. rewrite intersect_triangle_unfold. unfold tri_inside in H.
  fcases; simpl; try reflexivity. exfalso. apply H. lra.
Qed.

Lemma intersect_triangle_true (r : Ray) (hit hit' : HitInfo) (i : Z) :
  intersect_triangle sc r hit i = (true, hit') ->
  tri_inside sc (origin r) (direction r) i
  /\ tmin r <= tri_t sc (origin r) (direction r) i <= tmax r
  /\ hit' = tri_record sc r hit i.
Proof.
  rewrite intersect_triangle_unfold. unfold tri_inside.
  fcases; simpl; intros E; inversion E; subst. repeat split; lra.
Qed.

Lemma intersect_triangle_false (r : Ray) (hit hit' : HitInfo) (i : Z) :
  intersect_triangle sc r hit i = (false, hit') -> hit' = hit.
Proof.
  rewrite intersect_triangle_unfold.
  fcases; simpl; intros E; inversion E; reflexivity.
Qed.

(** A recorded hit never divides by zero: the determinant is bounded away
    from it. *)
Lemma intersect_triangle_divisor (r : Ray) (hit hit' : HitInfo) (i : Z) :
  intersect_triangle sc r hit i = (true, hit') -> tri_q sc (direction r) i <> 0.
Proof.
  intros H. apply intersect_triangle_true in H. destruct H as ((Hq & _) & _).
  intros E. rewrite E, Rabs_R0 in Hq. lra.
Qed.


End TriangleTest.


(** ** The random number generator *)

Lemma mcg31_range (prev : Z) : (0 <= Rng.mcg31 prev < 2147483648)%Z.
Proof.
  unfold Rng.mcg31.
  change 0x7FFFFFFF%Z with (Z.ones 31). rewrite Z.land_ones by lia.
  change (2 ^ 31)%Z with 2147483648%Z. apply Z.mod_pos_bound. lia.
Qed.

(** Among the states of 31 bits, [f32] takes exactly the 64 largest ones
    to 2^31: they are at least as near to 2^31 as to 2^31 - 128, the
    f32 number below it. *)
Lemma round_u32_top (n : Z) :
  (1073741824 <= n < 2147483648)%Z ->
  round_u32 n = 2147483648%Z <-> (2147483584 <= n)%Z.
Proof.
  intros H. unfold round_u32.
  assert (E : Z.log2 n = 30%Z) by (apply Z.log2_unique; simpl; lia).
  rewrite E. change (30 - 23)%Z with 7%Z. change (7 <=? 0)%Z with false. cbv iota.
  unfold round_bits. rewrite Z.shiftr_div_pow2 by lia.
  rewrite !Z.shiftl_mul_pow2 by lia.
  change (2 ^ 7)%Z with 128%Z. change (1 * 2 ^ (7 - 1))%Z with 64%Z.
  assert (Hq : (n = 128 * (n / 128) + n mod 128)%Z) by (apply Z.div_mod; lia).
  assert (Hr : (0 <= n mod 128 < 128)%Z) by (apply Z.mod_pos_bound; lia).
  set (q := (n / 128)%Z) in *. set (r := (n mod 128)%Z) in *.
  replace (n - q * 128)%Z with r by lia.
  destruct (Z.ltb_spec r 64); cbv iota.
  - split; intros; lia.
  - destruct (Z.ltb_spec 64 r); cbv iota.
    + split; intros; lia.
    + assert (r = 64%Z) by lia.
      destruct (Z.odd q) eqn:Eo.
      * split; intros; lia.
      * split; intros G; [lia|]. exfalso.
        assert (Eq : q = 16777215%Z) by lia. rewrite Eq in Eo. discriminate.
Qed.

Lemma rnd_value (t : Z) :
  fst (Rng.rnd t) = IZR (round_u32 (Rng.mcg31 t)) / 2147483648.
Proof. reflexivity. Qed.

Lemma rnd_range (t : Z) : 0 <= fst (Rng.rnd t) <= 1.
Proof.
  rewrite rnd_value.
  pose proof (mcg31_range t) as Hm.
  destruct (round_u32_bounds (Rng.mcg31 t) 31 ltac:(lia) Hm) as [Hlo Hhi].
  change (2 ^ 31)%Z with 2147483648%Z in Hhi.
  apply IZR_le in Hlo. apply IZR_le in Hhi.
  split.
  - apply Rmult_le_pos; [lra | left; apply Rinv_0_lt_compat; lra].
  - apply Rmult_le_reg_r with 2147483648; [lra|]. field_simplify; lra.
Qed.

(** [rnd] returns 1.0 for the 64 largest states, and only for them. *)
Lemma rnd_one_iff (t : Z) :
  fst (Rng.rnd t) = 1 <-> (2147483584 <= Rng.mcg31 t)%Z.
Proof.
  rewrite rnd_value.
  pose proof (mcg31_range t) as Hm.
  assert (E : IZR (round_u32 (Rng.mcg31 t)) / 2147483648 = 1
              <-> round_u32 (Rng.mcg31 t) = 2147483648%Z).
  { split; intros G.
    - apply eq_IZR. lra.
    - rewrite G. lra. }
  rewrite E.
  destruct (Z.lt_ge_cases (Rng.mcg31 t) 1073741824) as [Hs|Hs].
  - destruct (round_u32_bounds (Rng.mcg31 t) 30 ltac:(lia) ltac:(simpl; lia))
      as [_ Hhi].
    change (2 ^ 30)%Z with 1073741824%Z in Hhi. split; intros; lia.
  - apply round_u32_top. lia.
Qed.

Lemma rnd_lt_one (t : Z) : (Rng.mcg31 t < 2147483584)%Z -> fst (Rng.rnd t) < 1.
Proof.
  intros H. pose proof (rnd_range t) as [_ Hle].
  destruct Hle as [Hlt|Heq]; [exact Hlt|].
  apply rnd_one_iff in Heq. lia.
Qed.

Lemma rnd_seed (t : Z) : snd (Rng.rnd t) = Rng.mcg31 t.
Proof. reflexivity. Qed.

Lemma exp_neg_bound (x : R) : 0 < x -> exp (- x) < 1 / (1 + x).
Proof.
  intros H. rewrite exp_Ropp.
  pose proof (exp_ineq1 x ltac:(lra)) as Hx.
  unfold Rdiv. rewrite Rmult_1_l. apply Rinv_0_lt_contravar; lra.
Qed.

(** ** The bounce loop *)

Section BounceLoop.

Import W08.

Variable sc : Scene.

(** [intersect_scene] reports a hit only with the hit flag set. *)
Lemma intersect_scene_flag (fuel : nat) (r r' : Ray) (hit hit' : HitInfo) :
  intersect_scene sc fuel r hit = Some (true, r', hit') -> has_hit hit' = true.
Proof.
  unfold intersect_scene.
  destruct (intersect_min_max sc r) as [ok r0].
  destruct ok; cbn [negb]; [|discriminate].
  destruct (intersect_sphere r0 hit _ _) as [b1 h1].
  destruct (if b1 then _ else _) as [r1 h1'].
  destruct (intersect_sphere r1 h1' _ _) as [b2 h2].
  destruct (if b2 then _ else _) as [r2 h2'].
  destruct (intersect_trimesh sc fuel r2 h2') as [[[b3 r3] h3]|]; cbn [obind];
    [|discriminate].
  destruct (if b3 then _ else _) as [r4 h4].
  intros E. injection E as E1 E2 E3. subst. exact E1.
Qed.

(** A bounce whose shading leaves the hit flag set is the last one: the
    loop adds its radiance, weighted by the throughput read before the
    shading, and stops. *)
Lemma bounces_last (fuel n : nat) (res0 : vec3) (r0 r r2 : Ray)
  (hit0 hit h2 : HitInfo) (t0 t2 : Z) (c : vec3) :
  intersect_scene sc fuel r0 hit0 = Some (true, r, hit) ->
  shade sc fuel r hit t0 = Some (c, r2, h2, t2) ->
  has_hit h2 = true ->
  bounces sc fuel (S n) res0 r0 hit0 t0
  = Some (vadd res0 (vmul (throughput hit) c)).
Proof.
  intros Hi Hs Hh. cbn [bounces]. rewrite Hi. cbn [obind].
  rewrite Hs. cbn [obind]. rewrite Hh. reflexivity.
Qed.

End BounceLoop.

(** ** The dielectric BSDF *)

Section Transparent.

Import W08 BsdfSpec.

Lemma transparent_exit_fail (r : Ray) (hit : HitInfo) (t : Z) :
  exiting r hit -> survival hit <= fst (Rng.rnd t) ->
  transparent r hit t = (vzero, r, with_emit true hit, snd (Rng.rnd t)).
Proof.
  unfold exiting, survival, transmittance, costhetai. intros Hc Hp.
  unfold transparent. cbv zeta. simpl in *.
  rewrite (flt_true _ 0) by exact Hc.
  rewrite flt_false by exact Hp. reflexivity.
Qed.

Lemma transparent_exit_throughput (r : Ray) (hit : HitInfo) (t : Z) :
  exiting r hit -> fst (Rng.rnd t) < survival hit ->
  throughput (res_hit (transparent r hit t))
  = vmul (throughput hit) (vdivs (transmittance hit) (survival hit)).
Proof.
  unfold exiting, survival, transmittance, costhetai, res_hit. intros Hc Hp.
  unfold transparent. cbv zeta. simpl in *.
  rewrite (flt_true _ 0) by exact Hc.
  rewrite flt_true by exact Hp.
  fcases; reflexivity.
Qed.

Lemma transparent_enter_throughput (r : Ray) (hit : HitInfo) (t : Z) :
  0 <= costhetai r hit ->
  throughput (res_hit (transparent r hit t)) = throughput hit.
Proof.
  unfold costhetai, res_hit. intros Hc.
  unfold transparent. cbv zeta. simpl in *.
  rewrite (flt_false _ 0) by exact Hc.
  fcases; reflexivity.
Qed.

(** On total internal reflection the part of [transparent] after the
    absorption step is [mirror], and the seed is not advanced by a Fresnel
    draw. *)
Lemma transparent_tir (r : Ray) (hit : HitInfo) (t : Z) :
  total_internal_reflection r hit ->
  0 <= costhetai r hit \/ fst (Rng.rnd t) < survival hit ->
  transparent r hit t
  = (mirror r (absorbed r hit), absorbed_seed r hit t).
Proof.
  unfold total_internal_reflection, sin2thetat, eta_eff, absorbed, absorbed_seed.
  unfold survival, transmittance, costhetai. intros Htir Hs.
  unfold transparent. cbv zeta. simpl in *.
  destruct (flt_spec (dot (vneg (direction r)) (normal hit)) 0) as [Hc|Hc].
  - destruct Hs as [Hs|Hs]; [lra|].
    rewrite flt_true by exact Hs.
    unfold fgt. rewrite flt_true; [reflexivity|].
    rewrite Rmult_opp_opp. lra.
  - unfold fgt. rewrite flt_true by lra. reflexivity.
Qed.

End Transparent.

Section TransparentClaims.

Import W08 BsdfSpec Scenes.

Lemma steep_ray_exits : exiting steep_ray glass_hit.
Proof. unfold exiting, costhetai. simpl. vsimpl. lra. Qed.

Lemma glass_hit_survival : survival glass_hit < 1 / 4.
Proof.
  unfold survival, transmittance. simpl. vsimpl.
  replace (- (1) * 3) with (Ropp 3) by lra.
  pose proof (exp_neg_bound 3 ltac:(lra)) as H.
  replace (1 / (1 + 3)) with (1 / 4) in H by field. lra.
Qed.

(** From state 1 the generator moves to 1977654935, which [f32] rounds
    to 1977654912. *)
Lemma rnd_1 : fst (Rng.rnd 1) = 1977654912 / 2147483648.
Proof.
  rewrite rnd_value.
  replace (round_u32 (Rng.mcg31 1)) with 1977654912%Z by reflexivity.
  reflexivity.
Qed.

Lemma rnd_0 : fst (Rng.rnd 0) = 0.
Proof.
  rewrite rnd_value.
  replace (round_u32 (Rng.mcg31 0)) with 0%Z by reflexivity. lra.
Qed.

Lemma steep_ray_tir : total_internal_reflection steep_ray glass_hit.
Proof.
  unfold total_internal_reflection, sin2thetat, eta_eff.
  rewrite flt_true by exact steep_ray_exits.
  unfold costhetai. simpl. vsimpl. lra.
Qed.

(** C4, a counterexample to the unrestricted statement: a hit past the
    critical angle, met from inside the glass, whose absorption roulette
    fails: [transparent] returns before the refraction discriminant is
    tested, the ray is not reflected and the path ends at this hit. *)
Lemma C4_tir_absorbed_not_mirrored :
  total_internal_reflection steep_ray glass_hit
  /\ direction (res_ray (transparent steep_ray glass_hit 1))
     <> reflect (direction steep_ray) (normal glass_hit)
  /\ has_hit (res_hit (transparent steep_ray glass_hit 1)) = true.
Proof.
  split; [exact steep_ray_tir|].
  rewrite transparent_exit_fail.
  - split; [|reflexivity].
    unfold res_ray. simpl. vsimpl.
    intros E. injection E as E. lra.
  - exact steep_ray_exits.
  - rewrite rnd_1. pose proof glass_hit_survival. lra.
Qed.

(** C4, restricted to where it holds: at a dielectric hit where the
    refraction discriminant indicates total internal reflection, and where
    the absorption roulette made on exit has not ended the path (the ray is
    entering, or the roulette survived), [transparent] takes the mirror
    branch: the ray continues from the hit position along the reflection of
    the incoming direction about the normal, the returned radiance is zero,
    no refracted direction is generated and no random number is drawn for a
    Fresnel choice. *)
Theorem C4_tir_takes_mirror_branch (r : Ray) (hit : HitInfo) (t : Z) :
  total_internal_reflection r hit ->
  ~ exiting r hit \/ fst (Rng.rnd t) < survival hit ->
  transparent r hit t = (mirror r (absorbed r hit), absorbed_seed r hit t)
  /\ direction (res_ray (transparent r hit t)) = reflect (direction r) (normal hit)
  /\ origin (res_ray (transparent r hit t)) = position hit
  /\ has_hit (res_hit (transparent r hit t)) = false
  /\ res_radiance (transparent r hit t) = vzero
  /\ res_seed (transparent r hit t) = absorbed_seed r hit t.
Proof.
  intros Htir Hs.
  assert (E : transparent r hit t = (mirror r (absorbed r hit), absorbed_seed r hit t)).
  { apply transparent_tir; [exact Htir|]. unfold exiting in Hs. lra. }
  rewrite E. split; [reflexivity|].
  unfold absorbed, res_ray, res_hit, res_radiance, res_seed, mirror.
  destruct (flt (costhetai r hit) 0); simpl; repeat split; reflexivity.
Qed.

Lemma C4_tir_takes_mirror_branch_witness :
  transparent steep_ray glass_hit 0
  = (mirror steep_ray (absorbed steep_ray glass_hit),
     absorbed_seed steep_ray glass_hit 0)
  /\ direction (res_ray (transparent steep_ray glass_hit 0))
     = reflect (direction steep_ray) (normal glass_hit)
  /\ origin (res_ray (transparent steep_ray glass_hit 0)) = position glass_hit
  /\ has_hit (res_hit (transparent steep_ray glass_hit 0)) = false
  /\ res_radiance (transparent steep_ray glass_hit 0) = vzero
  /\ res_seed (transparent steep_ray glass_hit 0) = absorbed_seed steep_ray glass_hit 0.
Proof.
  apply C4_tir_takes_mirror_branch.
  - exact steep_ray_tir.
  - right. rewrite rnd_0. unfold survival, transmittance. simpl. vsimpl.
    pose proof (exp_pos (- (1) * 3)). lra.
Defined.

(** C5: when the ray leaves the volume, [transparent] makes one roulette
    decision against the average channel of Tr = exp(-extinction *
    distance); on survival the throughput is multiplied by Tr divided by
    that probability, on failure the function returns zero radiance with
    the ray and the hit flag untouched, and the bounce loop of [main_fs]
    stops at this bounce having added zero radiance; when the ray is
    entering, the throughput is not changed. *)
Theorem C5_exit_absorption (r : Ray) (hit : HitInfo) (t : Z) :
  exiting r hit ->
  transmittance hit = vexp (vscale (vneg (extinction hit)) (distance hit))
  /\ (fst (Rng.rnd t) < survival hit ->
      throughput (res_hit (transparent r hit t))
      = vmul (throughput hit) (vdivs (transmittance hit) (survival hit)))
  /\ (survival hit <= fst (Rng.rnd t) ->
      transparent r hit t = (vzero, r, with_emit true hit, snd (Rng.rnd t))
      /\ forall (sc : Scene) (fuel n : nat) (res0 : vec3) (r0 : Ray)
           (hit0 : HitInfo),
           intersect_scene sc fuel r0 hit0 = Some (true, r, hit) ->
           shader hit = 6%Z ->
           bounces sc fuel (S n) res0 r0 hit0 t
           = Some (vadd res0 (vmul (throughput hit) vzero)))
  /\ (forall (r2 : Ray) (hit2 : HitInfo) (t2 : Z),
      ~ exiting r2 hit2 ->
      throughput (res_hit (transparent r2 hit2 t2)) = throughput hit2).
Proof.
  intros Hx. split; [reflexivity|]. split; [|split].
  - intros Hs. apply transparent_exit_throughput; assumption.
  - intros Hs.
    pose proof (transparent_exit_fail r hit t Hx Hs) as Hfail.
    split; [exact Hfail|].
    intros sc fuel n res0 r0 hit0 Hi Hsh.
    apply (bounces_last sc fuel n res0 r0 r r hit0 hit (with_emit true hit)
             t (snd (Rng.rnd t)) vzero Hi).
    + unfold shade. rewrite Hsh. cbn [Z.eqb Pos.eqb]. rewrite Hfail. reflexivity.
    + cbn [has_hit with_emit]. exact (intersect_scene_flag sc fuel r0 r hit0 hit Hi).
  - intros r2 hit2 t2 Hn. apply transparent_enter_throughput.
    unfold exiting in Hn. lra.
Qed.

Lemma C5_exit_absorption_witness :
  transmittance glass_hit
  = vexp (vscale (vneg (extinction glass_hit)) (distance glass_hit))
  /\ (fst (Rng.rnd 1) < survival glass_hit ->
      throughput (res_hit (transparent steep_ray glass_hit 1))
      = vmul (throughput glass_hit)
             (vdivs (transmittance glass_hit) (survival glass_hit)))
  /\ (survival glass_hit <= fst (Rng.rnd 1) ->
      transparent steep_ray glass_hit 1
      = (vzero, steep_ray, with_emit true glass_hit, snd (Rng.rnd 1))
      /\ forall (sc : Scene) (fuel n : nat) (res0 : vec3) (r0 : Ray)
           (hit0 : HitInfo),
           intersect_scene sc fuel r0 hit0 = Some (true, steep_ray, glass_hit) ->
           shader glass_hit = 6%Z ->
           bounces sc fuel (S n) res0 r0 hit0 1
           = Some (vadd res0 (vmul (throughput glass_hit) vzero)))
  /\ (forall (r2 : Ray) (hit2 : HitInfo) (t2 : Z),
      ~ exiting r2 hit2 ->
      throughput (res_hit (transparent r2 hit2 t2)) = throughput hit2).
Proof.
  apply C5_exit_absorption. unfold exiting, costhetai. simpl. vsimpl. lra.
Defined.

End TransparentClaims.

(** ** The sphere test *)

Section Sphere.

Import SphereSpec.

Lemma w08_sphere_unfold (r : W08.Ray) (hit : W08.HitInfo) (c : vec3) (radius : R) :
  let o := W08.origin r in
  let d := W08.direction r in
  W08.intersect_sphere r hit c radius
  = if flt (discriminant o d c radius) 1e-8 then (false, hit)
    else
      let t := if flt (near_root o d c radius) (W08.tmin r)
                  || fgt (near_root o d c radius) (W08.tmax r)
               then far_root o d c radius else near_root o d c radius in
      if flt t (W08.tmin r) || fgt t (W08.tmax r) then (false, hit)
      else (true, sphere_record r hit c t).
Proof. reflexivity. Qed.





End Sphere.

Section SphereClaims.

Import SphereSpec Scenes.








End SphereClaims.

(** ** Ties between candidates *)

Section Ties.

Import W08 W08Spec Scenes.

Lemma leaf_body_unfold (sc : Scene) (id : Z) (found : bool) (r : Ray)
  (hit : HitInfo) (j : Z) :
  leaf_body sc id (found, r, hit) j
  = let idx := get 0%Z (treeIds sc) (u32_add id j) in
    if fst (intersect_triangle sc r hit idx)
    then (true, with_tmax (distance (snd (intersect_triangle sc r hit idx))) r,
          with_triangle_idx idx (snd (intersect_triangle sc r hit idx)))
    else (found, r, snd (intersect_triangle sc r hit idx)).
Proof.
  unfold leaf_body. cbv zeta.
  destruct (intersect_triangle sc r hit _) as [b h]. reflexivity.
Qed.

Lemma leaf_body_hit (sc : Scene) (id : Z) (found : bool) (r : Ray)
  (hit : HitInfo) (j : Z) :
  let idx := get 0%Z (treeIds sc) (u32_add id j) in
  tri_inside sc (origin r) (direction r) idx ->
  tmin r <= tri_t sc (origin r) (direction r) idx <= tmax r ->
  leaf_body sc id (found, r, hit) j
  = (true, with_tmax (tri_t sc (origin r) (direction r) idx) r,
     with_triangle_idx idx (tri_record sc r hit idx)).
Proof.
  intros idx Hin Ht. rewrite leaf_body_unfold. fold idx. cbv zeta.
  rewrite intersect_triangle_hit by assumption. reflexivity.
Qed.

Lemma leaf_body_miss (sc : Scene) (id : Z) (found : bool) (r : Ray)
  (hit : HitInfo) (j : Z) :
  let idx := get 0%Z (treeIds sc) (u32_add id j) in
  ~ (tri_inside sc (origin r) (direction r) idx
     /\ tmin r <= tri_t sc (origin r) (direction r) idx <= tmax r) ->
  leaf_body sc id (found, r, hit) j = (found, r, hit).
Proof.
  intros idx H. rewrite leaf_body_unfold. fold idx. cbv zeta.
  rewrite intersect_triangle_miss by assumption. reflexivity.
Qed.

(** A tree whose root is a leaf: one iteration of the loop decides. *)
Lemma trimesh_root_leaf (sc : Scene) (fuel : nat) (r : Ray) (hit : HitInfo) :
  Z.land (ux (get default_face (bspTree sc) 0)) 3 = BSP_LEAF ->
  intersect_trimesh sc (S fuel) r hit
  = Some (leaf_loop sc (u32_shr (ux (get default_face (bspTree sc) 0)) 2)
            (uy (get default_face (bspTree sc) 0)) r hit).
Proof.
  intros Hleaf. unfold intersect_trimesh. cbn [trimesh_loop t_i t_node t_r t_hit t_branch_lvl].
  change (negb (0 <=? MAX_LEVEL)%Z) with false. cbv iota.
  rewrite Hleaf. rewrite Z.eqb_refl.
  destruct (leaf_loop sc _ _ r hit) as [[found r'] hit'].
  destruct found; reflexivity.
Qed.

(** The values of the triangle test for the ray straight down onto the
    unit triangle; they depend only on the first face and the vertices. *)
Lemma down_ray_values (sc : Scene) (i : Z) :
  vInfo sc = unit_vertices -> meshFaces_at sc i = U4 0 1 2 0 ->
  tri_q sc (direction down_ray) i = -1
  /\ tri_t sc (origin down_ray) (direction down_ray) i = 1
  /\ tri_beta sc (origin down_ray) (direction down_ray) i = 1 / 4
  /\ tri_gamma sc (origin down_ray) (direction down_ray) i = 1 / 4.
Proof.
  intros Hv Hf.
  unfold tri_t, tri_beta, tri_gamma, tri_q, tri_a, tri_e0, tri_e1, vInfo_at.
  rewrite Hf, Hv. simpl. vsimpl. repeat split; field.
Qed.

Lemma down_ray_inside (sc : Scene) (i : Z) :
  vInfo sc = unit_vertices -> meshFaces_at sc i = U4 0 1 2 0 ->
  tri_inside sc (origin down_ray) (direction down_ray) i.
Proof.
  intros Hv Hf. destruct (down_ray_values sc i Hv Hf) as (Hq & Ht & Hb & Hg).
  unfold tri_inside. rewrite Hq, Hb, Hg.
  replace (Rabs (-1)) with 1; [lra|].
  rewrite Rabs_left; lra.
Qed.

End Ties.

Section TieClaims.

Import W08 W08Spec Scenes.

Lemma two_coincident_first :
  leaf_body two_coincident 0 (false, down_ray, default_hitinfo) 0
  = (true, with_tmax 1 down_ray,
     with_triangle_idx 0 (tri_record two_coincident down_ray default_hitinfo 0)).
Proof.
  destruct (down_ray_values two_coincident 0 eq_refl eq_refl) as (Hq & Ht & Hb & Hg).
  rewrite leaf_body_hit.
  - change (get 0%Z (treeIds two_coincident) (u32_add 0 0)) with 0%Z.
    rewrite Ht. reflexivity.
  - apply down_ray_inside; reflexivity.
  - change (get 0%Z (treeIds two_coincident) (u32_add 0 0)) with 0%Z.
    rewrite Ht. simpl. lra.
Qed.

Lemma two_coincident_second (hit : HitInfo) :
  leaf_body two_coincident 0 (true, with_tmax 1 down_ray, hit) 1
  = (true, with_tmax 1 down_ray,
     with_triangle_idx 1 (tri_record two_coincident (with_tmax 1 down_ray) hit 1)).
Proof.
  destruct (down_ray_values two_coincident 1 eq_refl eq_refl) as (Hq & Ht & Hb & Hg).
  rewrite leaf_body_hit.
  - change (get 0%Z (treeIds two_coincident) (u32_add 0 1)) with 1%Z.
    change (origin (with_tmax 1 down_ray)) with (origin down_ray).
    change (direction (with_tmax 1 down_ray)) with (direction down_ray).
    rewrite Ht. reflexivity.
  - apply (down_ray_inside two_coincident 1); reflexivity.
  - change (get 0%Z (treeIds two_coincident) (u32_add 0 1)) with 1%Z.
    change (origin (with_tmax 1 down_ray)) with (origin down_ray).
    change (direction (with_tmax 1 down_ray)) with (direction down_ray).
    rewrite Ht. simpl. lra.
Qed.

(** C3, a counterexample to the unrestricted statement: two coincident
    triangles 0 and 1 in one BSP leaf, both met by the ray at distance 1.
    Triangle 0 is recorded first and the best distance carried in [ray.tmax]
    becomes 1; the candidate of triangle 1, exactly that far, passes the
    test [t > r.tmax] and replaces the record: the traversal returns
    triangle 1. *)
Lemma C3_leaf_tie_replaces_record :
  tri_t two_coincident (origin down_ray) (direction down_ray) 0
  = tri_t two_coincident (origin down_ray) (direction down_ray) 1
  /\ triangle_idx (snd (leaf_body two_coincident 0 (false, down_ray, default_hitinfo) 0))
     = 0%Z
  /\ exists r1 hit1,
       intersect_trimesh two_coincident 1 down_ray default_hitinfo
       = Some (true, r1, hit1)
       /\ distance hit1 = 1 /\ triangle_idx hit1 = 1%Z.
Proof.
  destruct (down_ray_values two_coincident 0 eq_refl eq_refl) as (_ & Ht0 & _).
  destruct (down_ray_values two_coincident 1 eq_refl eq_refl) as (_ & Ht1 & _).
  split; [rewrite Ht0, Ht1; reflexivity|].
  split; [rewrite two_coincident_first; reflexivity|].
  rewrite trimesh_root_leaf by reflexivity.
  change (u32_shr (ux (get default_face (bspTree two_coincident) 0)) 2) with 2%Z.
  change (uy (get default_face (bspTree two_coincident) 0)) with 0%Z.
  unfold leaf_loop. change (range 2) with [0%Z; 1%Z].
  cbn [fold_left].
  rewrite two_coincident_first, two_coincident_second.
  eexists. eexists. split; [reflexivity|]. split; [|reflexivity].
  cbn [distance with_triangle_idx tri_record with_normal with_distance].
  change (origin (with_tmax 1 down_ray)) with (origin down_ray).
  change (direction (with_tmax 1 down_ray)) with (direction down_ray).
  exact Ht1.
Qed.

Lemma hit_update_keeps (r : Analytic.Ray) (hit : Analytic.HitInfo) (t : R)
  (p n ra rd rs : vec3) (sh ior : R) (id : Z) :
  Analytic.dist hit <= t ->
  Analytic.hit_update r hit t p n ra rd rs sh ior id = hit.
Proof.
  intros H. unfold Analytic.hit_update.
  rewrite (flt_false t) by exact H.
  rewrite andb_false_r. reflexivity.
Qed.

Lemma hit_update_nearer (r : Analytic.Ray) (hit : Analytic.HitInfo) (t : R)
  (p n ra rd rs : vec3) (sh ior : R) (id : Z) :
  Analytic.hit_update r hit t p n ra rd rs sh ior id = hit
  \/ Analytic.dist (Analytic.hit_update r hit t p n ra rd rs sh ior id)
     < Analytic.dist hit.
Proof.
  unfold Analytic.hit_update. fcases; simpl; auto.
Qed.

(** C3, restricted to where it holds: in the analytic-scene intersector
    every primitive test goes through [hit_update], whose comparison against
    the recorded best [hit.dist] is strict: a candidate at exactly the
    recorded distance (or farther) leaves the record as it is, so each of
    the plane, triangle and sphere tests either keeps the record or makes
    its distance strictly smaller. In the BSP-leaf triangle loop the best is
    carried in [ray.tmax] and the test rejects only [t > r.tmax]: a
    candidate at exactly [ray.tmax] that passes the other tests is accepted
    and replaces the record. *)
Theorem C3_tie_rules (sc : Scene) (id j : Z) (found : bool) (r : Ray) (hit : HitInfo) :
  let idx := get 0%Z (treeIds sc) (u32_add id j) in
  tri_inside sc (origin r) (direction r) idx ->
  tmin r <= tmax r ->
  tri_t sc (origin r) (direction r) idx = tmax r ->
  intersect_triangle sc r hit idx = (true, tri_record sc r hit idx)
  /\ leaf_body sc id (found, r, hit) j
     = (true, with_tmax (tmax r) r, with_triangle_idx idx (tri_record sc r hit idx))
  /\ (forall (ra : Analytic.Ray) (h : Analytic.HitInfo) (t : R)
        (p n ka kd ks : vec3) (sh ior : R) (id : Z),
      Analytic.dist h <= t ->
      Analytic.hit_update ra h t p n ka kd ks sh ior id = h)
  /\ (forall (ra : Analytic.Ray) (h : Analytic.HitInfo)
        (p0 n ka kd ks : vec3) (sh : R) (id : Z),
      Analytic.intersect_plane ra h p0 n ka kd ks sh id = h
      \/ Analytic.dist (Analytic.intersect_plane ra h p0 n ka kd ks sh id)
         < Analytic.dist h)
  /\ (forall (ra : Analytic.Ray) (h : Analytic.HitInfo)
        (v0 v1 v2 ka kd ks : vec3) (sh : R) (id : Z),
      Analytic.intersect_triangle ra h v0 v1 v2 ka kd ks sh id = h
      \/ Analytic.dist (Analytic.intersect_triangle ra h v0 v1 v2 ka kd ks sh id)
         < Analytic.dist h)
  /\ (forall (ra : Analytic.Ray) (h : Analytic.HitInfo) (c : vec3) (radius : R)
        (ka kd ks : vec3) (sh ior : R) (id : Z),
      Analytic.intersect_sphere ra h c radius ka kd ks sh ior id = h
      \/ Analytic.dist (Analytic.intersect_sphere ra h c radius ka kd ks sh ior id)
         < Analytic.dist h).
Proof.
  intros idx Hin Hle Ht. split; [|split; [|split; [|split; [|split]]]].
  - apply intersect_triangle_hit; [exact Hin | rewrite Ht; lra].
  - rewrite leaf_body_hit; fold idx; [rewrite Ht; reflexivity | exact Hin |].
    rewrite Ht. lra.
  - intros. apply hit_update_keeps; assumption.
  - intros. unfold Analytic.intersect_plane. cbv zeta.
    destruct (fgt _ _); [apply hit_update_nearer | left; reflexivity].
  - intros. unfold Analytic.intersect_triangle. cbv zeta.
    repeat match goal with
           | |- context [if ?b then h else _] => destruct b; [left; reflexivity|]
           end.
    apply hit_update_nearer.
  - intros. unfold Analytic.intersect_sphere. cbv zeta.
    destruct (fge _ _); [apply hit_update_nearer | left; reflexivity].
Qed.

Lemma C3_tie_rules_witness :
  leaf_body two_coincident 0
    (true, with_tmax 1 down_ray,
     with_triangle_idx 0 (tri_record two_coincident down_ray default_hitinfo 0)) 1
  = (true, with_tmax (tmax (with_tmax 1 down_ray)) (with_tmax 1 down_ray),
     with_triangle_idx (get 0%Z (treeIds two_coincident) (u32_add 0 1))
       (tri_record two_coincident (with_tmax 1 down_ray)
          (with_triangle_idx 0
             (tri_record two_coincident down_ray default_hitinfo 0))
          (get 0%Z (treeIds two_coincident) (u32_add 0 1)))).
Proof.
  apply C3_tie_rules.
  - apply (down_ray_inside two_coincident 1); reflexivity.
  - simpl. lra.
  - exact (proj1 (proj2 (down_ray_values two_coincident 1 eq_refl eq_refl))).
Defined.

End TieClaims.

(** ** Termination of the BSP traversal *)

Section Termination.

Import W08 TravSpec.

Lemma set_nth_length {A : Type} (a : list A) (n : nat) (v : A) :
  List.length (set_nth a n v) = List.length a.
Proof.
  revert n. induction a as [|hd tl IH]; intros [|n]; simpl; auto.
Qed.

Lemma nth_set_nth_same {A : Type} (a : list A) (n : nat) (v d : A) :
  (n < List.length a)%nat -> nth n (set_nth a n v) d = v.
Proof.
  revert n. induction a as [|hd tl IH]; intros [|n] H; simpl in *; try lia; auto.
  apply IH. lia.
Qed.

Lemma nth_set_nth_other {A : Type} (a : list A) (n k : nat) (v d : A) :
  k <> n -> nth k (set_nth a n v) d = nth k a d.
Proof.
  revert n k. induction a as [|hd tl IH]; intros [|n] [|k] H; simpl; auto; try lia.
Qed.

Lemma level_cost_step (i : Z) :
  (0 <= i <= 20)%Z -> level_cost i = (1 + 2 * level_cost (i + 1))%Z.
Proof.
  intros H. unfold level_cost.
  replace (21 - i)%Z with (Z.succ (21 - (i + 1))) by lia.
  rewrite Z.pow_succ_r by lia. lia.
Qed.

Lemma level_cost_nonneg (i : Z) : (i <= 21)%Z -> (0 <= level_cost i)%Z.
Proof.
  intros H. unfold level_cost.
  assert (0 < 2 ^ (21 - i))%Z by (apply Z.pow_pos_nonneg; lia). lia.
Qed.

Lemma stack_ok_weaken (bn : list (Z * Z)) (lvl : nat) (i i' : Z) :
  stack_ok bn lvl i -> (i <= i')%Z -> stack_ok bn lvl i'.
Proof. destruct lvl; simpl; intros; intuition lia. Qed.

Lemma stack_ok_height (bn : list (Z * Z)) (lvl : nat) (i : Z) :
  stack_ok bn lvl i -> (Z.of_nat lvl <= i)%Z.
Proof.
  revert i. induction lvl as [|k IH]; simpl; intros i H; [lia|].
  destruct H as [Hlt Hok]. apply IH in Hok. lia.
Qed.

Lemma stack_ok_set (bn : list (Z * Z)) (lvl n : nat) (i : Z) (v : Z * Z) :
  (lvl <= n)%nat -> stack_ok bn lvl i -> stack_ok (set_nth bn n v) lvl i.
Proof.
  revert i. induction lvl as [|k IH]; simpl; intros i Hn H; [exact H|].
  rewrite nth_set_nth_other by lia. destruct H as [Hlt Hok].
  split; [exact Hlt | apply IH; [lia | exact Hok]].
Qed.

Lemma stack_cost_set (bn : list (Z * Z)) (lvl n : nat) (v : Z * Z) :
  (lvl <= n)%nat -> stack_cost (set_nth bn n v) lvl = stack_cost bn lvl.
Proof.
  induction lvl as [|k IH]; simpl; intros Hn; [reflexivity|].
  rewrite nth_set_nth_other by lia. rewrite IH by lia. reflexivity.
Qed.

Lemma stack_cost_nonneg (bn : list (Z * Z)) (lvl : nat) (i : Z) :
  stack_ok bn lvl i -> (i <= 21)%Z -> (0 <= stack_cost bn lvl)%Z.
Proof.
  revert i. induction lvl as [|k IH]; simpl; intros i H Hi; [lia|].
  destruct H as [Hlt Hok].
  pose proof (IH _ Hok ltac:(lia)).
  pose proof (level_cost_nonneg (fst (nth k bn (0%Z, 0%Z)) + 1) ltac:(lia)). lia.
Qed.

Variable sc : Scene.

(** One iteration from a state that satisfies the invariant either returns
    or moves to a state that satisfies it with a smaller measure. *)
Lemma trimesh_loop_terminates (fuel : nat) :
  forall st : Trav,
    trav_inv st -> (measure st <= Z.of_nat fuel)%Z ->
    exists res, trimesh_loop sc fuel st = Some res.
Proof.
  induction fuel as [|fuel IH]; intros st Hinv Hm.
  - exfalso. unfold measure in Hm. destruct Hinv as (Hi & Hl & _ & _ & Hok).
    destruct (Z.leb_spec (t_i st) 20); [|lia].
    pose proof (level_cost_nonneg (t_i st) ltac:(lia)).
    pose proof (stack_cost_nonneg _ _ _ (Hok ltac:(lia)) ltac:(lia)). lia.
  - destruct Hinv as (Hi & Hl & Hbn & Hbr & Hok).
    cbn [trimesh_loop]. unfold MAX_LEVEL.
    destruct (Z.leb_spec (t_i st) 20) as [Hi20|Hi20]; cbn [negb];
      [|eexists; reflexivity].
    specialize (Hok Hi20).
    pose proof (stack_ok_height _ _ _ Hok) as Hh.
    pose proof (stack_cost_nonneg _ _ _ Hok ltac:(lia)) as Hc.
    pose proof (level_cost_step (t_i st) ltac:(lia)) as Hstep.
    pose proof (level_cost_nonneg (t_i st + 1) ltac:(lia)) as Hnn.
    assert (Hm' : (level_cost (t_i st)
                   + stack_cost (t_branch_node st) (Z.to_nat (t_branch_lvl st)) + 1
                   <= Z.of_nat (S fuel))%Z).
    { unfold measure in Hm. destruct (Z.leb_spec (t_i st) 20); [exact Hm | lia]. }
    assert (Hi1 : u32_add (t_i st) 1 = (t_i st + 1)%Z)
      by (unfold u32_add; apply wrap32_small; lia).
    destruct (Z.land (ux (get default_face (bspTree sc) (t_node st))) 3 =? BSP_LEAF)%Z.
    + (* a leaf *)
      destruct (leaf_loop sc _ _ (t_r st) (t_hit st)) as [[found r'] hit'].
      destruct found; [eexists; reflexivity|].
      destruct (Z.eqb_spec (t_branch_lvl st) 0) as [Hz|Hz]; [eexists; reflexivity|].
      assert (Hl1 : u32_sub (t_branch_lvl st) 1 = (t_branch_lvl st - 1)%Z)
        by (unfold u32_sub; apply wrap32_small; lia).
      rewrite Hl1.
      remember (Z.to_nat (t_branch_lvl st - 1)) as k eqn:Hk.
      assert (Hlvl : Z.to_nat (t_branch_lvl st) = S k) by lia.
      rewrite Hlvl in Hok, Hc, Hm'. simpl in Hok, Hm'.
      destruct Hok as [Hlt Hok'].
      pose proof (stack_ok_height _ _ _ Hok') as Hh'.
      unfold get. rewrite <- Hk.
      set (l := fst (nth k (t_branch_node st) (0%Z, 0%Z))) in *.
      assert (Hl' : u32_add l 1 = (l + 1)%Z)
        by (unfold u32_add; apply wrap32_small; lia).
      rewrite Hl'.
      apply IH.
      * unfold trav_inv; cbn [t_i t_branch_lvl t_branch_node t_branch_ray].
        rewrite <- Hk. repeat split; try lia; try assumption.
        intros _. apply stack_ok_weaken with l; [exact Hok' | lia].
      * unfold measure; cbn [t_i t_branch_lvl t_branch_node].
        rewrite <- Hk.
        destruct (Z.leb_spec (l + 1) 20); [|lia].
        pose proof (level_cost_nonneg (t_i st) ltac:(lia)).
        assert (1 <= level_cost (t_i st))%Z by lia. lia.
    + (* an internal node *)
      rewrite Hi1.
      assert (Hdesc : forall node r,
        exists res, trimesh_loop sc fuel
          (mkTrav (t_i st + 1) node (t_branch_lvl st) (t_branch_node st)
             (t_branch_ray st) r (t_hit st)) = Some res).
      { intros node r. apply IH.
        - unfold trav_inv; cbn [t_i t_branch_lvl t_branch_node t_branch_ray].
          repeat split; try lia; try assumption.
          intros _. apply stack_ok_weaken with (t_i st); [exact Hok | lia].
        - unfold measure; cbn [t_i t_branch_lvl t_branch_node].
          destruct (Z.leb_spec (t_i st + 1) 20); lia. }
      destruct (fge _ (tmax (t_r st))); [apply Hdesc|].
      destruct (fle _ (tmin (t_r st))); [apply Hdesc|].
      assert (Hl1 : u32_add (t_branch_lvl st) 1 = (t_branch_lvl st + 1)%Z)
        by (unfold u32_add; apply wrap32_small; lia).
      rewrite Hl1. apply IH.
      * unfold trav_inv; cbn [t_i t_branch_lvl t_branch_node t_branch_ray].
        unfold set. rewrite !set_nth_length.
        repeat split; try lia; try assumption.
        intros Hle.
        replace (Z.to_nat (t_branch_lvl st + 1)) with (S (Z.to_nat (t_branch_lvl st)))
          by lia.
        simpl. rewrite nth_set_nth_same by lia. simpl.
        split; [lia|]. apply stack_ok_set; [lia | exact Hok].
      * unfold measure; cbn [t_i t_branch_lvl t_branch_node].
        destruct (Z.leb_spec (t_i st + 1) 20) as [Hle|Hle]; [|lia].
        replace (Z.to_nat (t_branch_lvl st + 1)) with (S (Z.to_nat (t_branch_lvl st)))
          by lia.
        unfold set. simpl. rewrite nth_set_nth_same by lia. simpl.
        rewrite stack_cost_set by lia. lia.
Qed.

End Termination.

Section TerminationCorollaries.

Import W08 TravSpec.

Variable sc : Scene.

Lemma full_fuel_value : Z.of_nat full_fuel = 2097152%Z.
Proof. unfold full_fuel. apply Z2Nat.id. lia. Qed.

Lemma intersect_trimesh_terminates (fuel : nat) (r : Ray) (hit : HitInfo) :
  (full_fuel <= fuel)%nat ->
  exists res, intersect_trimesh sc fuel r hit = Some res.
Proof.
  intros Hf. unfold intersect_trimesh. apply trimesh_loop_terminates.
  - unfold trav_inv, branch_node0, branch_ray0; cbn [t_i t_branch_lvl t_branch_node t_branch_ray].
    rewrite !repeat_length. repeat split; try lia; try reflexivity.
    intros _. simpl. lia.
  - unfold measure; cbn [t_i t_branch_lvl t_branch_node].
    change (0 <=? 20)%Z with true. cbv iota.
    change (Z.to_nat 0) with O. cbn [stack_cost].
    change (level_cost 0) with 2097151%Z.
    pose proof full_fuel_value as Hv. lia.
Qed.

Lemma intersect_scene_terminates (fuel : nat) (r : Ray) (hit : HitInfo) :
  (full_fuel <= fuel)%nat ->
  exists b r' hit', intersect_scene sc fuel r hit = Some (b, r', hit').
Proof.
  intros Hf. unfold intersect_scene.
  destruct (intersect_min_max sc r) as [ok r0].
  destruct ok; cbn [negb]; [|eexists; eexists; eexists; reflexivity].
  destruct (intersect_sphere r0 hit _ _) as [b1 h1].
  destruct (if b1 then _ else _) as [r1 h1'].
  destruct (intersect_sphere r1 h1' _ _) as [b2 h2].
  destruct (if b2 then _ else _) as [r2 h2'].
  destruct (intersect_trimesh_terminates fuel r2 h2' Hf) as [[[b3 r3] h3] E].
  rewrite E. cbn [obind].
  destruct (if b3 then _ else _) as [r4 h4].
  eexists; eexists; eexists; reflexivity.
Qed.

End TerminationCorollaries.

(** ** The Lambertian BSDF and next-event estimation *)

Section Lambertian.

Import W08 BsdfSpec TravSpec.

Variable sc : Scene.

Lemma sample_area_light_unfold (pos : vec3) (t : Z) :
  (0 < numLights sc)%Z ->
  sample_area_light sc pos t
  = (mkLight
       (vscale
          (vscale
             (vscale (light_emission sc t)
                (Rmax (dot (vneg (normalize (vsub (light_pos sc t) pos)))
                           (light_normal sc t)) 0))
             (light_area sc t))
          (f32_of_u32 (numLights sc)))
       (normalize (vsub (light_pos sc t) pos))
       (length (vsub (light_pos sc t) pos)),
     snd (Rng.rnd (snd (Rng.rnd (snd (Rng.rnd t)))))).
Proof.
  intros Hn. unfold sample_area_light.
  destruct (Z.eqb_spec (numLights sc) 0) as [E|E]; [lia|]. reflexivity.
Qed.

Lemma sample_area_light_none (pos : vec3) (t : Z) :
  numLights sc = 0%Z ->
  sample_area_light sc pos t = (mkLight vzero vzero 0, t).
Proof. intros Hn. unfold sample_area_light. rewrite Hn. reflexivity. Qed.

(** The slot is the integer part of [xi * numLights]: an index into
    [lightIndices] for a sample below 1, and [numLights], one past the
    last entry, for the sample 1. *)
Lemma light_slot_floor (xi : R) :
  (0 < numLights sc <= 16777216)%Z -> 0 <= xi <= 1 ->
  light_slot sc xi = Int_part (xi * IZR (numLights sc))
  /\ (0 <= light_slot sc xi <= numLights sc)%Z
  /\ (xi < 1 -> (light_slot sc xi < numLights sc)%Z)
  /\ (xi = 1 -> light_slot sc xi = numLights sc).
Proof.
  intros Hn Hxi. unfold light_slot, u32_of_f32.
  rewrite f32_of_u32_small by lia.
  set (n := numLights sc) in *.
  assert (Hn0 : 0 < IZR n) by (apply IZR_lt; lia).
  destruct (base_Int_part (xi * IZR n)) as [Hlo Hhi].
  set (k := Int_part (xi * IZR n)) in *.
  assert (Hk0 : (0 <= k)%Z).
  { apply Z.lt_succ_r. apply lt_IZR. rewrite succ_IZR.
    assert (0 <= xi * IZR n) by (apply Rmult_le_pos; lra). lra. }
  assert (Hk1 : (k <= n)%Z).
  { apply le_IZR. assert (xi * IZR n <= IZR n) by nra. lra. }
  split; [lia|]. split; [lia|]. split.
  - intros Hlt. assert (Hk2 : (k < n)%Z).
    { apply lt_IZR. assert (xi * IZR n < IZR n) by nra. lra. }
    lia.
  - intros E. assert (Hk2 : (n - 1 < k)%Z).
    { apply lt_IZR. rewrite minus_IZR. rewrite E in Hhi. lra. }
    lia.
Qed.

Lemma light_slot_uniform (xi : R) (k : Z) :
  (0 < numLights sc <= 16777216)%Z -> 0 <= xi <= 1 ->
  light_slot sc xi = k
  <-> IZR k / IZR (numLights sc) <= xi < (IZR k + 1) / IZR (numLights sc).
Proof.
  intros Hn Hxi. destruct (light_slot_floor xi Hn Hxi) as [E _]. rewrite E.
  set (n := numLights sc) in *.
  assert (Hn0 : 0 < IZR n) by (apply IZR_lt; lia).
  destruct (base_Int_part (xi * IZR n)) as [Hlo Hhi].
  split.
  - intros <-. split.
    + apply Rmult_le_reg_r with (IZR n); [exact Hn0|].
      unfold Rdiv. rewrite Rmult_assoc, Rinv_l by lra. lra.
    + apply Rmult_lt_reg_r with (IZR n); [exact Hn0|].
      unfold Rdiv. rewrite Rmult_assoc, Rinv_l by lra. lra.
  - intros [H1 H2]. symmetry. apply Int_part_spec.
    assert (IZR k <= xi * IZR n).
    { apply Rmult_le_compat_r with (r := IZR n) in H1; [|lra].
      unfold Rdiv in H1. rewrite Rmult_assoc, Rinv_l in H1 by lra. lra. }
    assert (xi * IZR n < IZR k + 1).
    { apply Rmult_lt_compat_r with (r := IZR n) in H2; [|lra].
      unfold Rdiv in H2. rewrite Rmult_assoc, Rinv_l in H2 by lra. lra. }
    lra.
Qed.

(** The sampled point is a convex combination of the triangle's
    vertices. *)
Lemma light_weights (t : Z) :
  0 <= light_alpha t /\ 0 <= light_beta t /\ 0 <= light_gamma t
  /\ light_alpha t + light_beta t + light_gamma t = 1.
Proof.
  unfold light_alpha, light_beta, light_gamma.
  pose proof (rnd_range (snd (Rng.rnd t))) as H1.
  pose proof (rnd_range (snd (Rng.rnd (snd (Rng.rnd t))))) as H2.
  fold (light_r1 t) in H1. fold (light_r2 t) in H2.
  pose proof (sqrt_pos (light_r1 t)) as Hs0.
  assert (Hs1 : sqrt (light_r1 t) <= 1).
  { rewrite <- sqrt_1. apply sqrt_le_1_alt. lra. }
  repeat split; nra.
Qed.

(** What [lambertian] returns, by the outcome of the shadow query and of
    the roulette. *)
Lemma lambertian_unfold (fuel : nat) (r : Ray) (hit : HitInfo) (t : Z) :
  let light := fst (sample_area_light sc (position hit) t) in
  let t1 := snd (sample_area_light sc (position hit) t) in
  let xi := fst (Rng.rnd t1) in
  lambertian sc fuel r hit t
  = '(occluded, _, _) <- intersect_scene sc fuel (shadow_ray hit light) default_hitinfo ;;
    let radiance :=
      vadd (if occluded then vzero else direct_term hit light) (emission hit) in
    if flt xi (Pd hit) then
      Some (radiance,
            with_tmax 1e6
              (with_tmin 1e-3
                 (with_direction
                    (fst (sample_cosine_weighted_direction (normal hit)
                            (snd (Rng.rnd t1))))
                    (with_origin (position hit) r))),
            with_has_hit false
              (with_emit false
                 (with_throughput (vdivs (tinted hit) (Pd hit))
                    (with_throughput (tinted hit) hit))),
            snd (sample_cosine_weighted_direction (normal hit) (snd (Rng.rnd t1))))
    else Some (radiance, r, with_throughput (tinted hit) hit, snd (Rng.rnd t1)).
Proof.
  cbv zeta. unfold lambertian.
  destruct (sample_area_light sc (position hit) t) as [light t1]. cbn [fst snd].
  destruct (intersect_scene sc fuel (shadow_ray hit light) default_hitinfo)
    as [[[occ r2] h2]|]; [|reflexivity].
  cbn [obind]. unfold select.
  destruct (Rng.rnd t1) as [xi t2]. cbn [fst snd].
  change ((vx (throughput (with_throughput (vmul (throughput hit) (diffuse hit)) hit))
           + vy (throughput (with_throughput (vmul (throughput hit) (diffuse hit)) hit))
           + vz (throughput (with_throughput (vmul (throughput hit) (diffuse hit)) hit)))
          / 3) with (Pd hit).
  destruct (flt xi (Pd hit)).
  - change (normal
              (with_throughput
                 (vdivs (throughput
                           (with_throughput (vmul (throughput hit) (diffuse hit)) hit))
                        (Pd hit))
                 (with_throughput (vmul (throughput hit) (diffuse hit)) hit)))
      with (normal hit).
    destruct (sample_cosine_weighted_direction (normal hit) t2) as [dir t3].
    destruct occ; reflexivity.
  - destruct occ; reflexivity.
Qed.

End Lambertian.

Section LambertianClaims.

Import W08 BsdfSpec TravSpec Scenes.

(** C6, a counterexample to "rnd(t) always lies in [0, 1)": from state
    2054635225 the generator moves to 2^31 - 1; [f32] rounds that state to
    2^31, and [rnd] returns 1. *)
Lemma C6_rnd_returns_one :
  Rng.mcg31 top_state = 2147483647%Z
  /\ fst (Rng.rnd top_state) = 1
  /\ ~ (0 <= fst (Rng.rnd top_state) < 1).
Proof.
  assert (E : Rng.mcg31 top_state = 2147483647%Z) by reflexivity.
  assert (E1 : fst (Rng.rnd top_state) = 1) by (apply rnd_one_iff; rewrite E; lia).
  split; [exact E|]. split; [exact E1|]. rewrite E1. lra.
Qed.

(** C6: the roulette sample lies in [0, 1]; with Pd <= 0 the comparison
    [rnd(t) < Pd] fails, so [lambertian] returns with the throughput only
    multiplied by the albedo, never divided, and with the ray and the hit
    flag as they were; the bounce loop of [main_fs] then stops at this
    bounce, having added the radiance [lambertian] returned; and whenever
    the continuation branch did run on a recorded hit, the sample was
    below Pd and Pd was positive. *)
Theorem C6_roulette_division_guarded (sc : Scene) (fuel : nat) (r : Ray)
  (hit : HitInfo) (t : Z) :
  Pd hit <= 0 -> (full_fuel <= fuel)%nat ->
  (forall s : Z, 0 <= fst (Rng.rnd s) <= 1)
  /\ (exists res,
        lambertian sc fuel r hit t = Some res
        /\ res_ray res = r
        /\ res_hit res = with_throughput (tinted hit) hit
        /\ has_hit (res_hit res) = has_hit hit
        /\ forall (n : nat) (res0 : vec3) (r0 : Ray) (hit0 : HitInfo),
             intersect_scene sc fuel r0 hit0 = Some (true, r, hit) ->
             shader hit = 1%Z ->
             bounces sc fuel (S n) res0 r0 hit0 t
             = Some (vadd res0 (vmul (throughput hit) (res_radiance res))))
  /\ (forall (r2 : Ray) (hit2 : HitInfo) (t2 : Z) res2,
        has_hit hit2 = true ->
        lambertian sc fuel r2 hit2 t2 = Some res2 ->
        has_hit (res_hit res2) = false ->
        0 < Pd hit2
        /\ fst (Rng.rnd (snd (sample_area_light sc (position hit2) t2))) < Pd hit2
        /\ throughput (res_hit res2) = vdivs (tinted hit2) (Pd hit2)).
Proof.
  intros HPd Hfuel. split; [exact rnd_range|]. split.
  - pose proof (lambertian_unfold sc fuel r hit t) as Hl. cbv zeta in Hl.
    destruct (intersect_scene_terminates sc fuel
                (shadow_ray hit (fst (sample_area_light sc (position hit) t)))
                default_hitinfo Hfuel) as (occ & r2 & h2 & E).
    rewrite E in Hl. cbn [obind] in Hl.
    pose proof (rnd_range (snd (sample_area_light sc (position hit) t))) as Hxi.
    rewrite flt_false in Hl by lra.
    eexists. split; [exact Hl|]. repeat split.
    intros n res0 r0 hit0 Hi Hsh.
    eapply (bounces_last sc fuel n res0 r0 r r hit0 hit _ t _ _ Hi).
    + unfold shade. rewrite Hsh. cbn [Z.eqb Pos.eqb]. rewrite Hl.
      unfold res_radiance. cbn [fst snd]. reflexivity.
    + cbn [has_hit with_throughput].
      exact (intersect_scene_flag sc fuel r0 r hit0 hit Hi).
  - intros r2 hit2 t2 res2 Hh. rewrite lambertian_unfold. cbv zeta.
    destruct (intersect_scene sc fuel _ default_hitinfo) as [[[occ r3] h3]|];
      cbn [obind]; [|discriminate].
    pose proof (rnd_range (snd (sample_area_light sc (position hit2) t2))) as Hxi.
    destruct (flt_spec (fst (Rng.rnd (snd (sample_area_light sc (position hit2) t2))))
                (Pd hit2)) as [Hlt|Hge];
      intros E; injection E as <-; unfold res_hit; cbn [fst snd].
    + intros _. repeat split; [lra | exact Hlt].
    + cbn [has_hit with_throughput]. rewrite Hh. discriminate.
Qed.

Lemma C6_roulette_division_guarded_witness :
  (forall s : Z, 0 <= fst (Rng.rnd s) <= 1)
  /\ (exists res,
        lambertian empty_scene full_fuel down_ray black_hit 0 = Some res
        /\ res_ray res = down_ray
        /\ res_hit res = with_throughput (tinted black_hit) black_hit
        /\ has_hit (res_hit res) = has_hit black_hit
        /\ forall (n : nat) (res0 : vec3) (r0 : Ray) (hit0 : HitInfo),
             intersect_scene empty_scene full_fuel r0 hit0
             = Some (true, down_ray, black_hit) ->
             shader black_hit = 1%Z ->
             bounces empty_scene full_fuel (S n) res0 r0 hit0 0
             = Some (vadd res0 (vmul (throughput black_hit) (res_radiance res)))).
Proof.
  split;
    apply (C6_roulette_division_guarded empty_scene full_fuel down_ray black_hit 0);
    try apply Nat.le_refl; unfold Pd, tinted; simpl; vsimpl; lra.
Defined.

(** With at least one light, next-event estimation at a diffuse hit reads
    [lightIndices] at the slot [u32(rnd * numLights)], every slot being
    selected by an interval of the same length 1/numLights of the sample;
    the point sampled on that triangle is a convex combination of its
    vertices; the emitted radiance is weighted by the cosine at the light,
    the triangle's area and numLights; the one shadow ray starts at the
    hit with [tmax] 1e-3 short of the sampled point; and the returned
    radiance is the emission plus the direct term
    (diffuse/Pi) * L_i * max(0, cos) exactly when the shadow query reports
    no hit, and the emission alone otherwise. *)
Lemma next_event_estimation (sc : Scene) (fuel : nat) (r : Ray)
  (hit : HitInfo) (t : Z) :
  (0 < numLights sc <= 16777216)%Z -> (full_fuel <= fuel)%nat ->
  let xi := fst (Rng.rnd t) in
  let light := fst (sample_area_light sc (position hit) t) in
  (0 <= light_slot sc xi <= numLights sc)%Z
  /\ (forall k : Z,
        light_slot sc xi = k
        <-> IZR k / IZR (numLights sc) <= xi < (IZR k + 1) / IZR (numLights sc))
  /\ (0 <= light_alpha t /\ 0 <= light_beta t /\ 0 <= light_gamma t
      /\ light_alpha t + light_beta t + light_gamma t = 1)
  /\ w_i light = normalize (vsub (light_pos sc t) (position hit))
  /\ dist light = length (vsub (light_pos sc t) (position hit))
  /\ L_i light
     = vscale
         (vscale
            (vscale (light_emission sc t)
               (Rmax (dot (vneg (w_i light)) (light_normal sc t)) 0))
            (light_area sc t))
         (IZR (numLights sc))
  /\ shadow_ray hit light = mkRay (position hit) (w_i light) 1e-3 (dist light - 1e-3)
  /\ exists occluded r' hit' res,
       intersect_scene sc fuel (shadow_ray hit light) default_hitinfo
       = Some (occluded, r', hit')
       /\ lambertian sc fuel r hit t = Some res
       /\ res_radiance res
          = vadd (if occluded then vzero
                  else vscale (vmul (vdivs (diffuse hit) Pi) (L_i light))
                              (Rmax (dot (normal hit) (w_i light)) 0))
                 (emission hit).
Proof.
  intros Hn Hfuel xi light.
  pose proof (rnd_range t) as Hxi. fold xi in Hxi.
  split; [apply light_slot_floor; assumption|].
  split; [intros k; apply light_slot_uniform; assumption|].
  split; [apply light_weights|].
  unfold light. rewrite sample_area_light_unfold by lia. cbn [fst w_i dist L_i].
  rewrite f32_of_u32_small by lia.
  split; [reflexivity|]. split; [reflexivity|]. split; [reflexivity|].
  split; [reflexivity|].
  rewrite lambertian_unfold. cbv zeta.
  rewrite sample_area_light_unfold by lia. cbn [fst snd].
  rewrite f32_of_u32_small by lia.
  match goal with
  | |- context [intersect_scene sc fuel ?sr default_hitinfo] =>
    destruct (intersect_scene_terminates sc fuel sr default_hitinfo Hfuel)
      as (occ & r2 & h2 & E)
  end.
  rewrite E. cbn [obind].
  exists occ, r2, h2.
  destruct (flt _ (Pd hit)); eexists; (split; [reflexivity|]);
    (split; [reflexivity|]); reflexivity.
Qed.

(** When [rnd] returns 1 the slot is [numLights], one past the last entry
    of [lightIndices]. *)
Lemma light_slot_past_end (sc : Scene) :
  (0 < numLights sc <= 16777216)%Z ->
  light_slot sc (fst (Rng.rnd top_state)) = numLights sc.
Proof.
  intros Hn. assert (E : fst (Rng.rnd top_state) = 1)
    by (apply rnd_one_iff; replace (Rng.mcg31 top_state) with 2147483647%Z by reflexivity; lia).
  apply light_slot_floor; [exact Hn | rewrite E; lra | exact E].
Qed.

(** The radiance [sample_area_light] reports is the single-sample
    estimate multiplied by the squared distance to the sampled point: the
    inverse-square factor is not applied. *)
Lemma light_estimate_scaled (sc : Scene) (pos : vec3) (t : Z) :
  (0 < numLights sc <= 16777216)%Z ->
  let light := fst (sample_area_light sc pos t) in
  dist light <> 0 ->
  L_i light = vscale (unbiased_L_i sc pos t) (dist light * dist light).
Proof.
  intros Hn. cbv zeta. rewrite sample_area_light_unfold by lia.
  cbn [fst dist L_i]. rewrite f32_of_u32_small by lia. intros Hd.
  unfold unbiased_L_i. cbv zeta.
  set (d := length (vsub (light_pos sc t) pos)) in *.
  generalize (vscale
       (vscale
          (vscale (light_emission sc t)
             (Rmax (dot (vneg (normalize (vsub (light_pos sc t) pos)))
                        (light_normal sc t)) 0))
          (light_area sc t)) (IZR (numLights sc))).
  intros [x y z]. apply vec3_eq; simpl; field; exact Hd.
Qed.

Lemma lamp_light_index (t : Z) :
  light_index lamp_scene t = 0%Z \/ light_index lamp_scene t = 1%Z.
Proof.
  unfold light_index, get. cbn [lightIndices lamp_scene].
  destruct (Z.to_nat _) as [|[|[|n]]]; cbn [nth]; auto.
Qed.

(** Whichever triangle of the lamp is sampled: the point lies at height 2,
    the normal points down, the area is 1/2 and the emission is 1. *)
Lemma lamp_sample (t : Z) :
  (exists x y : R, light_pos lamp_scene t = V3 x y 2)
  /\ light_normal lamp_scene t = V3 0 0 (-1)
  /\ light_area lamp_scene t = 1 / 2
  /\ light_emission lamp_scene t = splat 1.
Proof.
  destruct (light_weights t) as (_ & _ & _ & Hsum).
  assert (Hn : forall a b c : R, a + b + c = 1 ->
             normalize (vadd (vadd (vscale (V3 0 0 (-1)) a) (vscale (V3 0 0 (-1)) b))
                             (vscale (V3 0 0 (-1)) c)) = V3 0 0 (-1)).
  { intros a b c H.
    replace (vadd (vadd (vscale (V3 0 0 (-1)) a) (vscale (V3 0 0 (-1)) b))
                  (vscale (V3 0 0 (-1)) c)) with (V3 0 0 (-1))
      by (apply vec3_eq; vsimpl; lra).
    unfold normalize, length.
    replace (dot (V3 0 0 (-1)) (V3 0 0 (-1))) with 1 by (vsimpl; lra).
    rewrite sqrt_1. apply vec3_eq; vsimpl; lra. }
  unfold light_pos, light_normal, light_area, light_emission,
    light_v0, light_v1, light_v2.
  destruct (lamp_light_index t) as [E|E]; rewrite E;
    cbv [lamp_scene meshFaces_at vInfo_at materials_at get meshFaces vInfo
         materials nth Z.to_nat Pos.to_nat Pos.iter_op Nat.add lamp_vertices
         ux uy uz uw v_position v_normal mat_emission rgb glowing];
    (split; [eexists; eexists; apply vec3_eq; cbn [vx vy vz]; vsimpl;
             [reflexivity | reflexivity | lra]|]);
    (split; [apply Hn; exact Hsum|]);
    (split; [|reflexivity]);
    unfold length;
    match goal with
    | |- sqrt ?e * _ = _ => replace e with 1 by (vsimpl; lra)
    end; rewrite sqrt_1; lra.
Qed.

(** C7, the code at a hit one lamp's height below the lamp: whatever the
    seed, the sampled point is at distance at least 2, the estimate with
    the inverse-square factor is positive, and the radiance
    [sample_area_light] reports is that estimate multiplied by the squared
    distance, so at least four times as large. *)
Theorem C7_light_estimate_lacks_falloff (t : Z) :
  let light := fst (sample_area_light lamp_scene vzero t) in
  2 <= dist light
  /\ 0 < vx (unbiased_L_i lamp_scene vzero t)
  /\ L_i light = vscale (unbiased_L_i lamp_scene vzero t) (dist light * dist light)
  /\ 4 * vx (unbiased_L_i lamp_scene vzero t) <= vx (L_i light)
  /\ L_i light <> unbiased_L_i lamp_scene vzero t.
Proof.
  cbv zeta.
  assert (Hn : (0 < numLights lamp_scene <= 16777216)%Z)
    by (unfold numLights; simpl; lia).
  pose proof (light_estimate_scaled lamp_scene vzero t Hn) as Hs. cbv zeta in Hs.
  destruct (lamp_sample t) as ((x & y & Ep) & En & Ea & Ee).
  assert (Ed : dist (fst (sample_area_light lamp_scene vzero t))
               = sqrt (x * x + y * y + 4)).
  { rewrite sample_area_light_unfold by lia. cbn [fst dist].
    rewrite Ep. unfold length. f_equal. vsimpl. ring. }
  assert (Hd : 2 <= sqrt (x * x + y * y + 4)).
  { replace 2 with (sqrt (2 * 2)) at 1 by (apply sqrt_square; lra).
    apply sqrt_le_1_alt. nra. }
  assert (Hu : vx (unbiased_L_i lamp_scene vzero t)
               = 2 / (sqrt (x * x + y * y + 4) * sqrt (x * x + y * y + 4)
                      * sqrt (x * x + y * y + 4))).
  { unfold unbiased_L_i. cbv zeta. rewrite Ep, En, Ea, Ee.
    replace (length (vsub (V3 x y 2) vzero)) with (sqrt (x * x + y * y + 4))
      by (unfold length; f_equal; vsimpl; ring).
    unfold normalize.
    replace (length (vsub (V3 x y 2) vzero)) with (sqrt (x * x + y * y + 4))
      by (unfold length; f_equal; vsimpl; ring).
    set (d := sqrt (x * x + y * y + 4)) in *.
    replace (dot (vneg (vdivs (vsub (V3 x y 2) vzero) d)) (V3 0 0 (-1)))
      with (2 / d) by (vsimpl; field; lra).
    rewrite Rmax_left by (apply Rlt_le, Rdiv_lt_0_compat; lra).
    replace (IZR (numLights lamp_scene)) with 2 by reflexivity.
    vsimpl. field. lra. }
  rewrite Ed in *. set (d := sqrt (x * x + y * y + 4)) in *.
  assert (Hpos : 0 < vx (unbiased_L_i lamp_scene vzero t)).
  { rewrite Hu. apply Rdiv_lt_0_compat; [lra|].
    repeat apply Rmult_lt_0_compat; lra. }
  assert (Hs' := Hs ltac:(lra)).
  split; [exact Hd|]. split; [exact Hpos|]. split; [exact Hs'|].
  assert (Hx : vx (L_i (fst (sample_area_light lamp_scene vzero t)))
               = vx (unbiased_L_i lamp_scene vzero t) * (d * d)).
  { rewrite Hs'. destruct (unbiased_L_i lamp_scene vzero t). reflexivity. }
  assert (Hdd : 4 <= d * d) by nra.
  assert (Hm : 0 <= vx (unbiased_L_i lamp_scene vzero t) * (d * d - 4))
    by (apply Rmult_le_pos; lra).
  split.
  - rewrite Hx. lra.
  - intros E. rewrite E in Hx. lra.
Qed.

End LambertianClaims.

(** ** The thin-lens camera *)

Section ThinLensClaims.

Import W08 ThinLens.

Lemma dot_self_nonneg (a : vec3) : 0 <= dot a a.
Proof. unfold dot. nra. Qed.

Lemma dot_self_zero (a : vec3) : dot a a = 0 -> a = vzero.
Proof.
  destruct a as [x y z]. unfold dot. simpl. intros H.
  assert (x = 0) by nra. assert (y = 0) by nra. assert (z = 0) by nra.
  subst. reflexivity.
Qed.

Lemma length_pos (a : vec3) : a <> vzero -> 0 < length a.
Proof.
  intros H. unfold length. apply sqrt_lt_R0.
  destruct (dot_self_nonneg a) as [Hlt|Heq]; [exact Hlt|].
  exfalso. apply H. apply dot_self_zero. symmetry. exact Heq.
Qed.

(** Walking the length of [a] along its normalisation reaches [a]. *)
Lemma normalize_scale (a : vec3) : a <> vzero -> vscale (normalize a) (length a) = a.
Proof.
  intros H. pose proof (length_pos a H) as HL.
  destruct a as [x y z]. unfold normalize, vdivs, vscale.
  set (L := length _) in *. simpl.
  apply vec3_eq; simpl; field; lra.
Qed.

Lemma concentric_disk_unit (u1 u2 : R) :
  0 <= u1 <= 1 -> 0 <= u2 <= 1 ->
  fst (concentric_disk u1 u2) * fst (concentric_disk u1 u2)
  + snd (concentric_disk u1 u2) * snd (concentric_disk u1 u2) <= 1.
Proof.
  intros H1 H2. unfold concentric_disk. cbv zeta.
  destruct (flt _ _); [|destruct (flt _ _)]; cbn [fst snd].
  - set (phi := PI / 4 * _). pose proof (sin2_cos2 phi) as Hsc. unfold Rsqr in Hsc.
    replace ((2 * u1 - 1) * cos phi * ((2 * u1 - 1) * cos phi)
             + (2 * u1 - 1) * sin phi * ((2 * u1 - 1) * sin phi))
      with ((2 * u1 - 1) * (2 * u1 - 1) * (sin phi * sin phi + cos phi * cos phi))
      by ring.
    rewrite Hsc. nra.
  - set (phi := PI / 2 - _). pose proof (sin2_cos2 phi) as Hsc. unfold Rsqr in Hsc.
    replace ((2 * u2 - 1) * cos phi * ((2 * u2 - 1) * cos phi)
             + (2 * u2 - 1) * sin phi * ((2 * u2 - 1) * sin phi))
      with ((2 * u2 - 1) * (2 * u2 - 1) * (sin phi * sin phi + cos phi * cos phi))
      by ring.
    rewrite Hsc. nra.
  - lra.
Qed.

(** The concentric map takes the square of side [m] around the centre of
    the unit square to the circle of radius [m]. *)
Lemma concentric_disk_radius (u1 u2 : R) :
  let m := Rmax (Rabs (2 * u1 - 1)) (Rabs (2 * u2 - 1)) in
  fst (concentric_disk u1 u2) * fst (concentric_disk u1 u2)
  + snd (concentric_disk u1 u2) * snd (concentric_disk u1 u2) = m * m.
Proof.
  cbv zeta. unfold concentric_disk. cbv zeta.
  set (a := 2 * u1 - 1). set (b := 2 * u2 - 1).
  assert (Hsq : forall x : R, Rabs x * Rabs x = x * x).
  { intros x. rewrite <- Rabs_mult. apply Rabs_pos_eq. nra. }
  assert (Hcirc : forall (x phi : R),
            x * cos phi * (x * cos phi) + x * sin phi * (x * sin phi) = x * x).
  { intros x phi. pose proof (sin2_cos2 phi) as Hsc. unfold Rsqr in Hsc. nsatz. }
  destruct (flt_spec (Rabs b) (Rabs a)) as [H|H]; cbn [fst snd].
  - rewrite Hcirc, Rmax_left, Hsq by lra. reflexivity.
  - destruct (flt_spec 0 (Rabs b)) as [H0|H0]; cbn [fst snd].
    + rewrite Hcirc, Rmax_right, Hsq by lra. reflexivity.
    + pose proof (Rabs_pos a). pose proof (Rabs_pos b).
      rewrite Rmax_right by lra. replace (Rabs b) with 0 by lra. ring.
Qed.

Lemma lens_offset_in_disk (aperture : R) (t : Z) :
  let '(lx, ly, _) := lens_offset aperture t in
  lx * lx + ly * ly <= (aperture / 2) * (aperture / 2).
Proof.
  unfold lens_offset.
  pose proof (rnd_range t) as H1.
  pose proof (rnd_range (snd (Rng.rnd t))) as H2.
  destruct (Rng.rnd t) as [u1 t1]. cbn [fst snd] in *.
  destruct (Rng.rnd t1) as [u2 t2]. cbn [fst snd] in *.
  pose proof (concentric_disk_unit u1 u2 H1 H2) as Hd.
  destruct (concentric_disk u1 u2) as [dx dy]. cbn [fst snd] in Hd.
  assert (0 <= aperture / 2 * (aperture / 2)) by nra.
  nra.
Qed.

(** The lens point uses the next two draws of the generator. *)
Lemma lens_offset_draws (aperture : R) (t : Z) :
  let u1 := fst (Rng.rnd t) in
  let u2 := fst (Rng.rnd (snd (Rng.rnd t))) in
  let m := Rmax (Rabs (2 * u1 - 1)) (Rabs (2 * u2 - 1)) in
  let '(lx, ly, t') := lens_offset aperture t in
  lx * lx + ly * ly = (aperture / 2 * m) * (aperture / 2 * m)
  /\ t' = snd (Rng.rnd (snd (Rng.rnd t))).
Proof.
  cbv zeta. unfold lens_offset.
  destruct (Rng.rnd t) as [u1 t1]. cbn [fst snd].
  destruct (Rng.rnd t1) as [u2 t2]. cbn [fst snd].
  pose proof (concentric_disk_radius u1 u2) as Hr. cbv zeta in Hr.
  destruct (concentric_disk u1 u2) as [dx dy]. cbn [fst snd] in Hr.
  split; [|reflexivity]. nsatz.
Qed.

(** In an orthonormal frame the unnormalised pinhole direction
    [x b1 + y b2 + c v] has squared length x^2 + y^2 + c^2 and the
    component [c] along the view direction. *)
Lemma pinhole_direction (u : Uniforms) (x y c : R) :
  orthonormal u ->
  let q := vadd (vadd (vscale (b1 u) x) (vscale (b2 u) y)) (vscale (v u) c) in
  dot q q = x * x + y * y + c * c /\ dot q (v u) = c
  /\ dot q (b1 u) = x /\ dot q (b2 u) = y.
Proof.
  intros (H1 & H2 & H3 & H4 & H5 & H6). cbv zeta.
  destruct (b1 u) as [a1 a2 a3], (b2 u) as [c1 c2 c3], (v u) as [w1 w2 w3].
  revert H1 H2 H3 H4 H5 H6. vsimpl. intros H1 H2 H3 H4 H5 H6.
  repeat split; nsatz.
Qed.

(** The focus point in the camera frame: [focalDistance] along the view
    direction, and off the axis by the pixel's image-plane coordinates
    scaled by focalDistance / camera_constant. *)
Lemma focus_point_frame (u : Uniforms) (focalDistance ipx ipy : R) :
  orthonormal u -> 0 < camera_constant u ->
  focus_point u focalDistance ipx ipy
  = vadd (eye_point u)
      (vscale (vadd (vadd (vscale (b1 u) ipx) (vscale (b2 u) ipy))
                    (vscale (v u) (camera_constant u)))
              (focalDistance / camera_constant u)).
Proof.
  intros Ho Hc.
  destruct (pinhole_direction u ipx ipy (camera_constant u) Ho) as (Hqq & Hqv & _).
  cbv zeta in Hqq, Hqv.
  unfold focus_point, get_camera_ray. cbv zeta. cbn [origin direction].
  set (q := vadd (vadd (vscale (b1 u) ipx) (vscale (b2 u) ipy))
                 (vscale (v u) (camera_constant u))) in *.
  assert (Hpos : 0 < dot q q) by (rewrite Hqq; nra).
  pose proof (sqrt_lt_R0 _ Hpos) as Hs.
  assert (Hdv : dot (normalize q) (v u) = camera_constant u / sqrt (dot q q)).
  { rewrite <- Hqv. unfold normalize, length.
    set (l := sqrt (dot q q)) in *. clearbody l.
    destruct q as [q1 q2 q3], (v u) as [w1 w2 w3]. vsimpl. field. lra. }
  rewrite Hdv. unfold normalize, length.
  set (l := sqrt (dot q q)) in *. clearbody l.
  f_equal. destruct q as [q1 q2 q3]. apply vec3_eq; vsimpl; field; lra.
Qed.

(** C9: in an orthonormal camera frame with a positive camera constant,
    the thin-lens ray starts at a lens point eye + x b1 + y b2 with (x, y)
    in the disk of radius aperture/2, a point of the plane through the eye
    at right angles to the view direction; it is found from two draws of
    the generator, at the distance from the eye that the concentric map
    gives them, aperture/2 times max(|2 u1 - 1|, |2 u2 - 1|); the focus
    point lies on the
    pinhole ray through the pixel and on the focal plane, at
    focalDistance along the view direction and off the axis by the
    pixel's coordinates scaled by focalDistance / camera_constant; the
    returned direction points from the lens point to the focus point, so
    the ray passes through the focus point, whatever lens point was
    sampled; and with aperture 0 and a positive focalDistance the ray is
    the pinhole ray. *)
Theorem C9_thin_lens_ray (u : Uniforms) (aperture focalDistance ipx ipy : R) (t : Z) :
  orthonormal u -> 0 < camera_constant u ->
  let ray := fst (thin_lens_ray u aperture focalDistance ipx ipy t) in
  let pin := get_camera_ray u ipx ipy in
  let focus := focus_point u focalDistance ipx ipy in
  (exists x y : R,
     x * x + y * y <= (aperture / 2) * (aperture / 2)
     /\ x * x + y * y
        = (aperture / 2 * Rmax (Rabs (2 * fst (Rng.rnd t) - 1))
                               (Rabs (2 * fst (Rng.rnd (snd (Rng.rnd t))) - 1)))
          * (aperture / 2 * Rmax (Rabs (2 * fst (Rng.rnd t) - 1))
                                 (Rabs (2 * fst (Rng.rnd (snd (Rng.rnd t))) - 1)))
     /\ origin ray
        = vadd (vadd (eye_point u) (vscale (b1 u) x)) (vscale (b2 u) y))
  /\ snd (thin_lens_ray u aperture focalDistance ipx ipy t)
     = snd (Rng.rnd (snd (Rng.rnd t)))
  /\ dot (vsub (origin ray) (eye_point u)) (v u) = 0
  /\ (exists s : R,
        focus = vadd (origin pin) (vscale (direction pin) s)
        /\ (0 < focalDistance -> 0 < s))
  /\ on_focal_plane u focalDistance focus
  /\ dot (vsub focus (eye_point u)) (b1 u) = ipx * (focalDistance / camera_constant u)
  /\ dot (vsub focus (eye_point u)) (b2 u) = ipy * (focalDistance / camera_constant u)
  /\ direction ray = normalize (vsub focus (origin ray))
  /\ (vsub focus (origin ray) <> vzero ->
      vadd (origin ray)
           (vscale (direction ray) (length (vsub focus (origin ray)))) = focus)
  /\ (aperture = 0 -> 0 < focalDistance ->
      origin ray = origin pin /\ direction ray = direction pin).
Proof.
  intros Ho Hc. cbv zeta.
  pose proof (focus_point_frame u focalDistance ipx ipy Ho Hc) as Hf.
  destruct (pinhole_direction u ipx ipy (camera_constant u) Ho)
    as (Hqq & Hqv & Hq1 & Hq2).
  cbv zeta in Hqq, Hqv, Hq1, Hq2.
  set (q := vadd (vadd (vscale (b1 u) ipx) (vscale (b2 u) ipy))
                 (vscale (v u) (camera_constant u))) in *.
  assert (Hpos : 0 < dot q q) by (rewrite Hqq; nra).
  pose proof (sqrt_lt_R0 _ Hpos) as Hs.
  assert (Hsub : forall k : R,
            vsub (vadd (eye_point u) (vscale q k)) (eye_point u) = vscale q k).
  { intros k. destruct (eye_point u), q. apply vec3_eq; vsimpl; ring. }
  assert (Hdotk : forall (k : R) (w : vec3), dot (vscale q k) w = dot q w * k).
  { intros k w. destruct q, w. vsimpl. ring. }
  unfold thin_lens_ray.
  pose proof (lens_offset_in_disk aperture t) as Hdisk.
  pose proof (lens_offset_draws aperture t) as Hdraw. cbv zeta in Hdraw.
  destruct (lens_offset aperture t) as [[lx ly] t'] eqn:El.
  destruct Hdraw as [Hrad Hseed].
  cbn [fst snd origin direction].
  split; [exists lx, ly; split; [exact Hdisk | split; [exact Hrad | reflexivity]]|].
  split; [exact Hseed|].
  split.
  { destruct Ho as (_ & _ & _ & _ & H5 & H6).
    destruct (eye_point u) as [e1 e2 e3], (b1 u) as [a1 a2 a3],
      (b2 u) as [c1 c2 c3], (v u) as [w1 w2 w3].
    revert H5 H6. vsimpl. intros H5 H6. nsatz. }
  split.
  { exists (focalDistance / dot (direction (get_camera_ray u ipx ipy)) (v u)).
    split; [reflexivity|]. intros Hfd.
    unfold get_camera_ray. cbv zeta. cbn [direction]. fold q.
    assert (Hdv : dot (normalize q) (v u) = camera_constant u / sqrt (dot q q)).
    { rewrite <- Hqv. unfold normalize, length.
      set (l := sqrt (dot q q)) in *. clearbody l.
      destruct q as [q1 q2 q3], (v u) as [w1 w2 w3]. vsimpl. field. lra. }
    rewrite Hdv. apply Rdiv_lt_0_compat; [exact Hfd|].
    apply Rdiv_lt_0_compat; assumption. }
  split.
  { unfold on_focal_plane. rewrite Hf, Hsub, Hdotk, Hqv. field. lra. }
  split; [rewrite Hf, Hsub, Hdotk, Hq1; reflexivity|].
  split; [rewrite Hf, Hsub, Hdotk, Hq2; reflexivity|].
  split; [reflexivity|].
  split.
  { intros Hne. rewrite normalize_scale by exact Hne.
    generalize (focus_point u focalDistance ipx ipy).
    generalize (vadd (vadd (eye_point u) (vscale (b1 u) lx)) (vscale (b2 u) ly)).
    intros [lx' ly' lz'] [fx fy fz]. apply vec3_eq; vsimpl; ring. }
  intros Ha Hfd.
  assert (Hl : lx = 0 /\ ly = 0).
  { rewrite Ha in Hdisk. split; nra. }
  destruct Hl as [-> ->].
  assert (Eo : vadd (vadd (eye_point u) (vscale (b1 u) 0)) (vscale (b2 u) 0)
               = eye_point u).
  { destruct (eye_point u), (b1 u), (b2 u). apply vec3_eq; vsimpl; ring. }
  rewrite Eo. split; [reflexivity|].
  rewrite Hf, Hsub. unfold get_camera_ray. cbv zeta. cbn [direction]. fold q.
  set (k := focalDistance / camera_constant u).
  assert (Hk : 0 < k) by (apply Rdiv_lt_0_compat; assumption).
  unfold normalize, length.
  replace (dot (vscale q k) (vscale q k)) with ((k * sqrt (dot q q)) * (k * sqrt (dot q q))).
  - rewrite sqrt_square by nra.
    set (l := sqrt (dot q q)) in *. clearbody l.
    destruct q as [q1 q2 q3]. apply vec3_eq; vsimpl; field; lra.
  - replace (k * sqrt (dot q q) * (k * sqrt (dot q q)))
      with (k * k * (sqrt (dot q q) * sqrt (dot q q))) by ring.
    rewrite sqrt_sqrt by lra. destruct q as [q1 q2 q3]. vsimpl. ring.
Qed.

Lemma uniforms0_orthonormal : orthonormal Scenes.uniforms0.
Proof. unfold orthonormal. simpl. vsimpl. repeat split; lra. Qed.

Lemma C9_thin_lens_ray_witness :
  let u := Scenes.uniforms0 in
  let ray := fst (thin_lens_ray u (1 / 10) 5 (1 / 4) (1 / 4) 1) in
  let pin := get_camera_ray u (1 / 4) (1 / 4) in
  let focus := focus_point u 5 (1 / 4) (1 / 4) in
  (exists x y : R,
     x * x + y * y <= (1 / 10 / 2) * (1 / 10 / 2)
     /\ x * x + y * y
        = (1 / 10 / 2 * Rmax (Rabs (2 * fst (Rng.rnd 1) - 1))
                             (Rabs (2 * fst (Rng.rnd (snd (Rng.rnd 1))) - 1)))
          * (1 / 10 / 2 * Rmax (Rabs (2 * fst (Rng.rnd 1) - 1))
                               (Rabs (2 * fst (Rng.rnd (snd (Rng.rnd 1))) - 1)))
     /\ origin ray
        = vadd (vadd (eye_point u) (vscale (b1 u) x)) (vscale (b2 u) y))
  /\ snd (thin_lens_ray u (1 / 10) 5 (1 / 4) (1 / 4) 1)
     = snd (Rng.rnd (snd (Rng.rnd 1)))
  /\ dot (vsub (origin ray) (eye_point u)) (v u) = 0
  /\ (exists s : R,
        focus = vadd (origin pin) (vscale (direction pin) s)
        /\ (0 < 5 -> 0 < s))
  /\ on_focal_plane u 5 focus
  /\ dot (vsub focus (eye_point u)) (b1 u) = 1 / 4 * (5 / camera_constant u)
  /\ dot (vsub focus (eye_point u)) (b2 u) = 1 / 4 * (5 / camera_constant u)
  /\ direction ray = normalize (vsub focus (origin ray))
  /\ (vsub focus (origin ray) <> vzero ->
      vadd (origin ray)
           (vscale (direction ray) (length (vsub focus (origin ray)))) = focus)
  /\ (1 / 10 = 0 -> 0 < 5 ->
      origin ray = origin pin /\ direction ray = direction pin).
Proof.
  apply (C9_thin_lens_ray Scenes.uniforms0 (1 / 10) 5 (1 / 4) (1 / 4) 1).
  - exact uniforms0_orthonormal.
  - simpl. lra.
Defined.

End ThinLensClaims.

(** ** Scanning a list of triangles *)

Section Scan.

Import W08 W08Spec BspSpec.

Variable sc : Scene.

Lemma leaf_loop_scan (count id : Z) (r : Ray) (hit : HitInfo) :
  leaf_loop sc count id r hit
  = fold_left (tri_step sc) (leaf_ids sc count id) (false, r, hit).
Proof.
  unfold leaf_loop, leaf_ids.
  generalize (range count) (false, r, hit).
  intros js. induction js as [|j js IH]; intros st; simpl; [reflexivity|].
  rewrite IH. reflexivity.
Qed.

Lemma tri_step_hit (found : bool) (r : Ray) (hit : HitInfo) (idx : Z) :
  tri_inside sc (origin r) (direction r) idx ->
  tmin r <= tri_t sc (origin r) (direction r) idx <= tmax r ->
  tri_step sc (found, r, hit) idx
  = (true, with_tmax (tri_t sc (origin r) (direction r) idx) r,
     with_triangle_idx idx (tri_record sc r hit idx)).
Proof.
  intros Hin Ht. unfold tri_step.
  rewrite intersect_triangle_hit by assumption. reflexivity.
Qed.

Lemma tri_step_miss (found : bool) (r : Ray) (hit : HitInfo) (idx : Z) :
  ~ (tri_inside sc (origin r) (direction r) idx
     /\ tmin r <= tri_t sc (origin r) (direction r) idx <= tmax r) ->
  tri_step sc (found, r, hit) idx = (found, r, hit).
Proof.
  intros H. unfold tri_step.
  rewrite intersect_triangle_miss by assumption. reflexivity.
Qed.

(** [tri_inside] and the interval test are decided by the comparisons of
    the routine itself. *)
Lemma tri_hit_dec (r : Ray) (idx : Z) :
  (tri_inside sc (origin r) (direction r) idx
   /\ tmin r <= tri_t sc (origin r) (direction r) idx <= tmax r)
  \/ ~ (tri_inside sc (origin r) (direction r) idx
        /\ tmin r <= tri_t sc (origin r) (direction r) idx <= tmax r).
Proof.
  destruct (intersect_triangle sc r default_hitinfo idx) as [b h] eqn:E.
  destruct b.
  - left. apply intersect_triangle_true in E. tauto.
  - right. intros [Hin Ht].
    rewrite intersect_triangle_hit in E by assumption. discriminate.
Qed.

Lemma scan_spec (ids : list Z) :
  forall (found : bool) (r : Ray) (hit : HitInfo),
    let o := origin r in
    let d := direction r in
    (fold_left (tri_step sc) ids (found, r, hit) = (found, r, hit)
     /\ no_hit sc o d (fun i => In i ids) (tmin r) (tmax r))
    \/ (exists m hit',
          fold_left (tri_step sc) ids (found, r, hit)
          = (true, mkRay o d (tmin r) m, hit')
          /\ has_hit hit' = true /\ distance hit' = m
          /\ nearest_hit sc o d (fun i => In i ids) (tmin r) (tmax r) m).
Proof.
  induction ids as [|idx ids IH]; intros found r hit; cbv zeta.
  - left. split; [reflexivity|]. intros i t [].
  - cbn [fold_left].
    destruct (tri_hit_dec r idx) as [[Hin Ht]|Hmiss].
    + (* the head is hit: the interval shrinks to its distance *)
      rewrite tri_step_hit by assumption.
      set (t0 := tri_t sc (origin r) (direction r) idx) in *.
      set (hit1 := with_triangle_idx idx (tri_record sc r hit idx)).
      right.
      destruct (IH true (with_tmax t0 r) hit1) as [[E Hno]|(m & hit' & E & Hh & Hd & Hn)];
        cbn [origin direction tmin tmax with_tmax] in *.
      * exists t0, hit1. rewrite E. split; [reflexivity|].
        split; [reflexivity|]. split; [reflexivity|].
        split; [exact Ht|]. split.
        -- exists idx. split; [left; reflexivity | split; [exact Hin | reflexivity]].
        -- intros i t [<-|Hi] Hc Hr.
           ++ destruct Hc as [_ Hc]. fold t0 in Hc. lra.
           ++ destruct (Rle_lt_dec t0 t) as [Hle|Hlt]; [exact Hle|].
              exfalso. apply (Hno i t Hi Hc). lra.
      * exists m, hit'. rewrite E. split; [reflexivity|].
        split; [exact Hh|]. split; [exact Hd|].
        destruct Hn as (Hm & (i0 & Hi0 & Hc0) & Hmin).
        split; [lra|]. split.
        -- exists i0. split; [right; exact Hi0 | exact Hc0].
        -- intros i t [<-|Hi] Hc Hr.
           ++ destruct Hc as [_ Hc]. fold t0 in Hc. lra.
           ++ destruct (Rle_lt_dec t t0) as [Hle|Hlt].
              ** apply (Hmin i t Hi Hc). lra.
              ** lra.
    + (* the head is missed: the state is unchanged *)
      rewrite tri_step_miss by assumption.
      assert (Hhead : forall t, candidate sc (origin r) (direction r) idx t ->
                                ~ (tmin r <= t <= tmax r)).
      { intros t [Hi Hc] Hr. apply Hmiss. split; [exact Hi|].
        rewrite Hc. exact Hr. }
      destruct (IH found r hit) as [[E Hno]|(m & hit' & E & Hh & Hd & Hn)].
      * left. split; [exact E|].
        intros i t [<-|Hi] Hc; [apply Hhead; exact Hc | apply (Hno i t Hi Hc)].
      * right. exists m, hit'. split; [exact E|].
        split; [exact Hh|]. split; [exact Hd|].
        destruct Hn as (Hm & (i0 & Hi0 & Hc0) & Hmin).
        split; [exact Hm|]. split.
        -- exists i0. split; [right; exact Hi0 | exact Hc0].
        -- intros i t [<-|Hi] Hc Hr.
           ++ exfalso. apply (Hhead t Hc Hr).
           ++ apply (Hmin i t Hi Hc Hr).
Qed.

End Scan.

(** ** The traversal against the nearest hit over the whole mesh *)

Section TraversalSpec.

Import W08 W08Spec BspSpec.

Variable sc : Scene.

(** The point the routine computes as [origin + direction * t] is the
    point of the triangle with the barycentric coordinates it computes. *)
Lemma hit_point_identity (o d v0 e0 e1 : vec3) :
  let n := cross e0 e1 in
  let q := dot d n in
  let a := vsub v0 o in
  let b := cross a d in
  q <> 0 ->
  vadd o (vscale d (dot a n / q))
  = vadd (vadd v0 (vscale e0 (dot b e1 / q))) (vscale e1 (- dot b e0 / q)).
Proof.
  destruct o, d, v0, e0, e1. cbv zeta. vsimpl. intros Hq.
  apply vec3_eq; vsimpl; field; exact Hq.
Qed.

Lemma candidate_on_triangle (o d : vec3) (idx : Z) (t : R) :
  candidate sc o d idx t -> on_triangle sc idx (vadd o (vscale d t)).
Proof.
  intros [(Hq & Hb & Hg & Hbg) <-].
  exists (tri_beta sc o d idx), (tri_gamma sc o d idx).
  repeat split; try assumption.
  unfold tri_t, tri_beta, tri_gamma, tri_q, tri_a. apply hit_point_identity.
  intros E. unfold tri_q in Hq. rewrite E, Rabs_R0 in Hq. lra.
Qed.







End TraversalSpec.

(** ** The loop against the recursive traversal *)

Section LoopRefinement.

Import W08 W08Spec BspSpec.

Variable sc : Scene.

Lemma leaf_refines (count id : Z) : loop_refines sc (Leaf count id).
Proof.
  intros node i lvl bn br r hit (Hleaf & Hcount & Hid) Hi Hd Hl Hld Hbn Hbr.
  exists 1%nat, bn, br, r.
  split; [simpl; lia|]. split; [exact Hbn|]. split; [exact Hbr|].
  split; [intros k _; reflexivity|]. split; [intros k _; reflexivity|].
  split; [reflexivity|]. split; [reflexivity|].
  intros fuel. change (1 + fuel)%nat with (S fuel).
  cbn [trimesh_loop t_i t_node t_branch_lvl t_branch_node t_branch_ray t_r t_hit trav].
  unfold MAX_LEVEL. simpl depth in Hd.
  destruct (Z.leb_spec i 20) as [_|Hgt]; [|lia]. cbn [negb].
  rewrite Hleaf, Z.eqb_refl, Hcount, Hid.
  rewrite leaf_loop_scan.
  destruct (scan_spec sc (leaf_ids sc count id) false r hit)
    as [[E _]|(m & hit' & E & _)]; rewrite E; reflexivity.
Qed.

Lemma agree_below_set {A : Type} (lvl : Z) (a : list A) (v d : A) :
  (0 <= lvl)%Z -> agree_below lvl (set a lvl v) a d.
Proof.
  intros Hl k Hk. unfold set. apply nth_set_nth_other. lia.
Qed.

Lemma agree_below_trans {A : Type} (lvl lvl' : Z) (a b c : list A) (d : A) :
  (lvl <= lvl')%Z ->
  agree_below lvl' a b d -> agree_below lvl b c d -> agree_below lvl a c d.
Proof.
  intros Hle Hab Hbc k Hk. rewrite Hab by lia. apply Hbc. exact Hk.
Qed.

Lemma agree_below_weaken {A : Type} (lvl lvl' : Z) (a b : list A) (d : A) :
  (lvl <= lvl')%Z -> agree_below lvl' a b d -> agree_below lvl a b d.
Proof. intros Hle Hab k Hk. apply Hab. lia. Qed.

Lemma node_refines (axis : Z) (plane : R) (l rt : bsp) :
  loop_refines sc l -> loop_refines sc rt ->
  loop_refines sc (Node axis plane l rt).
Proof.
  intros IHl IHr node i lvl bn br r hit (Haxis & Hnl & Hplane & Hel & Her)
         Hi Hd Hl Hld Hbn Hbr.
  cbn [depth] in Hd, Hld.
  set (dk := vidx (direction r) axis).
  set (b := fge dk 0).
  set (ts := (plane - vidx (origin r) axis) / select dk 1e-8 (flt (Rabs dk) 1e-8)).
  set (tn := if b then l else rt).
  set (tf := if b then rt else l).
  set (nn := select (uw (get default_face (bspTree sc) node))
                    (uz (get default_face (bspTree sc) node)) b).
  set (nf := select (uz (get default_face (bspTree sc) node))
                    (uw (get default_face (bspTree sc) node)) b).
  assert (Hen : encodes sc nn tn) by (unfold nn, tn, select; destruct b; assumption).
  assert (Hef : encodes sc nf tf) by (unfold nf, tf, select; destruct b; assumption).
  assert (IHn : loop_refines sc tn) by (unfold tn; destruct b; assumption).
  assert (IHf : loop_refines sc tf) by (unfold tf; destruct b; assumption).
  assert (Hdn : (depth tn <= Nat.max (depth l) (depth rt))%nat)
    by (unfold tn; destruct b; lia).
  assert (Hdf : (depth tf <= Nat.max (depth l) (depth rt))%nat)
    by (unfold tf; destruct b; lia).
  assert (Hnodes : (nodes tn + nodes tf = nodes l + nodes rt)%nat)
    by (unfold tn, tf; destruct b; lia).
  assert (Hi1 : u32_add i 1 = (i + 1)%Z) by (unfold u32_add; apply wrap32_small; lia).
  assert (Hl1 : u32_add lvl 1 = (lvl + 1)%Z) by (unfold u32_add; apply wrap32_small; lia).
  assert (Hstep : forall fuel,
    trimesh_loop sc (S fuel) (mkTrav i node lvl bn br r hit)
    = if fge ts (tmax r) then
        trimesh_loop sc fuel (mkTrav (i + 1) nn lvl bn br r hit)
      else if fle ts (tmin r) then
        trimesh_loop sc fuel (mkTrav (i + 1) nf lvl bn br r hit)
      else
        trimesh_loop sc fuel
          (mkTrav (i + 1) nn (lvl + 1) (set bn lvl (i, nf)) (set br lvl (ts, tmax r))
             (with_tmax ts r) hit)).
  { intros fuel.
    cbn [trimesh_loop t_i t_node t_branch_lvl t_branch_node t_branch_ray t_r t_hit].
    unfold MAX_LEVEL. destruct (Z.leb_spec i 20) as [_|Hgt]; [|lia]. cbn [negb].
    rewrite Haxis. destruct (Z.eqb_spec axis BSP_LEAF) as [E|_]; [contradiction|].
    rewrite Hplane, Hi1, Hl1. reflexivity. }
  assert (Htrav :
    trav sc (Node axis plane l rt) r hit
    = if fge ts (tmax r) then trav sc tn r hit
      else if fle ts (tmin r) then trav sc tf r hit
      else match trav sc tn (with_tmax ts r) hit with
           | Some res => Some res
           | None => trav sc tf (mkRay (origin r) (direction r) ts (tmax r)) hit
           end) by reflexivity.
  rewrite Htrav. clear Htrav.
  clearbody tn tf nn nf.
  destruct (fge ts (tmax r)) eqn:Ea; [|destruct (fle ts (tmin r)) eqn:Eb].
  - (* the near child only *)
    destruct (IHn nn (i + 1)%Z lvl bn br r hit Hen ltac:(lia) ltac:(lia) Hl
                ltac:(lia) Hbn Hbr)
      as (used & bn' & br' & r' & Hu & Hbn' & Hbr' & Hag & Hagr & Ho & Hdir & Hrun).
    exists (S used), bn', br', r'.
    split; [simpl; lia|]. repeat (split; [assumption|]).
    intros fuel. change (S used + fuel)%nat with (S (used + fuel)).
    rewrite Hstep. apply Hrun.
  - (* the far child only *)
    destruct (IHf nf (i + 1)%Z lvl bn br r hit Hef ltac:(lia) ltac:(lia) Hl
                ltac:(lia) Hbn Hbr)
      as (used & bn' & br' & r' & Hu & Hbn' & Hbr' & Hag & Hagr & Ho & Hdir & Hrun).
    exists (S used), bn', br', r'.
    split; [simpl; lia|]. repeat (split; [assumption|]).
    intros fuel. change (S used + fuel)%nat with (S (used + fuel)).
    rewrite Hstep. apply Hrun.
  - (* the near child, with the far child on the stack *)
    assert (Hlt : (Z.to_nat lvl < 20)%nat) by lia.
    destruct (IHn nn (i + 1)%Z (lvl + 1)%Z (set bn lvl (i, nf))
                (set br lvl (ts, tmax r)) (with_tmax ts r) hit Hen
                ltac:(lia) ltac:(lia) ltac:(lia) ltac:(lia)
                ltac:(unfold set; rewrite set_nth_length; exact Hbn)
                ltac:(unfold set; rewrite set_nth_length; exact Hbr))
      as (un & bn2 & br2 & r2 & Hun & Hbn2 & Hbr2 & Hag2 & Hagr2 & Ho2 & Hd2 & Hrun2).
    destruct (IHf nf (i + 1)%Z lvl bn2 br2
                (mkRay (origin r) (direction r) ts (tmax r)) hit Hef
                ltac:(lia) ltac:(lia) Hl ltac:(lia) Hbn2 Hbr2)
      as (uf & bn3 & br3 & r3 & Huf & Hbn3 & Hbr3 & Hag3 & Hagr3 & Ho3 & Hd3 & Hrun3).
    exists (S (un + uf)), bn3, br3, r3.
    split; [simpl; lia|]. split; [exact Hbn3|]. split; [exact Hbr3|].
    split.
    { apply agree_below_trans with (lvl' := lvl) (b := bn2); [lia | exact Hag3 |].
      apply agree_below_trans with (lvl' := (lvl + 1)%Z) (b := set bn lvl (i, nf));
        [lia | exact Hag2 | apply agree_below_set; exact Hl]. }
    split.
    { apply agree_below_trans with (lvl' := lvl) (b := br2); [lia | exact Hagr3 |].
      apply agree_below_trans with (lvl' := (lvl + 1)%Z) (b := set br lvl (ts, tmax r));
        [lia | exact Hagr2 | apply agree_below_set; exact Hl]. }
    split; [exact Ho3|]. split; [exact Hd3|].
    intros fuel.
    replace (S (un + uf) + fuel)%nat with (S (un + (uf + fuel))) by lia.
    rewrite Hstep, Hrun2.
    destruct (trav sc tn (with_tmax ts r) hit) as [[ra ha]|]; [reflexivity|].
    unfold backtrack.
    destruct (Z.eqb_spec (lvl + 1) 0) as [E|_]; [lia|]. cbv zeta.
    assert (Hs1 : u32_sub (lvl + 1) 1 = lvl)
      by (unfold u32_sub; rewrite wrap32_small by lia; lia).
    rewrite Hs1. unfold get.
    rewrite (Hag2 (Z.to_nat lvl)) by lia.
    rewrite (Hagr2 (Z.to_nat lvl)) by lia.
    unfold set. rewrite !nth_set_nth_same by lia. cbn [fst snd].
    rewrite Hi1.
    replace (with_tmax (tmax r) (with_tmin ts r2))
      with (mkRay (origin r) (direction r) ts (tmax r)).
    + apply Hrun3.
    + unfold with_tmax, with_tmin. cbn [origin direction tmin tmax] in *.
      rewrite Ho2, Hd2. reflexivity.
Qed.

Lemma trimesh_loop_refines (t : bsp) : loop_refines sc t.
Proof.
  induction t as [count id | axis plane l IHl rt IHr].
  - apply leaf_refines.
  - apply node_refines; assumption.
Qed.

End LoopRefinement.

(** ** The BSP traversal against the nearest hit *)

Section BspCorrect.

Import W08 W08Spec BspSpec TravSpec.

Variable sc : Scene.

Lemma nodes_bound (t : bsp) :
  (Z.of_nat (nodes t) <= 2 ^ (Z.of_nat (depth t) + 1) - 1)%Z.
Proof.
  induction t as [count id | axis plane l IHl rt IHr]; [simpl; lia|].
  cbn [nodes depth].
  set (dl := depth l) in *. set (dr := depth rt) in *.
  assert (Hl : (2 ^ (Z.of_nat dl + 1) <= 2 ^ (Z.of_nat (Nat.max dl dr) + 1))%Z)
    by (apply Z.pow_le_mono_r; lia).
  assert (Hr : (2 ^ (Z.of_nat dr + 1) <= 2 ^ (Z.of_nat (Nat.max dl dr) + 1))%Z)
    by (apply Z.pow_le_mono_r; lia).
  replace (Z.of_nat (S (Nat.max dl dr)) + 1)%Z
    with (Z.succ (Z.of_nat (Nat.max dl dr) + 1)) by lia.
  rewrite Z.pow_succ_r by lia. lia.
Qed.

Lemma nodes_within_fuel (t : bsp) : (depth t <= 20)%nat -> (nodes t <= full_fuel)%nat.
Proof.
  intros Hd. pose proof (nodes_bound t) as Hn. pose proof full_fuel_value as Hv.
  assert (2 ^ (Z.of_nat (depth t) + 1) <= 2 ^ 21)%Z by (apply Z.pow_le_mono_r; lia).
  change (2 ^ 21)%Z with 2097152%Z in *. lia.
Qed.

(** With enough fuel the loop returns what the recursive traversal of the
    encoded tree finds. *)
Lemma intersect_trimesh_trav (t : bsp) (fuel : nat) (r : Ray) (hit : HitInfo) :
  encodes sc 0 t -> (depth t <= 20)%nat -> (full_fuel <= fuel)%nat ->
  exists r',
    intersect_trimesh sc fuel r hit
    = match trav sc t r hit with
      | Some (r2, hit2) => Some (true, r2, hit2)
      | None => Some (false, r', hit)
      end.
Proof.
  intros Henc Hdepth Hfuel.
  destruct (trimesh_loop_refines sc t 0%Z 0%Z 0%Z branch_node0 branch_ray0 r hit
              Henc ltac:(lia) ltac:(lia) ltac:(lia) ltac:(lia)
              ltac:(apply repeat_length) ltac:(apply repeat_length))
    as (used & bn' & br' & r' & Hu & _ & _ & _ & _ & _ & _ & Hrun).
  pose proof (nodes_within_fuel t Hdepth) as Hn.
  specialize (Hrun (fuel - used)%nat).
  replace (used + (fuel - used))%nat with fuel in Hrun by lia.
  exists r'. unfold intersect_trimesh. rewrite Hrun. reflexivity.
Qed.




Lemma in_range (n i : Z) : In i (range n) <-> (0 <= i < n)%Z.
Proof.
  unfold range. rewrite in_map_iff. split.
  - intros (k & <- & Hk). apply in_seq in Hk. lia.
  - intros Hi. exists (Z.to_nat i). split; [lia|]. apply in_seq. lia.
Qed.

End BspCorrect.

(** ** The linear scan of week06 against the scan of week08 *)

Section LinearScan.

Import W08 W08Spec BspSpec TravSpec.

Variables (s6 : W06.Scene) (s8 : Scene).
Hypothesis Hsame : same_mesh s6 s8.

Lemma w06_triangle_hit (r : Ray) (h6 : W06.HitInfo) (i : Z) :
  1e-4 <= Rabs (tri_q s8 (direction r) i) ->
  tri_inside s8 (origin r) (direction r) i ->
  tmin r <= tri_t s8 (origin r) (direction r) i <= tmax r ->
  exists h',
    W06.intersect_triangle s6 (ray06 r) h6 i = (true, h')
    /\ W06.has_hit h' = true
    /\ W06.distance h' = tri_t s8 (origin r) (direction r) i.
Proof.
  destruct Hsame as (_ & Hf & Hv).
  unfold tri_inside, tri_t, tri_beta, tri_gamma, tri_q, tri_a, tri_e0, tri_e1.
  intros Hq (_ & Hb & Hg & Hbg) Ht.
  unfold W06.intersect_triangle. rewrite Hf.
  cbn [W06.ux W06.uy W06.uz W06.origin W06.direction W06.tmin W06.tmax ray06].
  rewrite !Hv. cbv zeta.
  rewrite flt_false by lra.
  unfold fgt. rewrite (flt_false _ (tmin r)) by lra.
  rewrite (flt_false (tmax r)) by lra. cbn [orb].
  rewrite (flt_false _ 0) by lra. rewrite (flt_false _ 0) by lra.
  rewrite (flt_false _ 0) by lra. cbn [orb].
  eexists. split; [reflexivity|]. split; reflexivity.
Qed.

Lemma w06_triangle_miss (r : Ray) (h6 : W06.HitInfo) (i : Z) :
  ~ (1e-4 <= Rabs (tri_q s8 (direction r) i)
     /\ tri_inside s8 (origin r) (direction r) i
     /\ tmin r <= tri_t s8 (origin r) (direction r) i <= tmax r) ->
  W06.intersect_triangle s6 (ray06 r) h6 i = (false, h6).
Proof.
  destruct Hsame as (_ & Hf & Hv).
  unfold tri_inside, tri_t, tri_beta, tri_gamma, tri_q, tri_a, tri_e0, tri_e1.
  intros Hn.
  unfold W06.intersect_triangle. rewrite Hf.
  cbn [W06.ux W06.uy W06.uz W06.origin W06.direction W06.tmin W06.tmax ray06].
  rewrite !Hv. cbv zeta.
  fcases; cbn [orb]; try reflexivity.
  exfalso. apply Hn. lra.
Qed.

Lemma scene_body_agrees (st6 : W06.Ray * W06.HitInfo) (st8 : bool * Ray * HitInfo)
  (idx : Z) :
  in_mesh s8 idx ->
  det_agree s8 (direction (snd (fst st8))) ->
  scans_agree st6 st8 ->
  scans_agree (W06.scene_body s6 st6 idx) (tri_step s8 st8 idx).
Proof.
  destruct st6 as [r6 h6]. destruct st8 as [[found r] h8].
  cbn [fst snd scans_agree]. intros Hidx Hdet (-> & Hflag & Hdist).
  destruct (tri_hit_dec s8 r idx) as [[Hin Ht]|Hmiss].
  - assert (Hq : 1e-4 <= Rabs (tri_q s8 (direction r) idx)).
    { destruct Hin as (Hq & _). specialize (Hdet idx Hidx). lra. }
    rewrite tri_step_hit by assumption.
    destruct (w06_triangle_hit r h6 idx Hq Hin Ht) as (h' & E & Hh & Hd).
    unfold W06.scene_body. rewrite E. cbv zeta.
    cbn [W06.distance W06.has_hit W06.with_tmax distance tri_record with_triangle_idx
         with_normal with_distance].
    rewrite Hd, Hh. repeat split.
  - rewrite tri_step_miss by assumption.
    unfold W06.scene_body. rewrite w06_triangle_miss by tauto.
    repeat split; assumption.
Qed.

Lemma tri_step_direction (st : bool * Ray * HitInfo) (idx : Z) :
  direction (snd (fst (tri_step s8 st idx))) = direction (snd (fst st)).
Proof.
  destruct st as [[found r] h]. unfold tri_step.
  destruct (intersect_triangle s8 r h idx) as [b h']. destruct b; reflexivity.
Qed.

Lemma scans_agree_fold (ids : list Z) :
  forall (st6 : W06.Ray * W06.HitInfo) (st8 : bool * Ray * HitInfo),
    (forall idx, In idx ids -> in_mesh s8 idx) ->
    det_agree s8 (direction (snd (fst st8))) ->
    scans_agree st6 st8 ->
    scans_agree (fold_left (W06.scene_body s6) ids st6)
                (fold_left (tri_step s8) ids st8).
Proof.
  induction ids as [|idx ids IH]; intros st6 st8 Hids Hdet Hag; [exact Hag|].
  cbn [fold_left]. apply IH.
  - intros i Hi. apply Hids. right. exact Hi.
  - rewrite tri_step_direction. exact Hdet.
  - apply scene_body_agrees; [apply Hids; left; reflexivity | exact Hdet | exact Hag].
Qed.

(** The linear scan finds the nearest hit over the whole mesh. *)
Lemma linear_scan_nearest (r : Ray) :
  det_agree s8 (direction r) ->
  let res := W06.intersect_scene s6 (ray06 r) W06.default_hitinfo in
  (fst (fst res) = false
   /\ no_hit s8 (origin r) (direction r) (in_mesh s8) (tmin r) (tmax r))
  \/ (fst (fst res) = true
      /\ nearest_hit s8 (origin r) (direction r) (in_mesh s8) (tmin r) (tmax r)
           (W06.distance (snd res))).
Proof.
  intros Hdet. cbv zeta. unfold W06.intersect_scene.
  destruct Hsame as (Hn & _).
  assert (Hids : forall idx, In idx (range (W06.numTriangles s6)) -> in_mesh s8 idx).
  { intros idx Hi. apply in_range in Hi. unfold in_mesh. lia. }
  pose proof (scans_agree_fold (range (W06.numTriangles s6))
                (ray06 r, W06.default_hitinfo) (false, r, default_hitinfo)
                Hids Hdet ltac:(repeat split; discriminate)) as Hag.
  destruct (fold_left (W06.scene_body s6) _ _) as [r6 h6].
  cbn [fst snd].
  destruct (scan_spec s8 (range (W06.numTriangles s6)) false r default_hitinfo)
    as [[E Hno]|(m & hit' & E & Hh & Hd & Hnear)];
    rewrite E in Hag; destruct Hag as (_ & Hflag & Hdist).
  - left. split; [exact Hflag|].
    intros idx t Hidx. apply Hno. apply in_range. unfold in_mesh in Hidx. lia.
  - right. split; [exact Hflag|].
    rewrite (Hdist eq_refl), Hd.
    destruct Hnear as (Hr & (i0 & Hi0 & Hc0) & Hmin).
    split; [exact Hr|]. split.
    + exists i0. split; [apply Hids; exact Hi0 | exact Hc0].
    + intros idx t Hidx. apply Hmin. apply in_range. unfold in_mesh in Hidx. lia.
Qed.

End LinearScan.

(** ** BSP traversal and linear scan *)

Section BspClaims.

Import W08 W08Spec BspSpec TravSpec Scenes.


Lemma three_vertices_same_mesh (s6 : W06.Scene) (s8 : Scene) (p0 p1 p2 n0 n1 n2 : vec3) :
  W06.meshFaces s6 = [W06.U3 0 1 2] -> meshFaces s8 = [U4 0 1 2 0] ->
  W06.vPositions s6 = [p0; p1; p2] ->
  vInfo s8 = [mkVertex p0 n0; mkVertex p1 n1; mkVertex p2 n2] ->
  same_mesh s6 s8.
Proof.
  intros Hf6 Hf8 Hv6 Hv8. unfold same_mesh, W06.numTriangles, numTriangles.
  unfold meshFaces_at, vInfo_at, get. rewrite Hf6, Hf8, Hv6, Hv8.
  split; [reflexivity|]. split.
  - intros i. destruct (Z.to_nat i) as [|[|n]]; reflexivity.
  - intros k. destruct (Z.to_nat k) as [|[|[|[|n]]]]; reflexivity.
Qed.


(** The restriction on the direction cannot be dropped: with a component
    of magnitude below 1e-8 the split distance is computed with the
    divisor 1e-8, whatever the sign of the component.  Here the ray drifts
    towards -x, so the child above the plane is taken for the near one,
    and the split distance 4e7 lies beyond the ray interval: the traversal
    visits the empty leaf only and misses the triangle that the linear
    scan finds at distance 1. *)
Lemma drifting_ray_missed_by_bsp :
  same_mesh split_scene06 split_scene
  /\ well_formed split_scene
  /\ det_agree split_scene (direction drift_ray)
  /\ (exists r',
        intersect_trimesh split_scene full_fuel drift_ray default_hitinfo
        = Some (false, r', default_hitinfo))
  /\ fst (fst (W06.intersect_scene split_scene06 (ray06 drift_ray)
                 W06.default_hitinfo)) = true.
Proof.
  assert (Hsame : same_mesh split_scene06 split_scene)
    by (eapply three_vertices_same_mesh; reflexivity).
  assert (Hvals :
    tri_q split_scene (direction drift_ray) 0 = - (4 / 25)
    /\ tri_t split_scene (origin drift_ray) (direction drift_ray) 0 = 1
    /\ tri_beta split_scene (origin drift_ray) (direction drift_ray) 0
       = 1 / 4 - 1 / 400000000
    /\ tri_gamma split_scene (origin drift_ray) (direction drift_ray) 0 = 1 / 4).
  { unfold tri_t, tri_beta, tri_gamma, tri_q, tri_a, tri_e0, tri_e1. simpl. vsimpl.
    repeat split; field. }
  destruct Hvals as (Hq & Ht & Hb & Hg).
  assert (Habs : Rabs (tri_q split_scene (direction drift_ray) 0) = 4 / 25).
  { rewrite Hq, Rabs_left by lra. lra. }
  assert (Hdet : det_agree split_scene (direction drift_ray)).
  { intros idx Hidx. unfold in_mesh, numTriangles in Hidx. simpl in Hidx.
    assert (idx = 0%Z) by lia. subst idx. rewrite Habs. lra. }
  assert (Henc : encodes split_scene 0 (Node 0 (1 / 2) (Leaf 1 0) (Leaf 0 0))).
  { cbn [encodes]. repeat split. discriminate. }
  split; [exact Hsame|]. split; [|split; [exact Hdet|split]].
  - exists (Node 0 (1 / 2) (Leaf 1 0) (Leaf 0 0)).
    split; [exact Henc|]. split; [simpl; lia|].
    cbn [covers]. unfold leaf_ids, numTriangles.
    change (range 1) with [0%Z]. change (range 0) with (@nil Z). cbn [map].
    change (get 0%Z (treeIds split_scene) (u32_add 0 0)) with 0%Z.
    change (Z.of_nat (List.length (meshFaces split_scene))) with 1%Z.
    split; split.
    + intros idx [<-|[]]. lia.
    + intros idx p Hidx _ _. left. lia.
    + intros idx [].
    + intros idx p Hidx (beta & gamma & Hb0 & Hg0 & Hbg & ->) [_ Hside].
      assert (idx = 0%Z) by lia. subst idx.
      exfalso. revert Hside. unfold tri_e0, tri_e1. simpl. vsimpl.
      unfold vidx. simpl. lra.
  - destruct (intersect_trimesh_trav split_scene _ full_fuel drift_ray default_hitinfo
                Henc ltac:(simpl; lia) (Nat.le_refl _)) as [r' Hrun].
    exists r'. rewrite Hrun. cbn [trav].
    change (vidx (direction drift_ray) 0) with (- (1 / 1000000000)).
    change (vidx (origin drift_ray) 0) with (1 / 10).
    change (tmax drift_ray) with 10.
    unfold fge. rewrite (fle_false 0) by lra.
    rewrite flt_true by (rewrite Rabs_left; lra).
    unfold select. rewrite fle_true by lra.
    unfold leaf_loop. change (range 0) with (@nil Z). reflexivity.
  - destruct (linear_scan_nearest split_scene06 split_scene Hsame drift_ray Hdet)
      as [[_ Hno]|[Hf _]]; [|exact Hf].
    exfalso. apply (Hno 0%Z 1).
    + unfold in_mesh, numTriangles. simpl. lia.
    + split; [|exact Ht]. unfold tri_inside. rewrite Habs, Hb, Hg. lra.
    + simpl. lra.
Qed.

(** The condition that every leaf lists every triangle with a point in
    its cell cannot be dropped either.  Here the triangle straddles the
    split plane and is listed on the side of its centroid only; the ray
    stays above the plane, the split distance 5 lies beyond its interval,
    and the traversal visits the empty leaf only: it misses the triangle
    that the linear scan finds at distance 1. *)
Lemma straddling_triangle_missed_by_bsp :
  same_mesh straddle_scene06 straddle_scene
  /\ encodes straddle_scene 0 (Node 0 (1 / 2) (Leaf 1 0) (Leaf 0 0))
  /\ dir_ok (direction right_ray)
  /\ det_agree straddle_scene (direction right_ray)
  /\ (exists r',
        intersect_trimesh straddle_scene full_fuel right_ray default_hitinfo
        = Some (false, r', default_hitinfo))
  /\ fst (fst (W06.intersect_scene straddle_scene06 (ray06 right_ray)
                 W06.default_hitinfo)) = true.
Proof.
  assert (Hsame : same_mesh straddle_scene06 straddle_scene)
    by (eapply three_vertices_same_mesh; reflexivity).
  assert (Hvals :
    tri_q straddle_scene (direction right_ray) 0 = - (81 / 100)
    /\ tri_t straddle_scene (origin right_ray) (direction right_ray) 0 = 1
    /\ tri_beta straddle_scene (origin right_ray) (direction right_ray) 0 = 7 / 9
    /\ tri_gamma straddle_scene (origin right_ray) (direction right_ray) 0 = 1 / 9).
  { unfold tri_t, tri_beta, tri_gamma, tri_q, tri_a, tri_e0, tri_e1. simpl. vsimpl.
    repeat split; field. }
  destruct Hvals as (Hq & Ht & Hb & Hg).
  assert (Habs : Rabs (tri_q straddle_scene (direction right_ray) 0) = 81 / 100).
  { rewrite Hq, Rabs_left by lra. lra. }
  assert (Hdet : det_agree straddle_scene (direction right_ray)).
  { intros idx Hidx. unfold in_mesh, numTriangles in Hidx. simpl in Hidx.
    assert (idx = 0%Z) by lia. subst idx. rewrite Habs. lra. }
  assert (Henc : encodes straddle_scene 0 (Node 0 (1 / 2) (Leaf 1 0) (Leaf 0 0))).
  { cbn [encodes]. repeat split. discriminate. }
  split; [exact Hsame|]. split; [exact Henc|]. split; [|split; [exact Hdet|split]].
  - unfold dir_ok. simpl. rewrite !Rabs_left by lra. lra.
  - destruct (intersect_trimesh_trav straddle_scene _ full_fuel right_ray
                default_hitinfo Henc ltac:(simpl; lia) (Nat.le_refl _)) as [r' Hrun].
    exists r'. rewrite Hrun. cbn [trav].
    change (vidx (direction right_ray) 0) with (- (1 / 20)).
    change (vidx (origin right_ray) 0) with (3 / 4).
    change (tmax right_ray) with 2.
    unfold fge. rewrite (fle_false 0) by lra.
    rewrite flt_false by (rewrite Rabs_left; lra).
    unfold select.
    replace ((1 / 2 - 3 / 4) / - (1 / 20)) with 5 by field.
    rewrite fle_true by lra.
    unfold leaf_loop. change (range 0) with (@nil Z). reflexivity.
  - destruct (linear_scan_nearest straddle_scene06 straddle_scene Hsame right_ray Hdet)
      as [[_ Hno]|[Hf _]]; [|exact Hf].
    exfalso. apply (Hno 0%Z 1).
    + unfold in_mesh, numTriangles. simpl. lia.
    + split; [|exact Ht]. unfold tri_inside. rewrite Habs, Hb, Hg. lra.
    + simpl. lra.
Qed.



Lemma pair_scene_encodes :
  encodes pair_scene 0 (Node 0 (1 / 2) (Leaf 1 0) (Leaf 1 1)).
Proof. cbn [encodes]. repeat split. discriminate. Qed.



Lemma crossing_ray_values :
  (forall idx : Z, in_mesh pair_scene idx ->
     tri_q pair_scene (direction crossing_ray) idx = - (4 / 25)
     /\ tri_t pair_scene (origin crossing_ray) (direction crossing_ray) idx = 1)
  /\ tri_beta pair_scene (origin crossing_ray) (direction crossing_ray) 0 = 1 / 4
  /\ tri_gamma pair_scene (origin crossing_ray) (direction crossing_ray) 0 = 1 / 4.
Proof.
  split; [|split].
  - intros idx Hidx. unfold in_mesh, numTriangles in Hidx. simpl in Hidx.
    assert (E : idx = 0%Z \/ idx = 1%Z) by lia.
    destruct E as [->| ->];
      unfold tri_t, tri_q, tri_a, tri_e0, tri_e1; simpl; vsimpl; split; field.
  - unfold tri_beta, tri_q, tri_a, tri_e0, tri_e1. simpl. vsimpl. field.
  - unfold tri_gamma, tri_q, tri_a, tri_e0, tri_e1. simpl. vsimpl. field.
Qed.


(** The traversal on the crossing ray: at the root the split distance 1/2
    lies inside the ray interval, so the far child is pushed and the near
    leaf, above the plane, is searched up to the plane; its triangle lies
    at distance 1, beyond the plane, and is rejected; the far child is
    popped with the interval [1/2, 10] and its triangle is hit at
    distance 1. *)
Lemma crossing_ray_hits_after_pop :
  exists hit',
    intersect_trimesh pair_scene full_fuel crossing_ray default_hitinfo
    = Some (true, mkRay (origin crossing_ray) (direction crossing_ray) (1 / 2) 1, hit')
    /\ distance hit' = 1 /\ triangle_idx hit' = 0%Z.
Proof.
  destruct crossing_ray_values as (Hv & Hb & Hg).
  destruct (Hv 0%Z ltac:(unfold in_mesh, numTriangles; simpl; lia)) as [Hq0 Ht0].
  destruct (Hv 1%Z ltac:(unfold in_mesh, numTriangles; simpl; lia)) as [Hq1 Ht1].
  destruct (intersect_trimesh_trav pair_scene _ full_fuel crossing_ray
              default_hitinfo pair_scene_encodes ltac:(simpl; lia) (Nat.le_refl _))
    as [r' Hrun].
  rewrite Hrun. cbn [trav].
  change (vidx (direction crossing_ray) 0) with (- (4 / 5)).
  change (vidx (origin crossing_ray) 0) with (9 / 10).
  change (tmax crossing_ray) with 10. change (tmin crossing_ray) with 0.
  unfold fge. rewrite (fle_false 0) by lra.
  rewrite flt_false by (rewrite Rabs_left; lra).
  unfold select.
  replace ((1 / 2 - 9 / 10) / - (4 / 5)) with (1 / 2) by field.
  rewrite (fle_false 10), (fle_false (1 / 2) 0) by lra.
  cbn [trav]. unfold leaf_loop. change (range 1) with [0%Z]. cbn [fold_left].
  rewrite leaf_body_miss.
  - rewrite leaf_body_hit.
    + change (get 0%Z (treeIds pair_scene) (u32_add 0 0)) with 0%Z.
      cbn [origin direction]. fold (origin crossing_ray) (direction crossing_ray).
      rewrite Ht0. eexists. split; [reflexivity|]. split; [|reflexivity].
      cbn [distance with_triangle_idx tri_record with_normal with_distance].
      exact Ht0.
    + change (get 0%Z (treeIds pair_scene) (u32_add 0 0)) with 0%Z.
      cbn [origin direction]. fold (origin crossing_ray) (direction crossing_ray).
      unfold tri_inside. rewrite Hq0, Hb, Hg, Rabs_left by lra. lra.
    + change (get 0%Z (treeIds pair_scene) (u32_add 0 0)) with 0%Z.
      cbn [origin direction tmin tmax].
      fold (origin crossing_ray) (direction crossing_ray).
      rewrite Ht0. lra.
  - change (get 0%Z (treeIds pair_scene) (u32_add 1 0)) with 1%Z.
    cbn [origin direction tmin tmax with_tmax].
    fold (origin crossing_ray) (direction crossing_ray).
    rewrite Ht1. lra.
Qed.

Lemma slant_ray_dir_ok : dir_ok (direction slant_ray).
Proof.
  unfold dir_ok. simpl.
  rewrite (Rabs_right (1 / 4)) by lra. rewrite (Rabs_left (-1)) by lra. lra.
Qed.


End BspClaims.

(* ================================================================== *)
(** * Part III: further properties of the code                         *)
(* ================================================================== *)

(** ** The random number generator, backwards *)

Section RngRoundTrip.

Import RngSpec.

Lemma mcg31_mod (s : Z) : Rng.mcg31 s = ((Rng.LCG_A * s) mod 2147483648)%Z.
Proof.
  unfold Rng.mcg31, u32_mul, wrap32.
  change 0x7FFFFFFF%Z with (Z.ones 31). rewrite Z.land_ones by lia.
  change (2 ^ 31)%Z with 2147483648%Z.
  apply Z.mod_mod_divide. exists 2%Z. reflexivity.
Qed.

Lemma mcg31_back_mod (s : Z) : mcg31_back s = ((92848423 * s) mod 2147483648)%Z.
Proof.
  unfold mcg31_back, u32_mul, wrap32.
  change 0x7FFFFFFF%Z with (Z.ones 31). rewrite Z.land_ones by lia.
  change (2 ^ 31)%Z with 2147483648%Z.
  apply Z.mod_mod_divide. exists 2%Z. reflexivity.
Qed.

(** X1: on 31-bit states [mcg31] is a bijection.  Its result is again a
    31-bit state, and multiplying by 92848423, the inverse of [LCG_A]
    modulo 2^31, recovers the state it was computed from, in both orders;
    so two different states never have the same successor, and only
    state 0 leads to state 0. *)
Theorem mcg31_round_trip (s : Z) :
  (0 <= s < 2147483648)%Z ->
  (0 <= Rng.mcg31 s < 2147483648)%Z
  /\ mcg31_back (Rng.mcg31 s) = s
  /\ Rng.mcg31 (mcg31_back s) = s
  /\ (Rng.mcg31 s = 0%Z -> s = 0%Z).
Proof.
  intros Hs.
  assert (Hback : mcg31_back (Rng.mcg31 s) = s).
  { rewrite mcg31_back_mod, mcg31_mod.
    rewrite Z.mul_mod_idemp_r by lia.
    replace (92848423 * (Rng.LCG_A * s))%Z with (s + (85505723 * s) * 2147483648)%Z
      by (unfold Rng.LCG_A; lia).
    rewrite Z.mod_add by lia. apply Z.mod_small. exact Hs. }
  split; [apply mcg31_range|]. split; [exact Hback|]. split.
  - rewrite mcg31_mod, mcg31_back_mod.
    rewrite Z.mul_mod_idemp_r by lia.
    replace (Rng.LCG_A * (92848423 * s))%Z with (s + (85505723 * s) * 2147483648)%Z
      by (unfold Rng.LCG_A; lia).
    rewrite Z.mod_add by lia. apply Z.mod_small. exact Hs.
  - intros E. rewrite <- Hback, E. reflexivity.
Qed.

Lemma mcg31_round_trip_witness :
  (0 <= Rng.mcg31 12345 < 2147483648)%Z
  /\ mcg31_back (Rng.mcg31 12345) = 12345%Z
  /\ Rng.mcg31 (mcg31_back 12345) = 12345%Z
  /\ (Rng.mcg31 12345 = 0%Z -> 12345%Z = 0%Z).
Proof. apply (mcg31_round_trip 12345). lia. Defined.

End RngRoundTrip.

(** ** Sampling directions *)

Section Sampling.

Import W08.

Lemma sign_pos (x : R) : 0 < x -> sign x = 1.
Proof. intros H. unfold sign. rewrite flt_true by lra. reflexivity. Qed.

Lemma sign_neg (x : R) : x < 0 -> sign x = -1.
Proof.
  intros H. unfold sign. rewrite flt_false by lra. rewrite flt_true by lra.
  reflexivity.
Qed.

Lemma rotate_to_normal_dot (n u w : vec3) :
  dot n n = 1 -> 0 <= vz n \/ vz n < - 1e-16 ->
  dot (rotate_to_normal n u) (rotate_to_normal n w) = dot u w.
Proof.
  destruct n as [x y z], u as [u1 u2 u3], w as [w1 w2 w3].
  unfold rotate_to_normal. vsimpl. intros Hn Hz.
  destruct Hz as [Hz|Hz].
  - rewrite sign_pos by lra. rewrite Rabs_pos_eq by lra.
    set (a := -1 / (1 + z)).
    assert (Ha : a * (1 + z) = -1) by (unfold a; field; lra).
    clearbody a. nsatz.
  - rewrite sign_neg by lra. rewrite Rabs_left by lra.
    set (a := -1 / (1 + - z)).
    assert (Ha : a * (1 - z) = -1) by (unfold a; field; lra).
    clearbody a. nsatz.
Qed.

Lemma rotate_to_normal_z (n : vec3) : rotate_to_normal n (V3 0 0 1) = n.
Proof.
  destruct n as [x y z]. unfold rotate_to_normal. apply vec3_eq; vsimpl; ring.
Qed.

(** X2: for a unit normal [n] whose z component is not in [-1e-16, 0),
    [rotate_to_normal(n, .)] is a rotation of the frame: it preserves
    every dot product, hence lengths and angles, and takes the z axis
    to [n]. *)
Theorem rotate_to_normal_isometry (n u w : vec3) :
  dot n n = 1 -> 0 <= vz n \/ vz n < - 1e-16 ->
  dot (rotate_to_normal n u) (rotate_to_normal n w) = dot u w
  /\ dot (rotate_to_normal n u) n = vz u
  /\ rotate_to_normal n (V3 0 0 1) = n.
Proof.
  intros Hn Hz. split; [apply rotate_to_normal_dot; assumption|]. split.
  - rewrite <- (rotate_to_normal_z n) at 2.
    rewrite rotate_to_normal_dot by assumption.
    destruct u. vsimpl. ring.
  - apply rotate_to_normal_z.
Qed.

Lemma rotate_to_normal_isometry_witness :
  dot (rotate_to_normal (V3 (3/5) 0 (4/5)) (V3 1 0 0))
      (rotate_to_normal (V3 (3/5) 0 (4/5)) (V3 0 1 0))
  = dot (V3 1 0 0) (V3 0 1 0)
  /\ dot (rotate_to_normal (V3 (3/5) 0 (4/5)) (V3 1 0 0)) (V3 (3/5) 0 (4/5))
     = vz (V3 1 0 0)
  /\ rotate_to_normal (V3 (3/5) 0 (4/5)) (V3 0 0 1) = V3 (3/5) 0 (4/5).
Proof.
  apply (rotate_to_normal_isometry (V3 (3/5) 0 (4/5)) (V3 1 0 0) (V3 0 1 0)).
  - vsimpl. lra.
  - left. simpl. lra.
Defined.



End Sampling.

(** ** The bounding box test *)

Section BoundingBox.

Import W08 GeomSpec Scenes.

Lemma div_nonneg (a b : R) : 0 <= a -> 0 < b -> 0 <= a / b.
Proof.
  intros Ha Hb. unfold Rdiv. apply Rmult_le_pos; [exact Ha|].
  left. apply Rinv_0_lt_compat. exact Hb.
Qed.

(** A point of the ray between two parallel planes has its parameter
    between the parameters at which the ray meets them. *)
Lemma slab_bounds (lo hi o d t : R) :
  d <> 0 -> lo <= o + d * t <= hi ->
  Rmin ((lo - o) / d) ((hi - o) / d) <= t <= Rmax ((lo - o) / d) ((hi - o) / d).
Proof.
  intros Hd [H1 H2].
  assert (E1 : (lo - o) / d = t - (o + d * t - lo) / d) by (field; exact Hd).
  assert (E2 : (hi - o) / d = t + (hi - (o + d * t)) / d) by (field; exact Hd).
  destruct (Rlt_dec 0 d) as [Hp|Hn].
  - assert (0 <= (o + d * t - lo) / d) by (apply div_nonneg; lra).
    assert (0 <= (hi - (o + d * t)) / d) by (apply div_nonneg; lra).
    split.
    + eapply Rle_trans; [apply Rmin_l|]. lra.
    + eapply Rle_trans; [|apply Rmax_r]. lra.
  - assert (Hd' : 0 < - d) by lra.
    assert (0 <= (o + d * t - lo) / - d) by (apply div_nonneg; lra).
    assert (0 <= (hi - (o + d * t)) / - d) by (apply div_nonneg; lra).
    assert (E3 : (o + d * t - lo) / d = - ((o + d * t - lo) / - d)) by (field; lra).
    assert (E4 : (hi - (o + d * t)) / d = - ((hi - (o + d * t)) / - d)) by (field; lra).
    split.
    + eapply Rle_trans; [apply Rmin_r|]. lra.
    + eapply Rle_trans; [|apply Rmax_l]. lra.
Qed.

Lemma intersect_min_max_shrinks (sc : Scene) (r r' : Ray) (ok : bool) :
  intersect_min_max sc r = (ok, r') ->
  origin r' = origin r /\ direction r' = direction r
  /\ tmin r <= tmin r' /\ tmax r' <= tmax r
  /\ (ok = false -> r' = r).
Proof.
  unfold intersect_min_max.
  match goal with |- context [if ?c then _ else _] => destruct c end;
    intros E; injection E as <- <-.
  - repeat split; try reflexivity; lra.
  - cbn [origin direction tmin tmax with_tmin with_tmax].
    repeat split; try reflexivity; try discriminate.
    + apply Rmax_r.
    + apply Rmin_r.
Qed.

(** X4: [intersect_min_max] never clips away a point of the ray that
    lies in the bounding box.  For a ray with no zero direction
    component, if the ray point at a parameter t of [tmin, tmax] is in
    the box, the test succeeds, leaves origin and direction alone, and
    narrows the interval to one that still contains t. *)
Theorem intersect_min_max_keeps_box_points (sc : Scene) (r : Ray) (t : R) :
  vx (direction r) <> 0 -> vy (direction r) <> 0 -> vz (direction r) <> 0 ->
  tmin r <= t <= tmax r -> in_aabb sc (ray_at r t) ->
  exists r',
    intersect_min_max sc r = (true, r')
    /\ origin r' = origin r /\ direction r' = direction r
    /\ tmin r <= tmin r' /\ tmin r' <= t <= tmax r' /\ tmax r' <= tmax r.
Proof.
  intros Hx Hy Hz Ht (Bx & By & Bz).
  unfold ray_at in Bx, By, Bz. destruct r as [[ox oy oz] [dx dy dz] lo hi].
  cbn [origin direction tmin tmax vx vy vz vadd vscale] in *.
  pose proof (slab_bounds _ _ _ _ _ Hx Bx) as Sx.
  pose proof (slab_bounds _ _ _ _ _ Hy By) as Sy.
  pose proof (slab_bounds _ _ _ _ _ Hz Bz) as Sz.
  unfold intersect_min_max.
  cbn [origin direction tmin tmax vx vy vz vsub vdiv].
  set (t_min := Rmax (Rmax _ _) _ - 1e-3).
  set (t_max := Rmin (Rmin _ _) _ + 1e-3).
  assert (Hlo : t_min <= t - 1e-3).
  { unfold t_min. apply Rplus_le_compat_r.
    repeat apply Rmax_lub; lra. }
  assert (Hhi : t + 1e-3 <= t_max).
  { unfold t_max. apply Rplus_le_compat_r.
    repeat apply Rmin_glb; lra. }
  unfold fgt. rewrite !flt_false by lra. cbn [orb].
  eexists. split; [reflexivity|].
  cbn [origin direction tmin tmax with_tmin with_tmax].
  repeat split; try reflexivity.
  - apply Rmax_r.
  - apply Rmax_lub; lra.
  - apply Rmin_glb; lra.
  - apply Rmin_r.
Qed.

Lemma intersect_min_max_keeps_box_points_witness :
  exists r',
    intersect_min_max one_triangle slant_ray = (true, r')
    /\ origin r' = origin slant_ray /\ direction r' = direction slant_ray
    /\ tmin slant_ray <= tmin r' /\ tmin r' <= 1 <= tmax r'
    /\ tmax r' <= tmax slant_ray.
Proof.
  apply (intersect_min_max_keeps_box_points one_triangle slant_ray 1).
  - simpl. lra.
  - simpl. lra.
  - simpl. lra.
  - simpl. lra.
  - unfold in_aabb, ray_at. simpl. lra.
Defined.

End BoundingBox.

(** ** Where a hit lies *)

Section HitGeometry.

Import W08 W08Spec SphereSpec GeomSpec BspSpec Scenes.

Lemma cauchy_schwarz (a b : vec3) : dot a b * dot a b <= dot a a * dot b b.
Proof.
  destruct a as [a1 a2 a3], b as [b1 b2 b3]. vsimpl.
  pose proof (Rle_0_sqr (a1 * b2 - a2 * b1)).
  pose proof (Rle_0_sqr (a2 * b3 - a3 * b2)).
  pose proof (Rle_0_sqr (a3 * b1 - a1 * b3)).
  unfold Rsqr in *. lra.
Qed.

Lemma normalize_unit (a : vec3) : 0 < dot a a -> dot (normalize a) (normalize a) = 1.
Proof.
  intros H. unfold normalize, length.
  pose proof (sqrt_sqrt (dot a a) ltac:(lra)) as Hs.
  pose proof (sqrt_lt_R0 (dot a a) H) as Hp.
  set (s := sqrt (dot a a)) in *.
  clearbody s. destruct a as [x y z]. revert H Hs. vsimpl. intros H Hs.
  replace (x / s * (x / s) + y / s * (y / s) + z / s * (z / s))
    with ((x * x + y * y + z * z) / (s * s)) by (field; lra).
  rewrite Hs. field. lra.
Qed.

Lemma normalize_of_unit (a : vec3) : dot a a = 1 -> normalize a = a.
Proof.
  intros H. unfold normalize, length. rewrite H, sqrt_1.
  destruct a as [x y z]. apply vec3_eq; vsimpl; field.
Qed.

(** Both roots of the quadratic are parameters of points of the
    sphere. *)
Lemma root_on_sphere (o d c : vec3) (radius t : R) :
  dot d d = 1 -> 0 <= discriminant o d c radius ->
  t = near_root o d c radius \/ t = far_root o d c radius ->
  dot (vsub (vadd o (vscale d t)) c) (vsub (vadd o (vscale d t)) c)
  = radius * radius.
Proof.
  intros Hd HD Ht.
  pose proof (sqrt_sqrt _ HD) as Hs.
  unfold near_root, far_root in Ht.
  set (s := sqrt (discriminant o d c radius)) in *. clearbody s.
  unfold discriminant, bhalf in *.
  destruct o as [o1 o2 o3], d as [d1 d2 d3], c as [c1 c2 c3].
  revert Hd Hs Ht. vsimpl. intros Hd Hs [Ht|Ht]; subst t; nsatz.
Qed.

(** X5: for a ray with unit direction, [intersect_sphere] either
    reports a miss and leaves the hit record as it is, or reports a hit
    whose distance lies in [tmin, tmax], whose position is the ray point
    at that distance and lies on the sphere, |position - center| =
    radius, and whose normal is the unit vector from the centre to that
    point. *)
Theorem sphere_hit_on_sphere (r : Ray) (hit : HitInfo) (c : vec3) (radius : R) :
  dot (direction r) (direction r) = 1 ->
  let res := intersect_sphere r hit c radius in
  (fst res = false /\ snd res = hit)
  \/ (fst res = true
      /\ has_hit (snd res) = true
      /\ tmin r <= distance (snd res) <= tmax r
      /\ position (snd res) = ray_at r (distance (snd res))
      /\ dot (vsub (position (snd res)) c) (vsub (position (snd res)) c)
         = radius * radius
      /\ normal (snd res) = normalize (vsub (position (snd res)) c)
      /\ dot (normal (snd res)) (normal (snd res)) = 1).
Proof.
  intros Hd. cbv zeta. rewrite w08_sphere_unfold. cbv zeta.
  destruct (flt_spec (discriminant (origin r) (direction r) c radius) 1e-8)
    as [|HD]; [left; split; reflexivity|].
  match goal with
  | |- context [if ?b then far_root ?o ?d ?cc ?rr else ?n] =>
    set (t := if b then far_root o d cc rr else n)
  end.
  assert (Ht : t = near_root (origin r) (direction r) c radius
               \/ t = far_root (origin r) (direction r) c radius).
  { unfold t.
    match goal with |- context [if ?b then _ else _] => destruct b end; auto. }
  clearbody t.
  destruct (flt_spec t (tmin r)); [left; split; reflexivity|].
  unfold fgt. destruct (flt_spec (tmax r) t); [left; split; reflexivity|].
  cbn [orb fst snd]. right.
  unfold sphere_record, ray_at.
  cbn [has_hit distance position normal with_normal with_position with_distance
       with_has_hit].
  pose proof (root_on_sphere (origin r) (direction r) c radius t Hd ltac:(lra) Ht)
    as Hon.
  repeat split; try lra; try assumption.
  apply normalize_unit. rewrite Hon.
  pose proof (cauchy_schwarz (vsub (origin r) c) (direction r)) as CS.
  rewrite Hd in CS. unfold discriminant, bhalf in HD. lra.
Qed.

Lemma sphere_hit_on_sphere_witness :
  let res := intersect_sphere inner_ray default_hitinfo vzero 1 in
  (fst res = false /\ snd res = default_hitinfo)
  \/ (fst res = true
      /\ has_hit (snd res) = true
      /\ tmin inner_ray <= distance (snd res) <= tmax inner_ray
      /\ position (snd res) = ray_at inner_ray (distance (snd res))
      /\ dot (vsub (position (snd res)) vzero) (vsub (position (snd res)) vzero)
         = 1 * 1
      /\ normal (snd res) = normalize (vsub (position (snd res)) vzero)
      /\ dot (normal (snd res)) (normal (snd res)) = 1).
Proof.
  apply (sphere_hit_on_sphere inner_ray default_hitinfo vzero 1).
  simpl. vsimpl. lra.
Defined.


End HitGeometry.

(** ** The traversal, one iteration at a time *)

Section Steps.

Import W08 TravSpec TravStep.
Variable sc : Scene.

Lemma trimesh_loop_step (fuel : nat) (st : Trav) :
  trimesh_loop sc (S fuel) st
  = match step sc st with
    | inl res => Some res
    | inr st' => trimesh_loop sc fuel st'
    end.
Proof.
  cbn [trimesh_loop]. unfold step.
  destruct (negb _); [reflexivity|].
  destruct (_ =? BSP_LEAF)%Z.
  - destruct (leaf_loop sc _ _ _ _) as [[found r] hit].
    destruct found; [reflexivity|].
    destruct (_ =? 0)%Z; reflexivity.
  - destruct (fge _ _); [reflexivity|]. destruct (fle _ _); reflexivity.
Qed.

(** A property of the states that every iteration keeps holds for
    whatever the loop returns. *)
Lemma trimesh_loop_invariant (P : Trav -> Prop) (Q : bool * Ray * HitInfo -> Prop) :
  (forall st st', P st -> step sc st = inr st' -> P st') ->
  (forall st res, P st -> step sc st = inl res -> Q res) ->
  forall fuel st res, P st -> trimesh_loop sc fuel st = Some res -> Q res.
Proof.
  intros Hstep Hret. induction fuel as [|fuel IH]; intros st res HP; [discriminate|].
  rewrite trimesh_loop_step.
  destruct (step sc st) as [res0|st'] eqn:E.
  - intros H. injection H as <-. exact (Hret st res0 HP E).
  - apply IH. exact (Hstep st st' HP E).
Qed.

Lemma trimesh_loop_more_fuel (fuel k : nat) (st : Trav) (res : bool * Ray * HitInfo) :
  trimesh_loop sc fuel st = Some res -> trimesh_loop sc (fuel + k) st = Some res.
Proof.
  revert st. induction fuel as [|fuel IH]; intros st; [discriminate|].
  cbn [Nat.add]. rewrite !trimesh_loop_step.
  destruct (step sc st) as [res0|st']; [trivial | apply IH].
Qed.

End Steps.

Section Frame.

Import W08 W08Spec TravSpec TravStep BspSpec GeomSpec.
Variable sc : Scene.

Lemma step_trav_inv (st st' : Trav) :
  trav_inv st -> step sc st = inr st' -> trav_inv st'.
Proof.
  intros (Hi & Hl & Hbn & Hbr & Hok). unfold step, MAX_LEVEL.
  destruct (Z.leb_spec (t_i st) 20) as [Hi20|Hi20]; cbn [negb]; [|discriminate].
  specialize (Hok Hi20).
  pose proof (stack_ok_height _ _ _ Hok) as Hh.
  assert (Hi1 : u32_add (t_i st) 1 = (t_i st + 1)%Z)
    by (unfold u32_add; apply wrap32_small; lia).
  destruct (_ =? BSP_LEAF)%Z.
  - destruct (leaf_loop sc _ _ _ _) as [[found r'] hit'].
    destruct found; [discriminate|].
    destruct (Z.eqb_spec (t_branch_lvl st) 0) as [Hz|Hz]; [discriminate|].
    assert (Hl1 : u32_sub (t_branch_lvl st) 1 = (t_branch_lvl st - 1)%Z)
      by (unfold u32_sub; apply wrap32_small; lia).
    rewrite Hl1.
    remember (Z.to_nat (t_branch_lvl st - 1)) as k eqn:Hk.
    assert (Hlvl : Z.to_nat (t_branch_lvl st) = S k) by lia.
    rewrite Hlvl in Hok. simpl in Hok. destruct Hok as [Hlt Hok'].
    pose proof (stack_ok_height _ _ _ Hok') as Hh'.
    unfold get. rewrite <- Hk.
    set (l := fst (nth k (t_branch_node st) (0%Z, 0%Z))) in *.
    assert (Hl' : u32_add l 1 = (l + 1)%Z)
      by (unfold u32_add; apply wrap32_small; lia).
    rewrite Hl'. intros E. injection E as <-.
    unfold trav_inv; cbn [t_i t_branch_lvl t_branch_node t_branch_ray].
    rewrite <- Hk. repeat split; try lia; try assumption.
    intros _. apply stack_ok_weaken with l; [exact Hok' | lia].
  - rewrite Hi1.
    assert (Hl1 : u32_add (t_branch_lvl st) 1 = (t_branch_lvl st + 1)%Z)
      by (unfold u32_add; apply wrap32_small; lia).
    destruct (fge _ (tmax (t_r st))); [|destruct (fle _ (tmin (t_r st)))];
      intros E; injection E as <-;
      unfold trav_inv; cbn [t_i t_branch_lvl t_branch_node t_branch_ray].
    + repeat split; try lia; try assumption.
      intros _. apply stack_ok_weaken with (t_i st); [exact Hok | lia].
    + repeat split; try lia; try assumption.
      intros _. apply stack_ok_weaken with (t_i st); [exact Hok | lia].
    + rewrite Hl1. unfold set. rewrite !set_nth_length.
      repeat split; try lia; try assumption.
      intros Hle.
      replace (Z.to_nat (t_branch_lvl st + 1)) with (S (Z.to_nat (t_branch_lvl st)))
        by lia.
      simpl. rewrite nth_set_nth_same by lia. simpl.
      split; [lia|]. apply stack_ok_set; [lia | exact Hok].
Qed.

Lemma fge_cases (x y : R) : (fge x y = true /\ y <= x) \/ (fge x y = false /\ x < y).
Proof. unfold fge. destruct (fle_spec y x); [left | right]; split; auto; lra. Qed.

Lemma trav_inv_start (r : Ray) (hit : HitInfo) :
  trav_inv (mkTrav 0 0 0 branch_node0 branch_ray0 r hit).
Proof.
  unfold trav_inv, branch_node0, branch_ray0;
    cbn [t_i t_branch_lvl t_branch_node t_branch_ray].
  rewrite !repeat_length. repeat split; try lia; try reflexivity.
  intros _. simpl. lia.
Qed.

(** The loop over a leaf keeps the ray's origin, direction and [tmin],
    never raises [tmax], and leaves ray and hit record alone unless a
    triangle is hit. *)
Lemma leaf_loop_frame (count id : Z) (r : Ray) (hit : HitInfo) :
  forall found r' hit',
    leaf_loop sc count id r hit = (found, r', hit') ->
    origin r' = origin r /\ direction r' = direction r /\ tmin r' = tmin r
    /\ tmax r' <= tmax r
    /\ (found = false -> r' = r /\ hit' = hit)
    /\ (found = true -> hit_within sc (origin r) (direction r) (tmin r) (tmax r) r' hit').
Proof.
  unfold leaf_loop.
  set (J := fun st : bool * Ray * HitInfo =>
    let '(found, r', hit') := st in
    origin r' = origin r /\ direction r' = direction r /\ tmin r' = tmin r
    /\ tmax r' <= tmax r
    /\ (found = false -> r' = r /\ hit' = hit)
    /\ (found = true -> hit_within sc (origin r) (direction r) (tmin r) (tmax r) r' hit')).
  assert (Hfold : forall js st, J st -> J (fold_left (leaf_body sc id) js st)).
  { induction js as [|j js IH]; intros st HJ; [exact HJ|].
    cbn [fold_left]. apply IH. clear IH.
    destruct st as [[found r1] h1]. unfold J in HJ |- *.
    destruct HJ as (Ho & Hd & Hlo & Hhi & Hf & Ht).
    unfold leaf_body.
    set (idx := get 0%Z (treeIds sc) (u32_add id j)).
    destruct (intersect_triangle sc r1 h1 idx) as [b h2] eqn:E.
    destruct b.
    - apply intersect_triangle_true in E. destruct E as (Hin & Hr & ->).
      cbn [origin direction tmin tmax with_tmax].
      split; [exact Ho|]. split; [exact Hd|]. split; [exact Hlo|].
      assert (Hdist : distance (with_triangle_idx idx (tri_record sc r1 h1 idx))
                      = tri_t sc (origin r1) (direction r1) idx) by reflexivity.
      change (distance (tri_record sc r1 h1 idx))
        with (tri_t sc (origin r1) (direction r1) idx).
      split; [lra|]. split; [discriminate|]. intros _.
      unfold hit_within. rewrite Hdist. cbn [tmax with_tmax].
      split; [reflexivity|]. split; [lra|]. split; [reflexivity|].
      rewrite <- Ho, <- Hd. split; [reflexivity|].
      apply candidate_on_triangle. split; [exact Hin | reflexivity].
    - apply intersect_triangle_false in E. subst h2.
      repeat split; try assumption; try (apply Hf; assumption); apply Ht; assumption. }
  intros found r' hit' E.
  specialize (Hfold (range count) (false, r, hit)).
  rewrite E in Hfold. apply Hfold. unfold J.
  repeat split; try reflexivity; try lra; discriminate.
Qed.

Lemma step_frame_inv (r0 : Ray) (hit0 : HitInfo) (st st' : Trav) :
  frame_inv r0 hit0 st -> step sc st = inr st' -> frame_inv r0 hit0 st'.
Proof.
  intros (Hinv & Ho & Hd & Hh & Hlo & Hhi & Hst) E.
  split; [exact (step_trav_inv st st' Hinv E)|].
  destruct Hinv as (Hi & Hl & Hbn & Hbr & Hok).
  revert E. unfold step, MAX_LEVEL.
  destruct (Z.leb_spec (t_i st) 20) as [Hi20|Hi20]; cbn [negb]; [|discriminate].
  specialize (Hok Hi20). specialize (Hst Hi20).
  pose proof (stack_ok_height _ _ _ Hok) as Hht.
  destruct (_ =? BSP_LEAF)%Z.
  - destruct (leaf_loop sc _ _ _ _) as [[found r'] hit'] eqn:EL.
    apply leaf_loop_frame in EL.
    destruct EL as (Lo & Ld & Lmin & Lmax & Lf & _).
    destruct found; [discriminate|].
    destruct (Lf eq_refl) as [-> ->].
    destruct (Z.eqb_spec (t_branch_lvl st) 0) as [Hz|Hz]; [discriminate|].
    assert (Hl1 : u32_sub (t_branch_lvl st) 1 = (t_branch_lvl st - 1)%Z)
      by (unfold u32_sub; apply wrap32_small; lia).
    rewrite Hl1. intros E. injection E as <-.
    cbn [t_i t_r t_hit t_branch_lvl t_branch_ray origin direction tmin tmax
         with_tmax with_tmin].
    unfold get.
    destruct (Hst (Z.to_nat (t_branch_lvl st - 1)) ltac:(lia)) as [S1 S2].
    repeat split; try assumption.
    + apply Hst. lia.
    + apply Hst. lia.
  - set (ts := _ / _).
    destruct (fge_cases ts (tmax (t_r st))) as [[-> Ha]|[-> Ha]].
    + intros E. injection E as <-.
      cbn [t_i t_r t_hit t_branch_lvl t_branch_ray].
      repeat split; try assumption; apply Hst; assumption.
    + destruct (fle_spec ts (tmin (t_r st))) as [Hb|Hb].
      * intros E. injection E as <-.
        cbn [t_i t_r t_hit t_branch_lvl t_branch_ray].
        repeat split; try assumption; apply Hst; assumption.
      * intros E. injection E as <-.
        cbn [t_i t_r t_hit t_branch_lvl t_branch_ray origin direction tmin tmax
             with_tmax].
        assert (Hl1 : u32_add (t_branch_lvl st) 1 = (t_branch_lvl st + 1)%Z)
          by (unfold u32_add; apply wrap32_small; lia).
        assert (Hi1 : u32_add (t_i st) 1 = (t_i st + 1)%Z)
          by (unfold u32_add; apply wrap32_small; lia).
        rewrite Hl1, Hi1.
        split; [exact Ho|]. split; [exact Hd|]. split; [exact Hh|].
        split; [exact Hlo|]. split; [lra|].
        intros Hle k Hk. unfold set.
        destruct (Nat.eq_dec k (Z.to_nat (t_branch_lvl st))) as [->|Hne].
        -- rewrite nth_set_nth_same by lia. cbn [fst snd]. lra.
        -- rewrite nth_set_nth_other by exact Hne. apply Hst. lia.
Qed.

Lemma step_frame_result (r0 : Ray) (hit0 : HitInfo) (st : Trav)
  (res : bool * Ray * HitInfo) :
  frame_inv r0 hit0 st -> step sc st = inl res -> frame_result sc r0 hit0 res.
Proof.
  intros (Hinv & Ho & Hd & Hh & Hlo & Hhi & Hst). unfold step, frame_result.
  destruct (negb _).
  { intros E. injection E as <-.
    split; [assumption|]. split; [assumption|]. split; [intros _; assumption|].
    discriminate. }
  destruct (_ =? BSP_LEAF)%Z.
  - destruct (leaf_loop sc _ _ _ _) as [[found r'] hit'] eqn:EL.
    apply leaf_loop_frame in EL.
    destruct EL as (Lo & Ld & Lmin & Lmax & Lf & Lt).
    destruct found.
    + intros E. injection E as <-.
      split; [congruence|]. split; [congruence|]. split; [discriminate|].
      intros _. destruct (Lt eq_refl) as (H1 & H2 & H3 & H4 & H5).
      rewrite Ho, Hd in H4.
      repeat split; try assumption; lra.
    + destruct (Lf eq_refl) as [-> ->].
      destruct (_ =? 0)%Z; [|discriminate].
      intros E. injection E as <-.
      split; [assumption|]. split; [assumption|]. split; [intros _; assumption|].
      discriminate.
  - destruct (fge _ _); [discriminate|]. destruct (fle _ _); discriminate.
Qed.

End Frame.

(** ** What the traversal and the scene query return *)

Section FrameTheorems.

Import W08 W08Spec TravSpec TravStep BspSpec GeomSpec SphereSpec.
Variable sc : Scene.

Lemma trimesh_frame (fuel : nat) (r r' : Ray) (hit hit' : HitInfo)
  (found : bool) :
  intersect_trimesh sc fuel r hit = Some (found, r', hit') ->
  origin r' = origin r /\ direction r' = direction r
  /\ (found = false -> hit' = hit)
  /\ (found = true ->
      has_hit hit' = true
      /\ tmin r <= distance hit' <= tmax r
      /\ tmax r' = distance hit'
      /\ position hit' = vadd (origin r) (vscale (direction r) (distance hit'))
      /\ on_triangle sc (triangle_idx hit') (position hit')).
Proof.
  unfold intersect_trimesh. intros E.
  apply (trimesh_loop_invariant sc (frame_inv r hit) (frame_result sc r hit)
           (step_frame_inv sc r hit) (step_frame_result sc r hit) fuel _ _) in E.
  - exact E.
  - split; [apply trav_inv_start|].
    cbn [t_r t_hit t_i t_branch_lvl t_branch_ray].
    repeat split; try reflexivity; try lra.
    all: simpl in *; lia.
Qed.


Lemma intersect_trimesh_stable (n : nat) (r : Ray) (hit : HitInfo)
  (res : bool * Ray * HitInfo) :
  intersect_trimesh sc n r hit = Some res ->
  forall fuel : nat, (n <= fuel)%nat -> intersect_trimesh sc fuel r hit = Some res.
Proof.
  intros E fuel Hf.
  rewrite <- (Nat.sub_add n fuel Hf), Nat.add_comm.
  unfold intersect_trimesh in *. apply trimesh_loop_more_fuel. exact E.
Qed.

Lemma trimesh_returns_for_any_buffers (r : Ray) (hit : HitInfo) :
  exists res,
    forall fuel : nat, (full_fuel <= fuel)%nat ->
      intersect_trimesh sc fuel r hit = Some res.
Proof.
  destruct (intersect_trimesh_terminates sc full_fuel r hit (Nat.le_refl _))
    as [res E].
  exists res. exact (intersect_trimesh_stable full_fuel r hit res E).
Qed.

Lemma intersect_scene_stable (n : nat) (r : Ray) (hit : HitInfo)
  (res : bool * Ray * HitInfo) :
  intersect_scene sc n r hit = Some res ->
  forall fuel : nat, (n <= fuel)%nat -> intersect_scene sc fuel r hit = Some res.
Proof.
  intros E fuel Hf. revert E. unfold intersect_scene.
  destruct (intersect_min_max sc r) as [ok r0].
  destruct ok; cbn [negb]; [|trivial].
  destruct (intersect_sphere r0 hit _ _) as [b1 h1].
  destruct (if b1 then _ else _) as [r1 h1'].
  destruct (intersect_sphere r1 h1' _ _) as [b2 h2].
  destruct (if b2 then _ else _) as [r2 h2'].
  destruct (intersect_trimesh sc n r2 h2') as [res3|] eqn:E3; [|discriminate].
  rewrite (intersect_trimesh_stable n r2 h2' res3 E3 fuel Hf). trivial.
Qed.

Lemma lambertian_stable (n : nat) (r : Ray) (hit : HitInfo) (t : Z)
  (res : vec3 * Ray * HitInfo * Z) :
  lambertian sc n r hit t = Some res ->
  forall fuel : nat, (n <= fuel)%nat -> lambertian sc fuel r hit t = Some res.
Proof.
  intros E fuel Hf. revert E. unfold lambertian.
  destruct (sample_area_light sc (position hit) t) as [light t1].
  destruct (intersect_scene sc n _ default_hitinfo) as [res1|] eqn:E1;
    [|discriminate].
  rewrite (intersect_scene_stable n _ _ res1 E1 fuel Hf). trivial.
Qed.

Lemma shade_stable (n : nat) (r : Ray) (hit : HitInfo) (t : Z)
  (res : vec3 * Ray * HitInfo * Z) :
  shade sc n r hit t = Some res ->
  forall fuel : nat, (n <= fuel)%nat -> shade sc fuel r hit t = Some res.
Proof.
  intros E fuel Hf. revert E. unfold shade.
  destruct (shader hit =? 1)%Z; [|trivial].
  intros E. exact (lambertian_stable n r hit t res E fuel Hf).
Qed.

Lemma bounces_stable (n k : nat) (fuel : nat) :
  (n <= fuel)%nat ->
  forall (res : vec3) (r : Ray) (hit : HitInfo) (t : Z) (out : vec3),
    bounces sc n k res r hit t = Some out ->
    bounces sc fuel k res r hit t = Some out.
Proof.
  intros Hf. induction k as [|k IH]; intros res r hit t out; [trivial|].
  cbn [bounces].
  destruct (intersect_scene sc n r hit) as [res1|] eqn:E1; [|discriminate].
  rewrite (intersect_scene_stable n r hit res1 E1 fuel Hf).
  destruct res1 as [[b r1] h1]. cbn [obind].
  destruct b; [|trivial].
  destruct (shade sc n r1 h1 t) as [res2|] eqn:E2; [|discriminate].
  rewrite (shade_stable n r1 h1 t res2 E2 fuel Hf).
  destruct res2 as [[[c r2] h2] t2]. cbn [obind].
  destruct (has_hit h2); [trivial | apply IH].
Qed.

Lemma shade_terminates (fuel : nat) (r : Ray) (hit : HitInfo) (t : Z) :
  (full_fuel <= fuel)%nat -> exists res, shade sc fuel r hit t = Some res.
Proof.
  intros Hf. unfold shade.
  destruct (shader hit =? 1)%Z.
  - unfold lambertian.
    destruct (sample_area_light sc (position hit) t) as [light t1].
    destruct (intersect_scene_terminates sc fuel (shadow_ray hit light)
                default_hitinfo Hf) as (occ & r2 & h2 & E).
    rewrite E. cbn [obind].
    destruct (Rng.rnd t1) as [xi t2].
    destruct (flt xi _); [|eexists; reflexivity].
    destruct (sample_cosine_weighted_direction _ t2) as [dir t3].
    eexists; reflexivity.
  - destruct (shader hit =? 3)%Z; [eexists; reflexivity|].
    destruct (shader hit =? 6)%Z; eexists; reflexivity.
Qed.

Lemma bounces_terminates (fuel k : nat) :
  (full_fuel <= fuel)%nat ->
  forall (res : vec3) (r : Ray) (hit : HitInfo) (t : Z),
    exists out, bounces sc fuel k res r hit t = Some out.
Proof.
  intros Hf. induction k as [|k IH]; intros res r hit t; [eexists; reflexivity|].
  cbn [bounces].
  destruct (intersect_scene_terminates sc fuel r hit Hf) as (b & r1 & h1 & E).
  rewrite E. cbn [obind].
  destruct b; [|eexists; reflexivity].
  destruct (shade_terminates fuel r1 h1 t Hf) as [[[[c r2] h2] t2] E2].
  rewrite E2. cbn [obind].
  destruct (has_hit h2); [eexists; reflexivity | apply IH].
Qed.

Lemma main_fs_stable (n fuel : nat) (fx fy cx cy : R) (out : vec3 * vec3) :
  (n <= fuel)%nat ->
  main_fs sc n fx fy cx cy = Some out -> main_fs sc fuel fx fy cx cy = Some out.
Proof.
  intros Hf. unfold main_fs.
  destruct (Rng.rnd _) as [j1 t1]. destruct (Rng.rnd t1) as [j2 t2].
  destruct (bounces sc n 10 vzero _ default_hitinfo t2) as [res|] eqn:E;
    [|discriminate].
  rewrite (bounces_stable n 10 fuel Hf _ _ _ _ _ E). trivial.
Qed.

Lemma main_fs_terminates (fx fy cx cy : R) :
  exists out, main_fs sc full_fuel fx fy cx cy = Some out.
Proof.
  unfold main_fs.
  destruct (Rng.rnd _) as [j1 t1]. destruct (Rng.rnd t1) as [j2 t2].
  destruct (bounces_terminates full_fuel 10 (Nat.le_refl _) vzero
              (mkRay (eye_point (uniforms sc))
                 (normalize
                    (vadd (vadd (vscale (b1 (uniforms sc))
                                   (cx * aspect (uniforms sc) * 0.5
                                    + j1 / (f32_of_u32 (height (uniforms sc)) * 2)))
                                (vscale (b2 (uniforms sc))
                                   (cy * 0.5
                                    + j2 / (f32_of_u32 (height (uniforms sc)) * 2))))
                          (vscale (v (uniforms sc)) (camera_constant (uniforms sc)))))
                 1e-4 1e10) default_hitinfo t2) as [res E].
  rewrite E. cbn [obind]. eexists; reflexivity.
Qed.

(** X8: [intersect_trimesh] and with it the whole fragment shader
    [main_fs] return for every content of the buffers, also one that
    encodes no tree: the loop makes at most 2^21 iterations, each of the
    at most 10 bounces makes one scene query and at most one shadow
    query, and the result does not depend on the iteration budget once
    it reaches 2^21. *)
Theorem path_tracer_returns (r : Ray) (hit : HitInfo) (fx fy cx cy : R) :
  (exists res,
     forall fuel : nat, (full_fuel <= fuel)%nat ->
       intersect_trimesh sc fuel r hit = Some res)
  /\ (exists out,
        forall fuel : nat, (full_fuel <= fuel)%nat ->
          main_fs sc fuel fx fy cx cy = Some out).
Proof.
  split; [apply trimesh_returns_for_any_buffers|].
  destruct (main_fs_terminates fx fy cx cy) as [out E].
  exists out. intros fuel Hf. exact (main_fs_stable full_fuel fuel fx fy cx cy out Hf E).
Qed.

Lemma sphere_result (r : Ray) (hit hit' : HitInfo) (c : vec3) (radius : R) (b : bool) :
  intersect_sphere r hit c radius = (b, hit') ->
  (b = false /\ hit' = hit)
  \/ (b = true /\ has_hit hit' = true
      /\ tmin r <= distance hit' <= tmax r
      /\ position hit' = vadd (origin r) (vscale (direction r) (distance hit'))).
Proof.
  rewrite w08_sphere_unfold. cbv zeta.
  destruct (flt _ 1e-8); [intros E; injection E as <- <-; left; auto|].
  match goal with
  | |- context [if ?c then far_root ?o ?d ?cc ?rr else ?n] =>
    set (t := if c then far_root o d cc rr else n)
  end.
  clearbody t.
  destruct (flt_spec t (tmin r)); [intros E; injection E as <- <-; left; auto|].
  unfold fgt. destruct (flt_spec (tmax r) t);
    intros E; injection E as <- <-; [left; auto|].
  right. unfold sphere_record.
  cbn [has_hit distance position with_normal with_position with_distance with_has_hit].
  repeat split; try reflexivity; lra.
Qed.

Lemma scene_frame (fuel : nat) (r r' : Ray) (hit hit' : HitInfo)
  (b : bool) :
  has_hit hit = false ->
  intersect_scene sc fuel r hit = Some (b, r', hit') ->
  b = has_hit hit'
  /\ origin r' = origin r /\ direction r' = direction r
  /\ (b = true ->
      tmin r <= distance hit' <= tmax r
      /\ position hit' = vadd (origin r) (vscale (direction r) (distance hit'))).
Proof.
  intros Hh. unfold intersect_scene.
  destruct (intersect_min_max sc r) as [ok r0] eqn:E0.
  apply intersect_min_max_shrinks in E0.
  destruct E0 as (O0 & D0 & L0 & U0 & F0).
  destruct ok; cbn [negb].
  2:{ intros E. injection E as <- <- <-. rewrite (F0 eq_refl).
      repeat split; try reflexivity; try discriminate. symmetry; exact Hh. }
  clear F0.
  (* the invariant carried through the three tests *)
  set (J := fun (rk : Ray) (hk : HitInfo) =>
    origin rk = origin r /\ direction rk = direction r
    /\ tmin r <= tmin rk /\ tmax rk <= tmax r
    /\ (has_hit hk = true ->
        tmin r <= distance hk <= tmax r
        /\ position hk = vadd (origin r) (vscale (direction r) (distance hk)))).
  assert (J0 : J r0 hit).
  { unfold J. repeat split; try assumption; rewrite Hh in *; discriminate. }
  assert (Jsphere : forall rk hk c radius (f : HitInfo -> HitInfo),
    (forall h, has_hit (f h) = has_hit h /\ distance (f h) = distance h
               /\ position (f h) = position h) ->
    J rk hk ->
    J (fst (let '(b, h) := intersect_sphere rk hk c radius in
            if b then (with_tmax (distance (f h)) rk, f h) else (rk, h)))
      (snd (let '(b, h) := intersect_sphere rk hk c radius in
            if b then (with_tmax (distance (f h)) rk, f h) else (rk, h)))).
  { intros rk hk c radius f Hf (Ok & Dk & Lk & Uk & Hk).
    destruct (intersect_sphere rk hk c radius) as [bk h] eqn:Es.
    apply sphere_result in Es.
    destruct Es as [[-> ->]|(-> & S1 & S2 & S3)]; cbn [fst snd].
    - unfold J. repeat split; try assumption; apply Hk; assumption.
    - destruct (Hf h) as (F1 & F2 & F3).
      unfold J. cbn [origin direction tmin tmax with_tmax].
      rewrite F1, F2, F3, S3, Ok, Dk.
      repeat split; try reflexivity; try assumption; lra. }
  pose proof (Jsphere r0 hit (V3 420 90 370) 90 (with_shader 3)
                ltac:(intros h; repeat split) J0) as J1.
  destruct (intersect_sphere r0 hit (V3 420 90 370) 90) as [b1 h1].
  assert (E1 : (if b1 then (with_tmax (distance h1) r0, with_shader 3 h1) else (r0, h1))
               = (if b1 then (with_tmax (distance (with_shader 3 h1)) r0, with_shader 3 h1)
                  else (r0, h1))) by reflexivity.
  rewrite E1. clear E1.
  destruct (if b1 then _ else _) as [r1 h1']. cbn [fst snd] in J1.
  pose proof (Jsphere r1 h1' (V3 130 90 250) 90
                (fun h => with_extinction (V3 0.01 1 0)
                            (with_shader 6 (with_ior1_over_ior2 (1 / 1.5) h)))
                ltac:(intros h; repeat split) J1) as J2.
  cbv beta in J2.
  destruct (intersect_sphere r1 h1' (V3 130 90 250) 90) as [b2 h2].
  match goal with
  | |- context [if b2 then ?x else ?y] =>
    change (if b2 then x else y)
      with (if b2
            then (with_tmax
                    (distance (with_extinction (V3 0.01 1 0)
                                 (with_shader 6 (with_ior1_over_ior2 (1 / 1.5) h2))))
                    r1,
                  with_extinction (V3 0.01 1 0)
                    (with_shader 6 (with_ior1_over_ior2 (1 / 1.5) h2)))
            else (r1, h2))
  end.
  destruct (if b2 then _ else _) as [r2 h2']. cbn [fst snd] in J2.
  destruct J2 as (O2 & D2 & L2 & U2 & H2).
  destruct (intersect_trimesh sc fuel r2 h2') as [[[b3 r3] h3]|] eqn:E3;
    cbn [obind]; [|discriminate].
  apply trimesh_frame in E3.
  destruct E3 as (O3 & D3 & F3 & T3).
  destruct b3.
  - destruct (T3 eq_refl) as (T1 & T2 & _ & T4 & _).
    intros E. injection E as <- <- <-.
    cbn [has_hit distance position origin direction with_tmax with_shader
         with_emission with_diffuse].
    rewrite T1, T4, O2, D2.
    repeat split; try reflexivity; try congruence; lra.
  - rewrite (F3 eq_refl).
    intros E. injection E as <- <- <-.
    repeat split; try congruence; apply H2; assumption.
Qed.

(** X9: started on a record without a hit, [intersect_scene] returns
    the hit flag of the record it leaves, with the origin and direction
    of the ray unchanged; on a hit, whichever of the two spheres and the
    mesh it comes from, the distance lies in the [tmin, tmax] the ray
    came with and the position is the ray point at that distance: a
    shadow ray never reports an occluder beyond its [tmax]. *)
Theorem scene_hit_within_interval (fuel : nat) (r : Ray) (hit : HitInfo) :
  has_hit hit = false -> (full_fuel <= fuel)%nat ->
  exists b r' hit',
    intersect_scene sc fuel r hit = Some (b, r', hit')
    /\ b = has_hit hit'
    /\ origin r' = origin r /\ direction r' = direction r
    /\ (b = true ->
        tmin r <= distance hit' <= tmax r
        /\ position hit' = ray_at r (distance hit')).
Proof.
  intros Hh Hf.
  destruct (intersect_scene_terminates sc fuel r hit Hf) as (b & r' & hit' & E).
  exists b, r', hit'. split; [exact E|].
  exact (scene_frame fuel r r' hit hit' b Hh E).
Qed.

End FrameTheorems.


Lemma scene_hit_within_interval_witness :
  exists b r' hit',
    W08.intersect_scene Scenes.one_triangle TravSpec.full_fuel Scenes.down_ray
      W08.default_hitinfo = Some (b, r', hit')
    /\ b = W08.has_hit hit'
    /\ W08.origin r' = W08.origin Scenes.down_ray
    /\ W08.direction r' = W08.direction Scenes.down_ray
    /\ (b = true ->
        W08.tmin Scenes.down_ray <= W08.distance hit' <= W08.tmax Scenes.down_ray
        /\ W08.position hit' = GeomSpec.ray_at Scenes.down_ray (W08.distance hit')).
Proof.
  apply (scene_hit_within_interval Scenes.one_triangle TravSpec.full_fuel
           Scenes.down_ray W08.default_hitinfo).
  - reflexivity.
  - apply Nat.le_refl.
Defined.

(** ** The traversal of a well-formed tree *)

Section NearestHit.

Import W08 W08Spec BspSpec TravSpec GeomSpec Scenes.



End NearestHit.

(** ** Reflection and refraction *)

Section Dielectric.

Import W08 BsdfSpec RefractSpec TravSpec Scenes.

Lemma ratio_sqr_le_1 (a b : R) :
  0 <= a -> 0 <= b -> 0 < a + b ->
  0 <= (a - b) / (a + b) * ((a - b) / (a + b)) <= 1.
Proof.
  intros Ha Hb Hab.
  set (q := (a - b) / (a + b)).
  assert (E : q * (a + b) = a - b) by (unfold q; field; lra).
  assert (H1 : -1 <= q).
  { apply Rmult_le_reg_r with (a + b); [exact Hab|]. rewrite E. lra. }
  assert (H2 : q <= 1).
  { apply Rmult_le_reg_r with (a + b); [exact Hab|]. rewrite E. lra. }
  nra.
Qed.

(** X11: for cosines that are not negative and not both zero and a
    positive ratio of indices, [fresnel_R] lies in [0, 1], so the
    comparison [rnd(t) < R] in [transparent] is a choice with
    probability R; R is 0 for equal indices at equal cosines and 1 at
    the critical angle, where the cosine of the refracted direction is
    0. *)
Theorem fresnel_R_is_probability (ci ct ior : R) :
  0 <= ci -> 0 <= ct -> 0 < ior -> 0 < ci + ct ->
  0 <= fresnel_R ci ct ior <= 1
  /\ (ior = 1 -> ci = ct -> fresnel_R ci ct ior = 0)
  /\ (ct = 0 -> fresnel_R ci ct ior = 1).
Proof.
  intros Hi Ht He Hs. unfold fresnel_R. cbv zeta.
  assert (P1 : 0 <= ior * ci) by (apply Rmult_le_pos; lra).
  assert (P2 : 0 <= ior * ct) by (apply Rmult_le_pos; lra).
  assert (S1 : 0 < ior * ci + ct) by nra.
  assert (S2 : 0 < ci + ior * ct) by nra.
  pose proof (ratio_sqr_le_1 (ior * ci) ct P1 Ht S1) as B1.
  pose proof (ratio_sqr_le_1 ci (ior * ct) Hi P2 S2) as B2.
  split; [lra|]. split.
  - intros -> ->. field. lra.
  - intros ->. assert (Hci : 0 < ci) by lra.
    replace ((ior * ci - 0) / (ior * ci + 0)) with 1 by (field; nra).
    replace ((ci - ior * 0) / (ci + ior * 0)) with 1 by (field; nra).
    lra.
Qed.

Lemma fresnel_R_is_probability_witness :
  0 <= fresnel_R 1 1 (2/3) <= 1
  /\ (2/3 = 1 -> 1 = 1 -> fresnel_R 1 1 (2/3) = 0)
  /\ (1 = 0 -> fresnel_R 1 1 (2/3) = 1).
Proof. apply (fresnel_R_is_probability 1 1 (2/3)); lra. Defined.

Lemma reflect_dot (d n : vec3) :
  dot n n = 1 ->
  dot (reflect d n) n = - dot d n
  /\ dot (reflect d n) (reflect d n) = dot d d.
Proof.
  destruct d as [d1 d2 d3], n as [n1 n2 n3]. vsimpl. intros H. split; nsatz.
Qed.

(** X12: [mirror] continues the path from the hit position with the
    hit flag cleared, [emit] set and zero radiance; for a unit normal the
    new direction has the length of the old one, and its component along
    the normal is that of the old one with the sign changed, so the
    angle of reflection equals the angle of incidence; reflecting twice
    gives the direction back. *)
Theorem mirror_law_of_reflection (r : Ray) (hit : HitInfo) :
  dot (normal hit) (normal hit) = 1 ->
  let res := mirror r hit in
  let r' := snd (fst res) in
  fst (fst res) = vzero
  /\ origin r' = position hit /\ tmin r' = 1e-3 /\ tmax r' = 1e6
  /\ has_hit (snd res) = false /\ emit (snd res) = true
  /\ dot (direction r') (normal hit) = - dot (direction r) (normal hit)
  /\ dot (direction r') (direction r') = dot (direction r) (direction r)
  /\ reflect (direction r') (normal hit) = direction r.
Proof.
  intros Hn. cbv zeta. unfold mirror.
  cbn [fst snd origin direction tmin tmax has_hit emit position normal
       with_has_hit with_emit with_origin with_direction with_tmin with_tmax].
  destruct (reflect_dot (direction r) (normal hit) Hn) as [R1 R2].
  repeat split; try reflexivity; try assumption.
  destruct (direction r) as [d1 d2 d3], (normal hit) as [n1 n2 n3].
  revert Hn. vsimpl. intros Hn. apply vec3_eq; vsimpl; nsatz.
Qed.

Lemma mirror_law_of_reflection_witness :
  let res := mirror steep_ray glass_hit in
  let r' := snd (fst res) in
  fst (fst res) = vzero
  /\ origin r' = position glass_hit /\ tmin r' = 1e-3 /\ tmax r' = 1e6
  /\ has_hit (snd res) = false /\ emit (snd res) = true
  /\ dot (direction r') (normal glass_hit) = - dot (direction steep_ray) (normal glass_hit)
  /\ dot (direction r') (direction r') = dot (direction steep_ray) (direction steep_ray)
  /\ reflect (direction r') (normal glass_hit) = direction steep_ray.
Proof.
  apply (mirror_law_of_reflection steep_ray glass_hit). simpl. vsimpl. lra.
Defined.

Lemma transparent_unfold (r : Ray) (hit : HitInfo) (t : Z) :
  ~ exiting r hit \/ fst (Rng.rnd t) < survival hit ->
  sin2thetat r hit <= 1 ->
  let h := with_has_hit false (absorbed r hit) in
  let r0 := with_tmax 1e6 (with_tmin 1e-3 (with_origin (position hit) r)) in
  let t1 := absorbed_seed r hit t in
  transparent r hit t
  = if flt (fst (Rng.rnd t1)) (reflectance r hit)
    then (vzero, with_direction (reflect (direction r) (normal hit)) r0, h,
          snd (Rng.rnd t1))
    else (vzero,
          with_direction
            (normalize
               (vsub (vscale (vsub (vscale (facing_normal r hit) (cos_in r hit))
                                   (vneg (direction r))) (eta_eff r hit))
                     (vscale (facing_normal r hit) (costhetat r hit)))) r0,
          h, snd (Rng.rnd t1)).
Proof.
  unfold exiting, reflectance, costhetat, sin2thetat, eta_eff, absorbed,
    absorbed_seed, facing_normal, cos_in, survival, transmittance, costhetai.
  intros Hs Hn. cbv zeta. unfold transparent. cbv zeta.
  cbn [normal with_emit direction extinction distance ior1_over_ior2 throughput
       position with_throughput with_has_hit].
  destruct (flt_spec (dot (vneg (direction r)) (normal hit)) 0) as [Hc|Hc].
  - destruct Hs as [Hs|Hs]; [lra|].
    destruct (Rng.rnd t) as [xi t1] eqn:Et. cbn [fst snd] in *.
    rewrite flt_true by exact Hs.
    rewrite Rmult_opp_opp in *.
    unfold fgt. rewrite (flt_false 1) by lra.
    cbn [normal with_emit direction extinction distance ior1_over_ior2 throughput
         position with_throughput with_has_hit origin with_origin with_tmin with_tmax].
    destruct (Rng.rnd t1) as [xi2 t2]. cbn [fst snd].
    destruct (flt xi2 _); reflexivity.
  - unfold fgt. rewrite (flt_false 1) by lra.
    cbn [normal with_emit direction extinction distance ior1_over_ior2 throughput
         position with_throughput with_has_hit origin with_origin with_tmin with_tmax].
    destruct (Rng.rnd t) as [xi2 t2]. cbn [fst snd].
    destruct (flt xi2 _); reflexivity.
Qed.

(** The refracted direction before it is normalised. *)
Lemma refracted_unit (d n : vec3) (ior ci ct : R) :
  dot d d = 1 -> dot n n = 1 -> ci = dot (vneg d) n ->
  ct * ct = 1 - ior * ior * (1 - ci * ci) ->
  let w := vsub (vscale (vsub (vscale n ci) (vneg d)) ior) (vscale n ct) in
  dot w w = 1 /\ dot w n = - ct
  /\ vadd w (vscale n ct) = vscale (vadd d (vscale n ci)) ior.
Proof.
  destruct d as [d1 d2 d3], n as [n1 n2 n3]. vsimpl. intros Hd Hn Hci Hct.
  cbv zeta. vsimpl. split; [nsatz|]. split; [nsatz|].
  apply vec3_eq; vsimpl; ring.
Qed.

(** X13: at a dielectric hit with unit direction and unit normal, where
    the absorption roulette has not ended the path and there is no total
    internal reflection, [transparent] continues the path from the hit
    position with zero radiance.  When the Fresnel sample falls below R
    the direction is the reflection about the normal; otherwise it is
    the refracted direction w: a unit vector on the far side of the
    surface, dot(w, n) = -cos(theta_t), whose part along the surface is
    eta times that of the incoming direction, which is Snell's law. *)
Theorem transparent_refraction (r : Ray) (hit : HitInfo) (t : Z) :
  dot (direction r) (direction r) = 1 -> dot (normal hit) (normal hit) = 1 ->
  ~ exiting r hit \/ fst (Rng.rnd t) < survival hit ->
  sin2thetat r hit <= 1 ->
  let res := transparent r hit t in
  let w := direction (res_ray res) in
  let n := facing_normal r hit in
  origin (res_ray res) = position hit
  /\ has_hit (res_hit res) = false
  /\ res_radiance res = vzero
  /\ (fst (Rng.rnd (absorbed_seed r hit t)) < reflectance r hit ->
      w = reflect (direction r) (normal hit))
  /\ (reflectance r hit <= fst (Rng.rnd (absorbed_seed r hit t)) ->
      dot w w = 1
      /\ dot w n = - costhetat r hit
      /\ vadd w (vscale n (costhetat r hit))
         = vscale (vadd (direction r) (vscale n (cos_in r hit))) (eta_eff r hit)).
Proof.
  intros Hd Hn Hs Ht. cbv zeta.
  rewrite (transparent_unfold r hit t Hs Ht). cbv zeta.
  assert (Hfn : dot (facing_normal r hit) (facing_normal r hit) = 1).
  { unfold facing_normal. destruct (flt _ 0); [|exact Hn].
    destruct (normal hit) as [x y z]. revert Hn. vsimpl. intros Hn. lra. }
  assert (Hci : cos_in r hit = dot (vneg (direction r)) (facing_normal r hit)).
  { unfold cos_in, facing_normal, costhetai. destruct (flt _ 0); [|reflexivity].
    destruct (normal hit), (direction r). vsimpl. ring. }
  assert (Hct : costhetat r hit * costhetat r hit
                = 1 - eta_eff r hit * eta_eff r hit * (1 - cos_in r hit * cos_in r hit)).
  { unfold costhetat. rewrite sqrt_sqrt by lra. unfold sin2thetat, cos_in.
    destruct (flt _ 0); ring. }
  pose proof (refracted_unit (direction r) (facing_normal r hit) (eta_eff r hit)
                (cos_in r hit) (costhetat r hit) Hd Hfn Hci Hct) as Hw.
  cbv zeta in Hw. destruct Hw as (W1 & W2 & W3).
  destruct (flt_spec (fst (Rng.rnd (absorbed_seed r hit t))) (reflectance r hit))
    as [Hr|Hr]; unfold res_ray, res_hit, res_radiance;
    cbn [fst snd origin direction with_direction with_tmax with_tmin with_origin
         has_hit with_has_hit].
  - repeat split; try reflexivity; lra.
  - rewrite (normalize_of_unit _ W1).
    repeat split; try reflexivity; try assumption; lra.
Qed.

Lemma glass_entered_head_on :
  costhetai down_ray glass_hit = 1 /\ sin2thetat down_ray glass_hit = 0.
Proof.
  assert (E : costhetai down_ray glass_hit = 1)
    by (unfold costhetai; simpl; vsimpl; lra).
  split; [exact E|]. unfold sin2thetat. rewrite E. ring.
Qed.

Lemma transparent_refraction_witness :
  let res := transparent down_ray glass_hit 0 in
  let w := direction (res_ray res) in
  let n := facing_normal down_ray glass_hit in
  origin (res_ray res) = position glass_hit
  /\ has_hit (res_hit res) = false
  /\ res_radiance res = vzero
  /\ (fst (Rng.rnd (absorbed_seed down_ray glass_hit 0))
      < reflectance down_ray glass_hit ->
      w = reflect (direction down_ray) (normal glass_hit))
  /\ (reflectance down_ray glass_hit
      <= fst (Rng.rnd (absorbed_seed down_ray glass_hit 0)) ->
      dot w w = 1
      /\ dot w n = - costhetat down_ray glass_hit
      /\ vadd w (vscale n (costhetat down_ray glass_hit))
         = vscale (vadd (direction down_ray) (vscale n (cos_in down_ray glass_hit)))
             (eta_eff down_ray glass_hit)).
Proof.
  destruct glass_entered_head_on as [Ec Es].
  apply (transparent_refraction down_ray glass_hit 0).
  - simpl. vsimpl. lra.
  - simpl. vsimpl. lra.
  - left. unfold exiting. rewrite Ec. lra.
  - rewrite Es. lra.
Defined.

(** X14: with an empty [lightIndices] buffer [sample_area_light]
    returns the zero light without drawing a random number, and
    [lambertian] returns, with the emission of the surface as its
    radiance: there is no direct light, whatever the shadow query
    says. *)
Theorem lambertian_without_lights (sc : Scene) (fuel : nat) (r : Ray)
  (hit : HitInfo) (t : Z) :
  numLights sc = 0%Z -> (full_fuel <= fuel)%nat ->
  sample_area_light sc (position hit) t = (mkLight vzero vzero 0, t)
  /\ exists res,
       lambertian sc fuel r hit t = Some res
       /\ res_radiance res = emission hit.
Proof.
  intros Hn Hf.
  assert (E : sample_area_light sc (position hit) t = (mkLight vzero vzero 0, t)).
  { unfold sample_area_light. rewrite Hn. reflexivity. }
  split; [exact E|].
  unfold lambertian. rewrite E.
  destruct (intersect_scene_terminates sc fuel
              (shadow_ray hit (mkLight vzero vzero 0)) default_hitinfo Hf)
    as (occ & r2 & h2 & Es).
  rewrite Es. cbn [obind].
  assert (Hdir : select vzero (direct_term hit (mkLight vzero vzero 0)) (negb occ)
                 = vzero).
  { destruct occ; cbn [negb select]; [reflexivity|].
    unfold direct_term. cbn [L_i w_i].
    destruct (diffuse hit), (normal hit). apply vec3_eq; vsimpl; ring. }
  rewrite Hdir.
  assert (Hadd : forall e : vec3, vadd vzero e = e).
  { intros [x y z]. apply vec3_eq; vsimpl; ring. }
  destruct (Rng.rnd t) as [xi t2].
  destruct (flt xi _).
  - destruct (sample_cosine_weighted_direction _ t2) as [dir t3].
    eexists. split; [reflexivity|]. unfold res_radiance. cbn [fst snd].
    cbn [emission with_throughput with_has_hit with_emit]. apply Hadd.
  - eexists. split; [reflexivity|]. unfold res_radiance. cbn [fst snd].
    cbn [emission with_throughput]. apply Hadd.
Qed.

Lemma lambertian_without_lights_witness :
  sample_area_light empty_scene (position black_hit) 0 = (mkLight vzero vzero 0, 0%Z)
  /\ exists res,
       lambertian empty_scene full_fuel down_ray black_hit 0 = Some res
       /\ res_radiance res = emission black_hit.
Proof.
  apply (lambertian_without_lights empty_scene full_fuel down_ray black_hit 0).
  - reflexivity.
  - apply Nat.le_refl.
Defined.

End Dielectric.

(** ** Texture lookups *)

Section TextureLookups.

Import Texture Examples.

Lemma wrap_i32_small (n : Z) :
  (-2147483648 <= n < 2147483648)%Z -> wrap_i32 n = n.
Proof. intros H. unfold wrap_i32. rewrite Z.mod_small by lia. lia. Qed.

Lemma wrap_i32_range (n : Z) : (-2147483648 <= wrap_i32 n < 2147483648)%Z.
Proof.
  unfold wrap_i32.
  pose proof (Z.mod_pos_bound (n + 2147483648) 4294967296 ltac:(lia)). lia.
Qed.

(** For a positive size the nested remainders are the non-negative
    remainder, also for a negative coordinate. *)
Lemma repeat_is_modulo (c n : Z) :
  (0 < n <= 1073741824)%Z ->
  i32_rem (i32_add (i32_rem c n) n) n = (c mod n)%Z.
Proof.
  intros Hn. unfold i32_rem, i32_add.
  pose proof (Z.rem_bound_abs c n ltac:(lia)) as Hb.
  assert (Hr : (- n < Z.rem c n < n)%Z) by lia.
  rewrite wrap_i32_small by lia.
  rewrite Z.rem_mod_nonneg by lia.
  rewrite <- (Z.mod_unique_pos (Z.rem c n + n) n (c / n - c ÷ n + 1) (c mod n));
    [reflexivity | apply Z.mod_pos_bound; lia |].
  pose proof (Z.quot_rem' c n) as Hq. pose proof (Z.div_mod c n ltac:(lia)) as Hd.
  nia.
Qed.

Lemma clamp_in_bounds (c n : Z) :
  (0 < n <= 1073741824)%Z ->
  (0 <= i32_clamp c 0 (i32_sub n 1) < n)%Z.
Proof.
  intros Hn. unfold i32_clamp, i32_sub. rewrite wrap_i32_small by lia. lia.
Qed.

Lemma get_coord_bounds (tex : texture) (coord : Z * Z) (repeat : bool) :
  (0 < tex_w tex <= 1073741824)%Z -> (0 < tex_h tex <= 1073741824)%Z ->
  (0 <= fst (get_coord tex coord repeat) < tex_w tex)%Z
  /\ (0 <= snd (get_coord tex coord repeat) < tex_h tex)%Z.
Proof.
  intros Hw Hh. unfold get_coord. destruct repeat; cbn [fst snd].
  - rewrite !repeat_is_modulo by assumption.
    split; apply Z.mod_pos_bound; lia.
  - split; apply clamp_in_bounds; assumption.
Qed.

(** X15: for a texture of positive size (at most 2^30 a side), [get_coord]
    returns a coordinate inside the texture for every input, so
    [textureLoad] is never called out of bounds; with [repeat] the result
    is the non-negative remainder of the coordinate, also for negative
    coordinates; without it a coordinate inside the texture is returned
    as it is. *)
Theorem get_coord_in_texture (tex : texture) (coord : Z * Z) (repeat : bool) :
  (0 < tex_w tex <= 1073741824)%Z -> (0 < tex_h tex <= 1073741824)%Z ->
  (0 <= fst (get_coord tex coord repeat) < tex_w tex)%Z
  /\ (0 <= snd (get_coord tex coord repeat) < tex_h tex)%Z
  /\ get_coord tex coord true
     = ((fst coord mod tex_w tex)%Z, (snd coord mod tex_h tex)%Z)
  /\ ((0 <= fst coord < tex_w tex)%Z -> (0 <= snd coord < tex_h tex)%Z ->
      get_coord tex coord repeat = coord).
Proof.
  intros Hw Hh.
  destruct (get_coord_bounds tex coord repeat Hw Hh) as [B1 B2].
  split; [exact B1|]. split; [exact B2|]. split.
  - unfold get_coord. cbn [fst snd]. rewrite !repeat_is_modulo by assumption.
    reflexivity.
  - intros Hx Hy. destruct coord as [cx cy]. cbn [fst snd] in *.
    unfold get_coord. destruct repeat; cbn [fst snd].
    + rewrite !repeat_is_modulo by assumption.
      rewrite !Z.mod_small by lia. reflexivity.
    + unfold i32_clamp, i32_sub. rewrite !wrap_i32_small by lia.
      f_equal; lia.
Qed.

Lemma get_coord_in_texture_witness :
  (0 <= fst (get_coord gradient (-1, 5)%Z true) < tex_w gradient)%Z
  /\ (0 <= snd (get_coord gradient (-1, 5)%Z true) < tex_h gradient)%Z
  /\ get_coord gradient (-1, 5)%Z true
     = ((fst (-1, 5) mod tex_w gradient)%Z, (snd (-1, 5) mod tex_h gradient)%Z)
  /\ ((0 <= fst (-1, 5) < tex_w gradient)%Z -> (0 <= snd (-1, 5) < tex_h gradient)%Z ->
      get_coord gradient (-1, 5)%Z true = (-1, 5)%Z).
Proof.
  apply (get_coord_in_texture gradient (-1, 5)%Z true); simpl; lia.
Defined.

Lemma trunc_IZR (z : Z) : trunc (IZR z) = z.
Proof.
  unfold trunc, Zceil. destruct (Rle_dec 0 (IZR z)); [apply ZfloorZ|].
  rewrite ZfloorNZ. lia.
Qed.

Lemma i32_of_floor (x : R) (z : Z) :
  (-2147483648 <= z <= 2147483647)%Z -> IZR z <= x < IZR z + 1 ->
  i32_of_f32 (floor x) = z.
Proof.
  intros Hz Hx. unfold i32_of_f32, floor.
  rewrite (Zfloor_eq z x Hx), trunc_IZR. lia.
Qed.

Lemma mix_0 (x y : vec3) : mix x y 0 = x.
Proof. destruct x, y. unfold mix. apply vec3_eq; vsimpl; ring. Qed.

(** X16: at the centre of texel (i, j), where [texcoords * res] is
    (i + 1/2, j + 1/2), bilinear filtering returns exactly the texel that
    [get_coord] selects for (i, j), which is also what nearest-neighbour
    lookup returns there. *)
Theorem texture_linear_at_texel_centre (tex : texture) (texcoords : R * R)
  (repeat : bool) (i j : Z) :
  (-2147483648 <= i <= 2147483647)%Z -> (-2147483648 <= j <= 2147483647)%Z ->
  fst texcoords * IZR (tex_w tex) = IZR i + 1 / 2 ->
  snd texcoords * IZR (tex_h tex) = IZR j + 1 / 2 ->
  texture_linear tex texcoords repeat = textureLoad tex (get_coord tex (i, j) repeat)
  /\ texture_nearest tex texcoords repeat = texture_linear tex texcoords repeat.
Proof.
  intros Hi Hj Hu Hv.
  assert (E : texture_linear tex texcoords repeat
              = textureLoad tex (get_coord tex (i, j) repeat)).
  { unfold texture_linear. cbv zeta. cbn [fst snd].
    rewrite Hu, Hv.
    replace (IZR i + 1 / 2 - 0.5) with (IZR i) by lra.
    replace (IZR j + 1 / 2 - 0.5) with (IZR j) by lra.
    unfold fract, floor. rewrite !ZfloorZ.
    replace (IZR i - IZR i) with 0 by ring.
    replace (IZR j - IZR j) with 0 by ring.
    rewrite !mix_0.
    unfold i32_of_f32. rewrite !trunc_IZR.
    replace (Z.max (-2147483648) (Z.min 2147483647 i)) with i by lia.
    replace (Z.max (-2147483648) (Z.min 2147483647 j)) with j by lia.
    unfold i32_add. rewrite !Z.add_0_r, !wrap_i32_small by lia. reflexivity. }
  split; [exact E|]. rewrite E.
  unfold texture_nearest. cbv zeta. cbn [fst snd]. rewrite Hu, Hv.
  rewrite (i32_of_floor _ i Hi) by lra. rewrite (i32_of_floor _ j Hj) by lra.
  reflexivity.
Qed.

Lemma texture_linear_at_texel_centre_witness :
  texture_linear gradient (1/8, 3/4) false
  = textureLoad gradient (get_coord gradient (0, 1)%Z false)
  /\ texture_nearest gradient (1/8, 3/4) false
     = texture_linear gradient (1/8, 3/4) false.
Proof.
  apply (texture_linear_at_texel_centre gradient (1/8, 3/4) false 0 1).
  - lia.
  - lia.
  - simpl. lra.
  - simpl. lra.
Defined.

End TextureLookups.

(** ** Stratified jitter and the option handlers *)

Section HostProgram.

Import Host Examples.

Lemma fold_left_range_ind {A : Type} (f : A -> Z -> A) (P : Z -> A -> Prop)
  (count : Z) (a0 : A) :
  P 0%Z a0 ->
  (forall j a, (0 <= j < count)%Z -> P j a -> P (j + 1)%Z (f a j)) ->
  P (Z.max 0 count) (fold_left f (range count) a0).
Proof.
  intros H0 Hstep. unfold range.
  assert (G : forall len start a,
            (Z.of_nat start + Z.of_nat len <= Z.max 0 count)%Z ->
            P (Z.of_nat start) a ->
            P (Z.of_nat start + Z.of_nat len)%Z
              (fold_left f (map Z.of_nat (seq start len)) a)).
  { induction len as [|len IH]; intros start a Hb Ha.
    - rewrite Z.add_0_r. exact Ha.
    - cbn [seq map fold_left].
      replace (Z.of_nat start + Z.of_nat (S len))%Z
        with (Z.of_nat (S start) + Z.of_nat len)%Z by lia.
      apply IH; [lia|].
      replace (Z.of_nat (S start)) with (Z.of_nat start + 1)%Z by lia.
      apply Hstep; [lia | exact Ha]. }
  specialize (G (Z.to_nat count) O a0).
  replace (Z.of_nat 0 + Z.of_nat (Z.to_nat count))%Z with (Z.max 0 count) in G by lia.
  apply G; [lia | exact H0].
Qed.

Section Edges.

Variables fl f32 : R -> R.
Variable rand : nat -> R.
Variable pixelsize : R.
Variable subdivs : Z.

Hypothesis fl_monotone : monotone fl.
Hypothesis f32_monotone : monotone f32.
Hypothesis fl_integers : keeps_integers fl subdivs.
Hypothesis rand_range : forall k : nat, 0 <= rand k < 1.
Hypothesis pixelsize_pos : 0 < pixelsize.
Hypothesis subdivs_ge : (2 <= subdivs)%Z.

Let step : R := fl (pixelsize / IZR subdivs).

Local Abbreviation edge := (cell_edge fl f32 pixelsize step).

Lemma step_nonneg : 0 <= step.
Proof.
  unfold step. rewrite <- (fl_integers 0%Z) by lia. apply fl_monotone.
  apply Rlt_le, Rdiv_lt_0_compat; [exact pixelsize_pos | apply IZR_lt; lia].
Qed.

(** The boundaries are in order. *)
Lemma edge_monotone (c d : Z) : (c <= d)%Z -> edge c <= edge d.
Proof.
  intros H. unfold cell_edge. apply f32_monotone, fl_monotone.
  apply Rplus_le_compat_r. apply fl_monotone.
  apply Rmult_le_compat_r; [exact step_nonneg | apply IZR_le; exact H].
Qed.

(** A draw for cell [c] is stored between the boundaries of the cell. *)
Lemma offset_in_cell (c : Z) (k : nat) :
  (0 <= c < subdivs)%Z ->
  edge c
  <= f32 (fl (fl (fl (rand k + IZR c) * step) - fl (pixelsize * 0.5)))
  <= edge (c + 1)%Z.
Proof.
  intros Hc. pose proof (rand_range k) as Hr. pose proof step_nonneg as Hs.
  assert (Hlo : IZR c <= fl (rand k + IZR c)).
  { rewrite <- (fl_integers c) at 1 by lia. apply fl_monotone. lra. }
  assert (Hhi : fl (rand k + IZR c) <= IZR (c + 1)).
  { rewrite <- (fl_integers (c + 1)%Z) by lia. apply fl_monotone.
    rewrite plus_IZR. lra. }
  unfold cell_edge. split; apply f32_monotone, fl_monotone;
    apply Rplus_le_compat_r; apply fl_monotone;
    apply Rmult_le_compat_r; assumption.
Qed.

Lemma edges_in_pixel (c : Z) :
  (0 <= c <= subdivs)%Z -> edge 0%Z <= edge c <= edge subdivs.
Proof.
  intros H. split; apply edge_monotone; lia.
Qed.

End Edges.

Section Jitters.

Variables fl f32 : R -> R.
Variable rand : nat -> R.
Variable n0 : nat.
Variable jitter : list R.
Variable pixelsize : R.
Variable subdivs : Z.

Hypothesis fl_monotone : monotone fl.
Hypothesis f32_monotone : monotone f32.
Hypothesis fl_integers : keeps_integers fl subdivs.
Hypothesis rand_range : forall k : nat, 0 <= rand k < 1.
Hypothesis pixelsize_pos : 0 < pixelsize.
Hypothesis subdivs_ge : (2 <= subdivs)%Z.
Hypothesis jitter_long : (2 * subdivs * subdivs <= Z.of_nat (List.length jitter))%Z.

Let step : R := fl (pixelsize / IZR subdivs).

Local Abbreviation in_cell := (Host.in_cell fl f32 pixelsize subdivs).
Local Abbreviation filled := (Host.filled fl f32 n0 jitter pixelsize subdivs).

Lemma get_set_same (a : list R) (i : Z) (v : R) :
  (0 <= i < Z.of_nat (List.length a))%Z -> get 0 (set a i v) i = v.
Proof. intros H. unfold get, set. apply nth_set_nth_same. lia. Qed.

Lemma get_set_other (a : list R) (i k : Z) (v : R) :
  (0 <= i)%Z -> (0 <= k)%Z -> k <> i -> get 0 (set a i v) k = get 0 a k.
Proof. intros Hi Hk H. unfold get, set. apply nth_set_nth_other. lia. Qed.

Lemma set_length (a : list R) (i : Z) (v : R) :
  List.length (set a i v) = List.length a.
Proof. unfold set. apply set_nth_length. Qed.

Lemma jitter_cell_fills (i j : Z) (st : list R * nat) :
  (0 <= i < subdivs)%Z -> (0 <= j < subdivs)%Z ->
  filled (i * subdivs + j) st ->
  filled (i * subdivs + j + 1)
    (jitter_cell fl f32 rand pixelsize step subdivs i st j).
Proof.
  intros Hi Hj. destruct st as [out n]. unfold Host.filled, jitter_cell. cbv zeta.
  intros (Hlen & Hn & Hcells & Hrest).
  set (c := (i * subdivs + j)%Z) in *.
  assert (Hc : (0 <= c < subdivs * subdivs)%Z) by (unfold c; nia).
  rewrite !set_length.
  split; [exact Hlen|]. split; [lia|]. split.
  - intros k Hk. unfold Host.in_cell.
    destruct (Z.eq_dec k c) as [->|Hne].
    + cbv zeta. fold step. rewrite get_set_other by lia.
      rewrite get_set_same by lia.
      rewrite get_set_same by (rewrite set_length; lia).
      assert (Hq : (c / subdivs)%Z = i)
        by (symmetry; apply (Z.div_unique_pos c subdivs i j); [lia | unfold c; ring]).
      assert (Hr : (c mod subdivs)%Z = j)
        by (symmetry; apply (Z.mod_unique_pos c subdivs i j); [lia | unfold c; ring]).
      rewrite Hq, Hr.
      split; apply (offset_in_cell fl f32 rand pixelsize subdivs); assumption.
    + rewrite !get_set_other by lia. apply Hcells. lia.
  - intros idx Hidx. rewrite !get_set_other by lia. apply Hrest. lia.
Qed.

Lemma jitter_row_fills (i : Z) (st : list R * nat) :
  (0 <= i < subdivs)%Z ->
  filled (i * subdivs) st ->
  filled ((i + 1) * subdivs) (jitter_row fl f32 rand pixelsize step subdivs st i).
Proof.
  intros Hi Hst. unfold jitter_row.
  pose proof (fold_left_range_ind
                (jitter_cell fl f32 rand pixelsize step subdivs i)
                (fun j a => filled (i * subdivs + j) a) subdivs st) as H.
  cbv beta in H. replace (Z.max 0 subdivs) with subdivs in H by lia.
  replace ((i + 1) * subdivs)%Z with (i * subdivs + subdivs)%Z by ring.
  apply H.
  - rewrite Z.add_0_r. exact Hst.
  - intros j a Hj Ha.
    replace (i * subdivs + (j + 1))%Z with (i * subdivs + j + 1)%Z by ring.
    apply jitter_cell_fills; assumption.
Qed.

Lemma compute_jitters_fills :
  filled (subdivs * subdivs)
    (compute_jitters fl f32 rand n0 jitter pixelsize subdivs).
Proof.
  unfold compute_jitters. fold step.
  destruct (Z.ltb_spec subdivs 2) as [H|_]; [lia|].
  pose proof (fold_left_range_ind
                (jitter_row fl f32 rand pixelsize step subdivs)
                (fun i a => filled (i * subdivs) a) subdivs (jitter, n0)) as H.
  cbv beta in H. replace (Z.max 0 subdivs) with subdivs in H by lia.
  apply H.
  - unfold Host.filled. cbn [Z.mul].
    repeat split; try reflexivity; lia.
  - intros i a Hi Ha. apply jitter_row_fills; assumption.
Qed.

End Jitters.

(** X18: with fewer than two subdivisions [compute_jitters] stores the
    offset (0, 0) and draws no random number.  With [subdivs] >= 2, a
    positive pixel size, random numbers in [0, 1) and an array of at
    least 2 * subdivs^2 entries, it draws two numbers per cell and leaves
    the array's length and the entries past 2 * subdivs^2 as they were.
    The arithmetic rounds, to doubles and, in the store, to f32; for
    roundings that keep the order and the integers up to [subdivs], the
    offset stored for the cell in row [i] and column [j] lies between the
    boundaries of that cell as the same arithmetic computes them, those
    included: x between the edges [j] and [j + 1], y between the edges
    [i] and [i + 1], and both between the edges 0 and [subdivs] of the
    pixel. *)
Theorem compute_jitters_stratified (fl f32 : R -> R) (rand : nat -> R) (n0 : nat)
  (jitter : list R) (pixelsize : R) (subdivs : Z) :
  monotone fl -> monotone f32 -> keeps_integers fl subdivs ->
  (forall k : nat, 0 <= rand k < 1) -> 0 < pixelsize ->
  let res := compute_jitters fl f32 rand n0 jitter pixelsize subdivs in
  let edge := cell_edge fl f32 pixelsize (fl (pixelsize / IZR subdivs)) in
  ((subdivs < 2)%Z -> res = (set (set jitter 0 0) 1 0, n0))
  /\ ((2 <= subdivs)%Z ->
      (2 * subdivs * subdivs <= Z.of_nat (List.length jitter))%Z ->
      List.length (fst res) = List.length jitter
      /\ snd res = (n0 + 2 * Z.to_nat (subdivs * subdivs))%nat
      /\ (forall idx : Z, (2 * (subdivs * subdivs) <= idx)%Z ->
            get 0 (fst res) idx = get 0 jitter idx)
      /\ (forall i j : Z, (0 <= i < subdivs)%Z -> (0 <= j < subdivs)%Z ->
            let x := get 0 (fst res) ((i * subdivs + j) * 2) in
            let y := get 0 (fst res) ((i * subdivs + j) * 2 + 1) in
            edge j <= x <= edge (j + 1)%Z
            /\ edge i <= y <= edge (i + 1)%Z
            /\ edge 0%Z <= x <= edge subdivs
            /\ edge 0%Z <= y <= edge subdivs)).
Proof.
  intros Hfl Hf32 Hint Hrand Hps. cbv zeta. split.
  - intros Hs. unfold compute_jitters.
    destruct (Z.ltb_spec subdivs 2); [reflexivity | lia].
  - intros Hs Hlen.
    pose proof (compute_jitters_fills fl f32 rand n0 jitter pixelsize subdivs
                  Hfl Hf32 Hint Hrand Hps Hs Hlen) as H.
    pose proof (edges_in_pixel fl f32 pixelsize subdivs Hfl Hf32 Hint Hps Hs) as He.
    destruct (compute_jitters fl f32 rand n0 jitter pixelsize subdivs) as [out n].
    cbn [fst snd]. destruct H as (H1 & H2 & H3 & H4).
    split; [exact H1|]. split; [exact H2|]. split; [exact H4|].
    intros i j Hi Hj.
    assert (Hk : (0 <= i * subdivs + j < subdivs * subdivs)%Z) by nia.
    specialize (H3 _ Hk). unfold Host.in_cell in H3. cbv zeta in H3.
    assert (Hq : ((i * subdivs + j) / subdivs)%Z = i)
      by (symmetry; apply (Z.div_unique_pos _ subdivs i j); [lia | ring]).
    assert (Hr : ((i * subdivs + j) mod subdivs)%Z = j)
      by (symmetry; apply (Z.mod_unique_pos _ subdivs i j); [lia | ring]).
    rewrite Hq, Hr in H3.
    destruct H3 as [[X1 X2] [Y1 Y2]].
    pose proof (He j ltac:(lia)) as [Ej1 _].
    pose proof (He (j + 1)%Z ltac:(lia)) as [_ Ej2].
    pose proof (He i ltac:(lia)) as [Ei1 _].
    pose proof (He (i + 1)%Z ltac:(lia)) as [_ Ei2].
    repeat split; try assumption; lra.
Qed.

Lemma compute_jitters_stratified_witness :
  let fl := fun x : R => x in
  let res := compute_jitters fl fl half 0 jitter0 1 2 in
  let edge := cell_edge fl fl 1 (fl (1 / IZR 2)) in
  ((2 < 2)%Z -> res = (set (set jitter0 0 0) 1 0, 0%nat))
  /\ ((2 <= 2)%Z ->
      (2 * 2 * 2 <= Z.of_nat (List.length jitter0))%Z ->
      List.length (fst res) = List.length jitter0
      /\ snd res = (0 + 2 * Z.to_nat (2 * 2))%nat
      /\ (forall idx : Z, (2 * (2 * 2) <= idx)%Z ->
            get 0 (fst res) idx = get 0 jitter0 idx)
      /\ (forall i j : Z, (0 <= i < 2)%Z -> (0 <= j < 2)%Z ->
            let x := get 0 (fst res) ((i * 2 + j) * 2) in
            let y := get 0 (fst res) ((i * 2 + j) * 2 + 1) in
            edge j <= x <= edge (j + 1)%Z
            /\ edge i <= y <= edge (i + 1)%Z
            /\ edge 0%Z <= x <= edge 2%Z
            /\ edge 0%Z <= y <= edge 2%Z)).
Proof.
  apply (compute_jitters_stratified (fun x => x) (fun x => x) half 0 jitter0 1 2).
  - intros x y H. exact H.
  - intros x y H. exact H.
  - intros k _. reflexivity.
  - intros k. unfold half. lra.
  - lra.
Defined.

Lemma handle_in_range (o : Options) (e : Event) :
  0.1 <= g_zoomValue o <= 10 -> (1 <= g_subpixelValue o <= 10)%Z -> (0 <= frame o)%Z ->
  0.1 <= g_zoomValue (handle o e) <= 10
  /\ (1 <= g_subpixelValue (handle o e) <= 10)%Z
  /\ (0 <= frame (handle o e))%Z.
Proof.
  intros Hz Hs Hf. destruct e as [deltaY| | |]; cbn [handle].
  - cbn [g_zoomValue g_subpixelValue frame].
    split; [|split; [exact Hs | lia]].
    split.
    + apply Rmin_glb; [|lra]. eapply Rle_trans; [|apply Rmax_r]. lra.
    + apply Rmin_r.
  - destruct (Z.ltb_spec 1 (g_subpixelValue o));
      cbn [g_zoomValue g_subpixelValue frame]; repeat split; try lra; lia.
  - destruct (Z.ltb_spec (g_subpixelValue o) 10);
      cbn [g_zoomValue g_subpixelValue frame]; repeat split; try lra; lia.
  - cbn [g_zoomValue g_subpixelValue frame]. repeat split; try lra; lia.
Qed.

(** X19: after any sequence of wheel, subpixel-button and render events
    the zoom value lies in [0.1, 10], the subpixel count in 1..10 and the
    frame counter is not negative; so the 2 * count^2 jitter entries of
    the next frame fit the 200 entries of the jitter array.  An option
    change leaves the frame counter at 0. *)
Theorem options_stay_in_range (es : list Event) :
  0.1 <= g_zoomValue (run es) <= 10
  /\ (1 <= g_subpixelValue (run es) <= 10)%Z
  /\ (0 <= frame (run es))%Z
  /\ (2 * g_subpixelValue (run es) * g_subpixelValue (run es)
      <= Z.of_nat (List.length jitter0))%Z
  /\ (forall e : Event,
        handle (run es) e <> run es -> e <> Rendered ->
        frame (handle (run es) e) = 0%Z).
Proof.
  unfold run.
  assert (G : forall es o,
            0.1 <= g_zoomValue o <= 10 -> (1 <= g_subpixelValue o <= 10)%Z ->
            (0 <= frame o)%Z ->
            0.1 <= g_zoomValue (fold_left handle es o) <= 10
            /\ (1 <= g_subpixelValue (fold_left handle es o) <= 10)%Z
            /\ (0 <= frame (fold_left handle es o))%Z).
  { induction es0 as [|e es0 IH]; intros o Hz Hs Hf; [auto|].
    cbn [fold_left].
    destruct (handle_in_range o e Hz Hs Hf) as (A & B & C). apply IH; assumption. }
  destruct (G es options0) as (A & B & C);
    [cbn; lra | cbn; lia | cbn; lia |].
  split; [exact A|]. split; [exact B|]. split; [exact C|]. split.
  - unfold jitter0. rewrite repeat_length. nia.
  - intros e Hne Hr. set (o := fold_left handle es options0) in *.
    destruct e as [deltaY| | |]; cbn [handle] in *.
    + reflexivity.
    + destruct (1 <? g_subpixelValue o)%Z; [reflexivity | contradiction].
    + destruct (g_subpixelValue o <? 10)%Z; [reflexivity | contradiction].
    + contradiction.
Qed.

End HostProgram.

(** ** The analytic scene *)

Section AnalyticScene.

Import Analytic AnalyticShade Examples.

Lemma hit_update_cases (r : Ray) (hit : HitInfo) (t : R) (p n ra rd rs : vec3)
  (sh ior : R) (id : Z) :
  (hit_update r hit t p n ra rd rs sh ior id = hit
   /\ ~ (tmin r <= t <= tmax r /\ t < dist hit))
  \/ (hit_update r hit t p n ra rd rs sh ior id
      = mkHit true t p (normalize n) ra rd rs sh ior id false
      /\ tmin r <= t <= tmax r /\ t < dist hit).
Proof.
  unfold hit_update, fge.
  destruct (fle_spec (tmin r) t); cbn [andb]; [|left; split; [reflexivity | lra]].
  destruct (fle_spec t (tmax r)); cbn [andb]; [|left; split; [reflexivity | lra]].
  destruct (flt_spec t (dist hit)); [|left; split; [reflexivity | lra]].
  right. split; [reflexivity | lra].
Qed.

(** X20: [intersect_plane] either leaves the hit record as it is, which
    it always does for a ray with |dot(direction, n)| <= 1e-8, or records
    a hit whose distance lies in [tmin, tmax] and below the distance
    recorded before, and whose position is the ray point at that
    distance and lies on the plane: dot(position - p0, n) = 0. *)
Theorem plane_hit_on_plane (r : Ray) (hit : HitInfo) (p0 n ra rd rs : vec3)
  (sh : R) (id : Z) :
  let hit' := intersect_plane r hit p0 n ra rd rs sh id in
  (Rabs (dot (direction r) n) <= 1e-8 -> hit' = hit)
  /\ (hit' = hit
      \/ (has_hit hit' = true
          /\ tmin r <= dist hit' <= tmax r /\ dist hit' < dist hit
          /\ position hit' = vadd (origin r) (vscale (direction r) (dist hit'))
          /\ dot (vsub (position hit') p0) n = 0
          /\ normal hit' = normalize n
          /\ continue_ray hit' = false)).
Proof.
  cbv zeta. unfold intersect_plane. cbv zeta. unfold fgt.
  destruct (flt_spec 1e-8 (Rabs (dot (direction r) n))) as [Hd|Hd].
  - split; [intros; lra|].
    set (t := dot (vsub p0 (origin r)) n / dot (direction r) n).
    destruct (hit_update_cases r hit t (vadd (origin r) (vscale (direction r) t))
                n ra rd rs sh 1 id) as [[E _]|[E (Ht & Hlt)]]; rewrite E.
    + left. reflexivity.
    + right. cbn [has_hit dist position normal continue_ray].
      repeat split; try reflexivity; try lra.
      assert (Hq : dot (direction r) n <> 0).
      { intros Z0. rewrite Z0, Rabs_R0 in Hd. lra. }
      assert (Et : t * dot (direction r) n = dot (vsub p0 (origin r)) n)
        by (unfold t; field; exact Hq).
      clearbody t. destruct (origin r), (direction r), p0, n.
      revert Et. vsimpl. intros Et. nsatz.
  - split; [reflexivity | left; reflexivity].
Qed.


Lemma hit_update_inv (r : Ray) (h : HitInfo) (t : R) (n ra rd rs : vec3)
  (sh ior : R) (id : Z) :
  scene_inv r h ->
  scene_inv r (hit_update r h t (vadd (origin r) (vscale (direction r) t))
                 n ra rd rs sh ior id).
Proof.
  intros (Hle & Hf & Ht).
  destruct (hit_update_cases r h t (vadd (origin r) (vscale (direction r) t))
              n ra rd rs sh ior id) as [[E _]|[E (Hr & Hlt)]]; rewrite E.
  - repeat split; try assumption; apply Ht; assumption.
  - unfold scene_inv. cbn [has_hit dist position continue_ray].
    split; [lra|]. split; [discriminate|]. intros _.
    repeat split; try reflexivity; lra.
Qed.

Lemma hit_update_same (r : Ray) (h1 h2 : HitInfo) (t : R) (p n ra rd rs : vec3)
  (sh ior : R) (id : Z) :
  same_best h1 h2 ->
  same_best (hit_update r h1 t p n ra rd rs sh ior id)
            (hit_update r h2 t p n ra rd rs sh ior id).
Proof.
  intros (Hh & Hd & He). unfold hit_update. rewrite Hd.
  destruct (_ && _ && _); [|repeat split; assumption].
  repeat split.
Qed.

(** [intersect_scene] returns the hit flag of the record, and a record
    with a hit has [continue_ray] cleared. *)
Lemma analytic_scene_frame (matt_id sphere_id : Z) (r : Ray) (h0 : HitInfo) :
  fst (fst (intersect_scene matt_id sphere_id r h0))
  = has_hit (snd (intersect_scene matt_id sphere_id r h0))
  /\ (fst (fst (intersect_scene matt_id sphere_id r h0)) = true ->
      continue_ray (snd (intersect_scene matt_id sphere_id r h0)) = false).
Proof.
  unfold intersect_scene. cbv zeta.
  match goal with
  | |- context [if has_hit ?h then _ else _] => set (h3 := h)
  end.
  assert (K : scene_inv r h3).
  { unfold h3, intersect_sphere, intersect_triangle, intersect_plane. cbv zeta.
    repeat match goal with
           | |- scene_inv r (if ?c then _ else _) => destruct c
           | |- scene_inv r (hit_update r _ _ _ _ _ _ _ _ _ _) =>
             apply hit_update_inv
           end.
    all: unfold scene_inv; cbn [has_hit dist];
      split; [lra|]; split; [reflexivity | discriminate]. }
  destruct K as (_ & _ & Kt).
  destruct (has_hit h3) eqn:Eh; cbn [fst snd]; rewrite ?Eh.
  - split; [reflexivity|]. intros _. apply Kt. reflexivity.
  - split; [reflexivity | discriminate].
Qed.

(** X22: [intersect_scene] of the analytic scene returns the hit flag of
    the record; it never changes origin, direction or [tmin] of the ray;
    on a miss the ray is as it was; on a hit the distance lies in
    [tmin, tmax) (a candidate at exactly [tmax] is not accepted), the
    ray's [tmax] becomes that distance, the position is the ray point at
    that distance and [continue_ray] is false.  Whether it hits, the ray
    it leaves and the distance do not depend on the record passed in. *)
Theorem analytic_scene_hit (matt_id sphere_id : Z) (r : Ray) (hit hit2 : HitInfo) :
  let res := intersect_scene matt_id sphere_id r hit in
  let b := fst (fst res) in
  let r' := snd (fst res) in
  let hit' := snd res in
  b = has_hit hit'
  /\ origin r' = origin r /\ direction r' = direction r /\ tmin r' = tmin r
  /\ (b = false -> r' = r)
  /\ (b = true ->
      tmin r <= dist hit' < tmax r
      /\ tmax r' = dist hit'
      /\ position hit' = vadd (origin r) (vscale (direction r) (dist hit'))
      /\ continue_ray hit' = false)
  /\ fst (intersect_scene matt_id sphere_id r hit2) = fst res
  /\ dist (snd (intersect_scene matt_id sphere_id r hit2)) = dist hit'.
Proof.
  cbv zeta.
  assert (Hinv : forall h0 : HitInfo,
    scene_inv r (snd (intersect_scene matt_id sphere_id r h0))
    /\ intersect_scene matt_id sphere_id r h0
       = (if has_hit (snd (intersect_scene matt_id sphere_id r h0))
          then (true,
                mkRay (origin r) (direction r) (tmin r)
                  (dist (snd (intersect_scene matt_id sphere_id r h0))) (ior r),
                snd (intersect_scene matt_id sphere_id r h0))
          else (false, r, snd (intersect_scene matt_id sphere_id r h0)))).
  { intros h0. unfold intersect_scene. cbv zeta.
    match goal with
    | |- context [if has_hit ?h then _ else _] => set (h3 := h)
    end.
    assert (K : scene_inv r h3).
    { unfold h3, intersect_sphere, intersect_triangle, intersect_plane. cbv zeta.
      repeat match goal with
             | |- scene_inv r (if ?c then _ else _) => destruct c
             | |- scene_inv r (hit_update r _ _ _ _ _ _ _ _ _ _) =>
               apply hit_update_inv
             end.
      all: unfold scene_inv; cbn [has_hit dist];
        split; [lra|]; split; [reflexivity | discriminate]. }
    destruct (has_hit h3) eqn:Eh; cbn [snd]; rewrite ?Eh; split; auto. }
  assert (Hsame : same_best (snd (intersect_scene matt_id sphere_id r hit))
                            (snd (intersect_scene matt_id sphere_id r hit2))).
  { unfold intersect_scene. cbv zeta.
    match goal with
    | |- same_best (snd (if has_hit ?h then _ else _))
                   (snd (if has_hit ?k then _ else _)) =>
      assert (S3 : same_best h k); [|destruct (has_hit h), (has_hit k); exact S3]
    end.
    unfold intersect_sphere, intersect_triangle, intersect_plane. cbv zeta.
    repeat match goal with
           | |- same_best (if ?c then _ else _) (if ?c then _ else _) => destruct c
           | |- same_best (hit_update r _ ?t ?p ?n ?a ?b ?c ?d ?e ?f)
                          (hit_update r _ ?t ?p ?n ?a ?b ?c ?d ?e ?f) =>
             apply hit_update_same
           end.
    all: repeat split; discriminate. }
  destruct (Hinv hit) as [(Kle & Kf & Kt) E1]. destruct (Hinv hit2) as [_ E2].
  destruct Hsame as (S1 & S2 & _).
  destruct (intersect_scene matt_id sphere_id r hit) as [[b r'] h'].
  destruct (intersect_scene matt_id sphere_id r hit2) as [[b2 r2] h2'].
  cbn [fst snd] in *. rewrite <- S1, <- S2 in E2.
  destruct (has_hit h') eqn:Eh.
  - injection E1 as -> -> . injection E2 as -> ->.
    destruct (Kt eq_refl) as (T1 & T2 & T3).
    cbn [origin direction tmin tmax].
    repeat split; try reflexivity; try assumption; try discriminate; lra.
  - injection E1 as -> ->. injection E2 as -> ->.
    repeat split; try reflexivity; try assumption; congruence.
Qed.

Lemma dot_self_pos (a : vec3) : a <> vzero -> 0 < dot a a.
Proof.
  intros H. destruct a as [x y z].
  assert (Hn : ~ (x = 0 /\ y = 0 /\ z = 0)).
  { intros (-> & -> & ->). apply H. reflexivity. }
  vsimpl. destruct (Req_dec x 0) as [->|Hx]; [|nra].
  destruct (Req_dec y 0) as [->|Hy]; [|nra].
  destruct (Req_dec z 0) as [->|Hz]; [|nra].
  exfalso. apply Hn. auto.
Qed.

(** X23: [sample_point_light] reports the distance to the light and, for
    a point that is not the light itself, a unit direction that leads
    from the point to the light over that distance.  The radiance is
    PI / d^2 from squared distance 1e-4 on, and never exceeds
    PI / 1e-4 in any channel, however close the point is to the light. *)
Theorem point_light_inverse_square (light_pos pos : vec3) :
  let L := sample_point_light light_pos pos in
  let d2 := dot (vsub light_pos pos) (vsub light_pos pos) in
  l_dist L = sqrt d2
  /\ Li L = splat (PI / Rmax d2 1e-4)
  /\ (1e-4 <= d2 -> Li L = splat (PI / d2))
  /\ 0 < vx (Li L) <= PI / 1e-4
  /\ (light_pos <> pos ->
      dot (omega L) (omega L) = 1
      /\ vadd pos (vscale (omega L) (l_dist L)) = light_pos).
Proof.
  cbv zeta. unfold sample_point_light. cbv zeta. cbn [l_dist Li omega].
  set (d2 := dot (vsub light_pos pos) (vsub light_pos pos)).
  assert (HPI : 0 < PI) by (unfold PI; lra).
  assert (Hm : 1e-4 <= Rmax d2 1e-4) by apply Rmax_r.
  split; [reflexivity|]. split; [reflexivity|]. split.
  - intros Hd. rewrite Rmax_left by exact Hd. reflexivity.
  - split.
    + unfold vdivs, splat. cbn [vx]. split.
      * apply Rdiv_lt_0_compat; lra.
      * unfold Rdiv. apply Rmult_le_compat_l; [lra|].
        apply Rinv_le_contravar; lra.
    + intros Hne.
      assert (Hpos : 0 < d2).
      { apply dot_self_pos. intros E. apply Hne.
        destruct light_pos, pos. cbv [vsub vzero splat vx vy vz] in E.
        injection E as E1 E2 E3. apply vec3_eq; cbn [vx vy vz]; lra. }
      pose proof (sqrt_lt_R0 d2 Hpos) as Hs.
      pose proof (sqrt_sqrt d2 ltac:(lra)) as Hss.
      set (s := sqrt d2) in *. clearbody s.
      split.
      * unfold d2 in Hss, Hpos. destruct light_pos as [a b c], pos as [x y z].
        revert Hss Hpos. vsimpl. intros Hss Hpos.
        replace ((a - x) / s * ((a - x) / s) + (b - y) / s * ((b - y) / s)
                 + (c - z) / s * ((c - z) / s))
          with (((a - x) * (a - x) + (b - y) * (b - y) + (c - z) * (c - z)) / (s * s))
          by (field; lra).
        rewrite Hss. field. lra.
      * destruct light_pos as [a b c], pos as [x y z].
        apply vec3_eq; vsimpl; field; lra.
Qed.

(** X24: a point of the plane, offset along the plane's unit normal by
    [EPS] as [shade_lambert] and [shade_phong] do, is never shadowed by
    the plane it lies on when the light is on the normal's side: the
    plane test leaves the record of the shadow query as it is. *)
Theorem plane_does_not_shadow_itself (hit h : HitInfo) (L : Light)
  (p0 n ra rd rs : vec3) (sh : R) (id : Z) :
  dot n n = 1 -> normal hit = n -> dot (vsub (position hit) p0) n = 0 ->
  0 < dot (omega L) n ->
  intersect_plane (shadow_ray hit L) h p0 n ra rd rs sh id = h.
Proof.
  intros Hn Hnorm Hon Hside. unfold intersect_plane, shadow_ray. cbv zeta.
  cbn [origin direction tmin tmax]. rewrite Hnorm.
  destruct (fgt _ 1e-8); [|reflexivity].
  set (t := _ / _).
  assert (Ht : t < 0).
  { unfold t.
    assert (E : dot (vsub p0 (vadd (position hit) (vscale n EPS))) n = - EPS).
    { destruct p0, (position hit), n. revert Hn Hon. vsimpl. intros Hn Hon. nsatz. }
    rewrite E. unfold Rdiv. rewrite <- Ropp_mult_distr_l.
    apply Ropp_lt_gt_0_contravar. apply Rmult_gt_0_compat; [unfold EPS; lra|].
    apply Rinv_0_lt_compat. exact Hside. }
  unfold hit_update, fge. cbn [tmin]. rewrite fle_false by (unfold EPS; lra).
  reflexivity.
Qed.

Lemma plane_does_not_shadow_itself_witness :
  intersect_plane (shadow_ray floor_hit overhead) floor_hit vzero (V3 0 1 0)
    vzero vzero vzero 0 1
  = floor_hit.
Proof.
  apply (plane_does_not_shadow_itself floor_hit floor_hit overhead vzero (V3 0 1 0)).
  - vsimpl. lra.
  - reflexivity.
  - simpl. vsimpl. lra.
  - simpl. vsimpl. lra.
Defined.

Lemma shade_refract_unfold (r : Ray) (hit : HitInfo) :
  shade_refract r hit
  = (vzero,
     mkRay (vsub (position hit) (vscale (facing r hit) EPS))
       (if flt (k_val r hit) 0 then reflect (direction r) (facing r hit)
        else vadd (vscale (direction r) (eta r hit))
                  (vscale (facing r hit)
                     (eta r hit * cos_i r hit - sqrt (k_val r hit))))
       EPS 1e32
       (if flt (k_val r hit) 0 then ior r else ior_behind r hit),
     with_continue hit).
Proof.
  unfold shade_refract, k_val, cos_i, eta, ior_behind, facing. cbv zeta.
  destruct (fgt _ 0); destruct (flt _ 0); reflexivity.
Qed.

(** X25: [shade_refract] continues the path ([continue_ray] set, zero
    radiance) from the hit position moved by [EPS] to the far side of the
    surface.  For a unit direction and a unit normal: when the
    discriminant k is negative the direction is the reflection about the
    normal and the ray keeps its index of refraction; otherwise the new
    direction w is a unit vector on the far side, dot(w, N) = -sqrt(k),
    whose part along the surface is eta times that of the incoming
    direction (Snell's law), and the ray takes the index of the medium
    it enters. *)
Theorem shade_refract_snell (r : Ray) (hit : HitInfo) :
  dot (direction r) (direction r) = 1 -> dot (normal hit) (normal hit) = 1 ->
  let res := shade_refract r hit in
  let r' := snd (fst res) in
  let N := facing r hit in
  fst (fst res) = vzero
  /\ continue_ray (snd res) = true
  /\ origin r' = vsub (position hit) (vscale N EPS)
  /\ tmin r' = EPS
  /\ dot (direction r) N <= 0
  /\ (k_val r hit < 0 ->
      direction r' = reflect (direction r) N /\ ior r' = ior r)
  /\ (0 <= k_val r hit ->
      dot (direction r') (direction r') = 1
      /\ dot (direction r') N = - sqrt (k_val r hit)
      /\ vadd (direction r') (vscale N (sqrt (k_val r hit)))
         = vscale (vadd (direction r) (vscale N (cos_i r hit))) (eta r hit)
      /\ ior r' = ior_behind r hit).
Proof.
  intros Hd Hn. cbv zeta. rewrite shade_refract_unfold.
  cbn [fst snd origin direction tmin ior continue_ray with_continue].
  assert (HN : dot (facing r hit) (facing r hit) = 1).
  { unfold facing. rewrite (normalize_of_unit _ Hn).
    destruct (fgt _ 0); [|exact Hn].
    destruct (normal hit). revert Hn. vsimpl. intros Hn. lra. }
  assert (Hside : dot (direction r) (facing r hit) <= 0).
  { unfold facing, fgt.
    destruct (flt_spec 0 (dot (direction r) (normalize (normal hit)))) as [H|H].
    - destruct (direction r), (normalize (normal hit)). revert H. vsimpl. intros H. lra.
    - lra. }
  split; [reflexivity|]. split; [reflexivity|]. split; [reflexivity|].
  split; [reflexivity|]. split; [exact Hside|].
  destruct (flt_spec (k_val r hit) 0) as [Hk|Hk].
  - split; [intros _; split; reflexivity | intros; lra].
  - split; [intros; lra|]. intros _.
    pose proof (sqrt_sqrt (k_val r hit) ltac:(lra)) as Hs.
    assert (Hc : cos_i r hit = - dot (direction r) (facing r hit)).
    { unfold cos_i. destruct (direction r), (facing r hit). vsimpl. ring. }
    unfold k_val in Hs at 3. rewrite Hc in Hs |- *.
    set (s := sqrt (k_val r hit)) in *. clearbody s.
    set (e := eta r hit) in *. clearbody e.
    destruct (direction r) as [d1 d2 d3], (facing r hit) as [n1 n2 n3].
    revert Hd HN Hs. vsimpl. intros Hd HN Hs.
    split; [nsatz|]. split; [nsatz|]. split; [|reflexivity].
    apply vec3_eq; vsimpl; ring.
Qed.

Lemma shade_refract_snell_witness :
  let res := shade_refract head_on glass_top in
  let r' := snd (fst res) in
  let N := facing head_on glass_top in
  fst (fst res) = vzero
  /\ continue_ray (snd res) = true
  /\ origin r' = vsub (position glass_top) (vscale N EPS)
  /\ tmin r' = EPS
  /\ dot (direction head_on) N <= 0
  /\ (k_val head_on glass_top < 0 ->
      direction r' = reflect (direction head_on) N /\ ior r' = ior head_on)
  /\ (0 <= k_val head_on glass_top ->
      dot (direction r') (direction r') = 1
      /\ dot (direction r') N = - sqrt (k_val head_on glass_top)
      /\ vadd (direction r') (vscale N (sqrt (k_val head_on glass_top)))
         = vscale (vadd (direction head_on) (vscale N (cos_i head_on glass_top)))
             (eta head_on glass_top)
      /\ ior r' = ior_behind head_on glass_top).
Proof.
  apply (shade_refract_snell head_on glass_top).
  - simpl. vsimpl. lra.
  - simpl. vsimpl. lra.
Defined.

(** X26: for a ray with unit direction, the sphere test of the analytic
    scene either leaves the hit record as it is, or records a hit with
    distance in [tmin, tmax] and below the distance recorded before, at
    the ray point of that distance, which lies on the sphere; for a
    radius other than 0 the recorded normal is a unit vector. *)
Theorem analytic_sphere_hit_on_sphere (r : Ray) (hit : HitInfo) (c : vec3)
  (radius : R) (ra rd rs : vec3) (sh ior : R) (id : Z) :
  dot (direction r) (direction r) = 1 ->
  let hit' := intersect_sphere r hit c radius ra rd rs sh ior id in
  hit' = hit
  \/ (has_hit hit' = true
      /\ tmin r <= dist hit' <= tmax r /\ dist hit' < dist hit
      /\ position hit' = vadd (origin r) (vscale (direction r) (dist hit'))
      /\ dot (vsub (position hit') c) (vsub (position hit') c) = radius * radius
      /\ (radius <> 0 -> dot (normal hit') (normal hit') = 1)).
Proof.
  intros Hd. cbv zeta. unfold intersect_sphere. cbv zeta.
  change (dot (vsub (origin r) c) (direction r))
    with (SphereSpec.bhalf (origin r) (direction r) c).
  change (SphereSpec.bhalf (origin r) (direction r) c
          * SphereSpec.bhalf (origin r) (direction r) c
          - (dot (vsub (origin r) c) (vsub (origin r) c) - radius * radius))
    with (SphereSpec.discriminant (origin r) (direction r) c radius).
  unfold fge.
  destruct (fle_spec 0 (SphereSpec.discriminant (origin r) (direction r) c radius))
    as [HD|]; [|left; reflexivity].
  match goal with
  | |- context [hit_update r hit ?t0 _ _ _ _ _ _ _ _] => set (t := t0)
  end.
  assert (Ht : t = SphereSpec.near_root (origin r) (direction r) c radius
               \/ t = SphereSpec.far_root (origin r) (direction r) c radius).
  { unfold t, SphereSpec.near_root, SphereSpec.far_root.
    destruct (flt _ (tmin r)); auto. }
  clearbody t.
  pose proof (root_on_sphere (origin r) (direction r) c radius t Hd HD Ht) as Hon.
  destruct (hit_update_cases r hit t (vadd (origin r) (vscale (direction r) t))
              (vsub (vadd (origin r) (vscale (direction r) t)) c)
              ra rd rs sh ior id) as [[E _]|[E (Hr & Hlt)]]; rewrite E.
  - left. reflexivity.
  - right. cbn [has_hit dist position normal].
    repeat split; try reflexivity; try lra; try assumption.
    intros Hrad. apply normalize_unit. rewrite Hon. nra.
Qed.

Lemma analytic_sphere_hit_on_sphere_witness :
  let hit' := intersect_sphere head_on glass_top (V3 0 0.5 0) 0.3
                vzero vzero (splat 0.1) 42 1.5 4 in
  hit' = glass_top
  \/ (has_hit hit' = true
      /\ tmin head_on <= dist hit' <= tmax head_on /\ dist hit' < dist glass_top
      /\ position hit' = vadd (origin head_on) (vscale (direction head_on) (dist hit'))
      /\ dot (vsub (position hit') (V3 0 0.5 0)) (vsub (position hit') (V3 0 0.5 0))
         = 0.3 * 0.3
      /\ (0.3 <> 0 -> dot (normal hit') (normal hit') = 1)).
Proof.
  apply (analytic_sphere_hit_on_sphere head_on glass_top (V3 0 0.5 0) 0.3).
  simpl. vsimpl. lra.
Defined.

(** From a unit view direction [v] and an [up] vector not parallel to
    it, [normalize(cross(v, up))] and its cross product with [v] complete
    [v] to an orthonormal basis. *)
Lemma camera_basis (v up : vec3) :
  dot v v = 1 -> 0 < dot (cross v up) (cross v up) ->
  let b1 := normalize (cross v up) in
  let b2 := cross b1 v in
  forall x y c : R,
    let q := vadd (vadd (vscale b1 x) (vscale b2 y)) (vscale v c) in
    dot q q = x * x + y * y + c * c /\ dot q v = c.
Proof.
  intros Hv Hw. cbv zeta. intros x y c.
  pose proof (normalize_unit (cross v up) Hw) as Hb1.
  assert (Hperp : dot (normalize (cross v up)) v = 0).
  { unfold normalize. set (l := length (cross v up)).
    destruct v as [v1 v2 v3], up as [u1 u2 u3]. vsimpl. unfold Rdiv. ring. }
  set (b1 := normalize (cross v up)) in *. clearbody b1.
  destruct b1 as [p1 p2 p3], v as [v1 v2 v3].
  revert Hv Hb1 Hperp. vsimpl. intros Hv Hb1 Hperp. split; nsatz.
Qed.

Lemma view_direction :
  normalize (vsub (V3 0 0.5 0) (V3 2 1.5 2)) = V3 (-2/3) (-1/3) (-2/3).
Proof.
  unfold normalize, length.
  replace (dot (vsub (V3 0 0.5 0) (V3 2 1.5 2)) (vsub (V3 0 0.5 0) (V3 2 1.5 2)))
    with (3 * 3) by (vsimpl; lra).
  rewrite sqrt_square by lra. apply vec3_eq; vsimpl; lra.
Qed.

(** X27: for a positive camera constant, [get_camera_ray] returns a ray
    from the eye (2, 1.5, 2) with a unit direction that points forward,
    its component along the view direction being
    cam_const / sqrt(x^2 + y^2 + cam_const^2) for the image-plane point
    (x, y) = (coords.x * aspect / 2, coords.y / 2); the ray through the
    image centre points at the look-at point (0, 0.5, 0), 3 units
    away. *)
Theorem camera_ray_looks_forward (aspect cam_const : R) (coords : R * R) :
  0 < cam_const ->
  let r := get_camera_ray aspect cam_const coords in
  let v := V3 (-2/3) (-1/3) (-2/3) in
  let x := fst coords * aspect * 0.5 in
  let y := snd coords * 0.5 in
  origin r = V3 2 1.5 2
  /\ dot (direction r) (direction r) = 1
  /\ dot (direction r) v = cam_const / sqrt (x * x + y * y + cam_const * cam_const)
  /\ 0 < dot (direction r) v
  /\ (coords = (0, 0) ->
      direction r = v /\ vadd (origin r) (vscale (direction r) 3) = V3 0 0.5 0).
Proof.
  intros Hc. cbv zeta. unfold get_camera_ray. cbv zeta.
  cbn [origin direction fst snd]. rewrite view_direction.
  set (v := V3 (-2/3) (-1/3) (-2/3)).
  set (x := fst coords * aspect * 0.5). set (y := snd coords * 0.5).
  assert (Hv : dot v v = 1) by (unfold v; vsimpl; lra).
  assert (Hw : 0 < dot (cross v (V3 0 1 0)) (cross v (V3 0 1 0)))
    by (unfold v; vsimpl; lra).
  destruct (camera_basis v (V3 0 1 0) Hv Hw x y cam_const) as [Hqq Hqv].
  cbv zeta in Hqq, Hqv.
  set (q := vadd (vadd (vscale (normalize (cross v (V3 0 1 0))) x)
                       (vscale (cross (normalize (cross v (V3 0 1 0))) v) y))
                 (vscale v cam_const)) in *.
  assert (Hpos : 0 < dot q q) by (rewrite Hqq; nra).
  pose proof (sqrt_lt_R0 _ Hpos) as Hs.
  assert (Hdv : dot (normalize q) v
                = cam_const / sqrt (x * x + y * y + cam_const * cam_const)).
  { rewrite <- Hqq, <- Hqv. unfold normalize, length.
    set (l := sqrt (dot q q)) in *. clearbody l.
    destruct q as [q1 q2 q3], v as [v1 v2 v3]. vsimpl. field. lra. }
  split; [reflexivity|]. split; [apply normalize_unit; exact Hpos|].
  split; [exact Hdv|]. split.
  - rewrite Hdv, <- Hqq. apply Rdiv_lt_0_compat; assumption.
  - intros E.
    assert (Hx : x = 0) by (unfold x; rewrite E; cbn [fst]; ring).
    assert (Hy : y = 0) by (unfold y; rewrite E; cbn [snd]; ring).
    assert (Eq : q = vscale v cam_const).
    { unfold q. rewrite Hx, Hy.
      destruct (normalize (cross v (V3 0 1 0))) as [a1 a2 a3].
      destruct (cross (V3 a1 a2 a3) v) as [b1 b2 b3].
      destruct v as [v1 v2 v3]. apply vec3_eq; vsimpl; ring. }
    assert (En : normalize q = v).
    { rewrite Eq. unfold normalize, length.
      replace (dot (vscale v cam_const) (vscale v cam_const))
        with (cam_const * cam_const)
        by (revert Hv; destruct v as [v1 v2 v3]; vsimpl; intros Hv; nsatz).
      rewrite sqrt_square by lra.
      destruct v as [v1 v2 v3]. apply vec3_eq; vsimpl; field; lra. }
    split; [exact En|]. rewrite En. unfold v. apply vec3_eq; vsimpl; lra.
Qed.

Lemma camera_ray_looks_forward_witness :
  let r := get_camera_ray 1 1 (1/2, 1/2) in
  let v := V3 (-2/3) (-1/3) (-2/3) in
  let x := fst (1/2, 1/2) * 1 * 0.5 in
  let y := snd (1/2, 1/2) * 0.5 in
  origin r = V3 2 1.5 2
  /\ dot (direction r) (direction r) = 1
  /\ dot (direction r) v = 1 / sqrt (x * x + y * y + 1 * 1)
  /\ 0 < dot (direction r) v
  /\ ((1/2, 1/2) = (0, 0) ->
      direction r = v /\ vadd (origin r) (vscale (direction r) 3) = V3 0 0.5 0).
Proof.
  apply (camera_ray_looks_forward 1 1 (1/2, 1/2)). lra.
Defined.

(** X28: in the bounce loop of the analytic [main_fs] a ray that misses
    the scene adds the background colour and ends the path; a hit adds
    the colour [shade] returns, and the path goes on exactly when the
    hit's shader is mirror (3), refraction (4) or glossy (5): the base,
    Lambert and Phong shaders and every unknown shader number end it. *)
Theorem opaque_hit_ends_path (matt_id sphere_id : Z) (n : nat)
  (final_color : vec3) (r : Ray) :
  let res := intersect_scene matt_id sphere_id r zero_hit in
  let r1 := snd (fst res) in
  let h1 := snd res in
  let sh := shade matt_id sphere_id r1 h1 (V3 0 1 0) in
  (fst (fst res) = false ->
   trace matt_id sphere_id (S n) final_color r = vadd final_color (V3 0.1 0.3 0.6))
  /\ (fst (fst res) = true ->
      trace matt_id sphere_id (S n) final_color r
      = if ((shader h1 =? 3) || (shader h1 =? 4) || (shader h1 =? 5))%Z
        then trace matt_id sphere_id n (vadd final_color (fst (fst sh))) (snd (fst sh))
        else vadd final_color (fst (fst sh))).
Proof.
  cbv zeta.
  pose proof (analytic_scene_frame matt_id sphere_id r zero_hit) as Hf.
  cbn [trace].
  destruct (intersect_scene matt_id sphere_id r zero_hit) as [[b r1] h1].
  cbn [fst snd] in *. destruct Hf as (Hb & Hcont).
  split; intros ->; cbn [negb]; [reflexivity|].
  specialize (Hcont eq_refl).
  unfold shade.
  destruct (shader h1 =? 0)%Z eqn:E0.
  { apply Z.eqb_eq in E0. rewrite E0. cbn [Z.eqb orb fst snd].
    rewrite Hcont. reflexivity. }
  destruct (shader h1 =? 1)%Z eqn:E1.
  { apply Z.eqb_eq in E1. rewrite E1. cbn [Z.eqb Pos.eqb orb fst snd].
    rewrite Hcont. reflexivity. }
  destruct (shader h1 =? 2)%Z eqn:E2.
  { apply Z.eqb_eq in E2. rewrite E2. cbn [Z.eqb Pos.eqb orb fst snd].
    rewrite Hcont. reflexivity. }
  destruct (shader h1 =? 3)%Z eqn:E3; [cbn [orb]; reflexivity|].
  destruct (shader h1 =? 4)%Z eqn:E4.
  { cbn [orb]. rewrite shade_refract_unfold. reflexivity. }
  destruct (shader h1 =? 5)%Z eqn:E5.
  { cbn [orb]. unfold shade_glossy. rewrite shade_refract_unfold. reflexivity. }
  cbn [orb fst snd]. rewrite Hcont. reflexivity.
Qed.

End AnalyticScene.
